(** * openwhisk-grpc: the versioned store and the server that routes to it

    A shallow embedding of [storage/store.go] (package [storage]) and of
    [server/server.go] (package [main]), followed by the properties of the
    specification that are settled against it.

    Conventions of the embedding.
    - Go's fixed-width integers are integers of [Z]; every operation that can
      leave the range is followed by the reduction of its type ([uint64],
      [uint32], [int]).
    - A slice is a [list]; a Go map is a [gmap]; a [*Node] obtained from
      [&s.Nodes[i]] is the slot index [i], and [nil] is [None].
    - A run of a function ends in [Done], or in [Panic] (nil dereference,
      index out of range), or in [Fatal] ([log.Fatalln]).
    - The [for] loop of [Store.Get] has no bound in the source; its model takes
      fuel and answers [None] when the fuel is used up. *)

From stdpp Require Import gmap strings list.
From Stdlib Require Import ZArith Lia.

Local Open Scope Z_scope.

(** ** Machine integers *)

Definition MaxUint64 : Z := 2 ^ 64 - 1.
Definition MaxUint32 : Z := 2 ^ 32 - 1.

(** Conversions to [uint64], to [uint32] and to the 64-bit signed [int]. *)
Definition uint64 (z : Z) : Z := z mod 2 ^ 64.
Definition uint32 (z : Z) : Z := z mod 2 ^ 32.
Definition int (z : Z) : Z := (z + 2 ^ 63) mod 2 ^ 64 - 2 ^ 63.

(** [len(x) > n] on a slice or a string. *)
#[global] Instance nat_gt_dec (n m : nat) : Decision (n > m)%nat :=
  decide (m < n)%nat.

(** ** Outcomes of a run *)

Inductive outcome (A : Type) : Type :=
| Done (a : A)
| Panic
| Fatal.
Arguments Done {A} a.
Arguments Panic {A}.
Arguments Fatal {A}.

(** A Go [error]: [nil] or a message. *)
Definition error : Type := option string.

(** ** Package [db]: the messages of the RPC surface

    The generated package is not among the sources; the messages are the ones
    that [server.go] builds and reads, field by field. A message received
    through a pointer may be [nil], which is [None]. *)

Module db.

Record Node : Type := mkNode {
  Location : Z;
  Dep : Z;
  Key : string;
  Value : string;
  Children : list Z
}.

(** [&db.Node{}] *)
Definition Node0 : Node :=
  {| Location := 0; Dep := 0; Key := ""; Value := ""; Children := [] |}.

Module GetRequest.
Record t : Type := mk { Key : string; Location : Z }.
End GetRequest.

Module GetResponse.
Record t : Type := mk { Value : string }.
End GetResponse.

Module SetRequest.
Record t : Type := mk { Key : string; Value : string; Dep : Z }.
End SetRequest.

Module SetResponse.
Record t : Type := mk { Location : Z }.
End SetResponse.

Module GetNodeRequest.
Record t : Type := mk { Location : Z }.
End GetNodeRequest.

Module AddChildRequest.
Record t : Type := mk { Location : Z; Child : Z }.
End AddChildRequest.

Module RemoveChildrenRequest.
Record t : Type := mk { Location : Z }.
End RemoveChildrenRequest.

Module AddNodeRequest.
Record t : Type := mk { Node : option db.Node }.
End AddNodeRequest.

Module SplitRequest.
Record t : Type := mk {
  Left : Z; Right : Z; Mid : Z; LeftServer : string; RightServer : string
}.
End SplitRequest.

Module SetIndexingLockRequest.
Record t : Type := mk { Lock : bool }.
End SetIndexingLockRequest.

Module SetIndexingLockResponse.
Record t : Type := mk { Success : bool }.
End SetIndexingLockResponse.

Module SetMergeFunctionRequest.
Record t : Type := mk { Location : Z; Name : string }.
End SetMergeFunctionRequest.

Module SetGlobalMergeFunctionRequest.
Record t : Type := mk { Name : string }.
End SetGlobalMergeFunctionRequest.

(** [db.Nodes], the shape that the answer of a merge function is decoded to;
    an element of [Nodes] is a [*db.Node]. *)
Module Nodes.
Record t : Type := mk { Nodes : list (option db.Node) }.
End Nodes.

Inductive Empty : Type := mkEmpty.

(** A call on a [DbServiceClient], with its request. *)
Inductive call : Type :=
| Get (in_ : GetRequest.t)
| Set_ (in_ : SetRequest.t)
| GetNode (in_ : GetNodeRequest.t)
| AddChild (in_ : AddChildRequest.t)
| RemoveChildren (in_ : RemoveChildrenRequest.t)
| AddNode (in_ : AddNodeRequest.t)
| Split (in_ : SplitRequest.t)
| SetIndexingLock (in_ : SetIndexingLockRequest.t)
| SetMergeFunction (in_ : SetMergeFunctionRequest.t)
| SetGlobalMergeFunction (in_ : SetGlobalMergeFunctionRequest.t).

(** The message that the call answers with. *)
Definition reply (c : call) : Type :=
  match c with
  | Get _ => GetResponse.t
  | Set_ _ => SetResponse.t
  | GetNode _ => Node
  | AddChild _ => Node
  | RemoveChildren _ => Empty
  | AddNode _ => Empty
  | Split _ => Empty
  | SetIndexingLock _ => SetIndexingLockResponse.t
  | SetMergeFunction _ => Empty
  | SetGlobalMergeFunction _ => Empty
  end.

End db.

(** ** Package [storage] *)

Module storage.

Record Node : Type := mkNode {
  Location : Z;
  Dep : Z;
  Children : list Z;
  Key : string;
  Value : string
}.

#[global] Instance Node_eq_dec : EqDecision Node.
Proof. solve_decision. Defined.

(** [MemLocation] holds slot indices: the code stores [0] and
    [len(s.Nodes) - 1] after an append, never a negative number. The
    [sync.RWMutex] of the source has no content in a sequential run. *)
Record Store : Type := mkStore {
  Nodes : list Node;
  MemLocation : gmap Z nat;
  Size : Z
}.

(** The zero value [storage.Store{}]. Its [MemLocation] is the [nil] map,
    which reads as the empty map does; [Init] replaces it by a made map
    before anything is written. *)
Definition zero : Store :=
  {| Nodes := []; MemLocation := ∅; Size := 0 |}.

(** The root that [Init] creates; the fields it leaves out are zero. *)
Definition root : Node :=
  {| Location := 0; Dep := MaxUint64; Children := []; Key := ""; Value := "" |}.

Definition Init (s : Store) : Store :=
  if decide (length (Nodes s) = 0%nat) then
    {| Nodes := Nodes s ++ [root];
       MemLocation := <[0 := 0%nat]> ∅;
       Size := Size s |}
  else s.

(** [newNode] on a store whose map has been made, as the map of every store
    is from [Init] on. The record does not tell the [nil] map of the zero
    value, on which the write [s.MemLocation[location] = memLoc] panics, from
    an empty map: the stores that [newNode], [Set] and [AddNode] are meant
    for are those whose map was made, the stores of a running server
    ([reachable] below) among them. *)
Definition newNode (s : Store) (location dep : Z) (key value : string) : Store :=
  let node :=
    {| Location := location; Dep := dep; Key := key;
       Children := []; Value := value |} in
  let nodes := Nodes s ++ [node] in
  let memLoc := (length nodes - 1)%nat in
  {| Nodes := nodes;
     MemLocation := <[location := memLoc]> (MemLocation s);
     Size := int (Size s + 1) |}.

(** A [*Node]: [None] is [nil], [Some i] is [&s.Nodes[i]]. *)
Definition ptr : Type := option nat.

Definition GetNode (s : Store) (loc : Z) : outcome ptr :=
  match MemLocation s !! loc with
  | None => Done None
  | Some memLoc =>
      if decide (memLoc < length (Nodes s))%nat then Done (Some memLoc)
      else Panic
  end.

(** Reading a field through a [*Node]. *)
Definition deref (s : Store) (p : ptr) : outcome Node :=
  match p with
  | None => Panic
  | Some i =>
      match Nodes s !! i with
      | Some n => Done n
      | None => Panic
      end
  end.

(** The message of [fmt.Errorf("Key %s not found", key)]. *)
Definition NotFound (key : string) : string :=
  "Key " +:+ key +:+ " not found".

(** The [for] loop of [Get]; [node] is the loop variable. *)
Fixpoint Get_loop (fuel : nat) (s : Store) (key : string) (node : ptr)
  : option (outcome (string * error)) :=
  match fuel with
  | O => None
  | S fuel' =>
      match deref s node with
      | Done n =>
          if decide (Key n = key) then Some (Done (Value n, None))
          else if decide (Dep n = MaxUint64) then
            Some (Done ("", Some (NotFound key)))
          else
            match GetNode s (Dep n) with
            | Done p => Get_loop fuel' s key p
            | Panic => Some Panic
            | Fatal => Some Fatal
            end
      | Panic => Some Panic
      | Fatal => Some Fatal
      end
  end.

Definition Get (fuel : nat) (s : Store) (key : string) (loc : Z)
  : option (outcome (string * error)) :=
  match GetNode s loc with
  | Done node => Get_loop fuel s key node
  | Panic => Some Panic
  | Fatal => Some Fatal
  end.

Definition add_child (child : Z) (n : Node) : Node :=
  {| Location := Location n; Dep := Dep n;
     Children := Children n ++ [child];
     Key := Key n; Value := Value n |}.

(** [AddChild] writes through the pointer and returns it. *)
Definition AddChild (s : Store) (location child : Z) : outcome (ptr * Store) :=
  match GetNode s location with
  | Done (Some i) =>
      match Nodes s !! i with
      | Some n =>
          Done (Some i,
                {| Nodes := <[i := add_child child n]> (Nodes s);
                   MemLocation := MemLocation s;
                   Size := Size s |})
      | None => Panic
      end
  | Done None => Panic
  | Panic => Panic
  | Fatal => Fatal
  end.

Section WithHash.

(** [utils.Hash2Uint (utils.Hash ([]byte key))], a [uint32]; package
    [utils] is not part of the sources at hand. *)
Variable hash32 : string → Z.

(** The location that [Set] and [CreateNode] compute; [rnd] is the draw of
    [rand.Uint32()]. *)
Definition fresh_location (key : string) (rnd : Z) : Z :=
  uint64 (uint64 rnd + uint64 (Z.shiftl (uint64 (hash32 key)) 32)).

(** [Store.Set]; the name [Set] is taken in Rocq. *)
Definition Set_ (s : Store) (key value : string) (dep : Z) (rnd : Z)
  : Z * Store :=
  let loc := fresh_location key rnd in
  (loc, newNode s loc dep key value).

Definition CreateNode (key value : string) (dep : Z) (rnd : Z) : db.Node :=
  let loc := fresh_location key rnd in
  {| db.Location := loc; db.Dep := dep; db.Key := key; db.Value := value;
     db.Children := [] |}.

End WithHash.

(** [AddNode] reads the fields of its [*db.Node], which may be [nil]. *)
Definition AddNode (s : Store) (node : option db.Node) : outcome Store :=
  match node with
  | Some node =>
      Done (newNode s (db.Location node) (db.Dep node) (db.Key node)
              (db.Value node))
  | None => Panic
  end.

(** [Node{Key: ""}], what [RemoveNode] leaves in the slot. *)
Definition tombstone : Node :=
  {| Location := 0; Dep := 0; Children := []; Key := ""; Value := "" |}.

Definition RemoveNode (s : Store) (location : Z) : Store :=
  match list_find (λ node, Location node = location) (Nodes s) with
  | Some (i, _) =>
      {| Nodes := <[i := tombstone]> (Nodes s);
         MemLocation := MemLocation s;
         Size := int (Size s - 1) |}
  | None => s
  end.

(** [node.Children = nil] through a pointer into [s.Nodes], as
    [Server.RemoveChildren] does. *)
Definition clear_children (s : Store) (node : ptr) : Store :=
  match node with
  | Some i =>
      {| Nodes :=
           alter (λ n, {| Location := Location n; Dep := Dep n;
                          Children := [];
                          Key := Key n; Value := Value n |}) i (Nodes s);
         MemLocation := MemLocation s;
         Size := Size s |}
  | None => s
  end.

(** The stores of a running server: [Server.Init] calls [Init] on the zero
    value, and the store changes only by [newNode] (from [Set] and
    [AddNode]), [AddChild], [RemoveNode] and the write of
    [Server.RemoveChildren]. *)
Inductive reachable : Store → Prop :=
| reach_Init : reachable (Init zero)
| reach_newNode s location dep key value :
    reachable s → reachable (newNode s location dep key value)
| reach_AddChild s location child p s' :
    reachable s → AddChild s location child = Done (p, s') → reachable s'
| reach_RemoveNode s location :
    reachable s → reachable (RemoveNode s location)
| reach_clear_children s i :
    reachable s → reachable (clear_children s (Some i)).

(** *** Notions of the specification *)

(** A node is valid when its key is not empty. *)
Definition valid (n : Node) : Prop := Key n ≠ "".

#[global] Instance valid_dec n : Decision (valid n).
Proof. unfold valid. apply _. Defined.

Definition count_valid (nodes : list Node) : nat :=
  length (filter valid nodes).

(** [Size] counts the valid nodes. *)
Definition size_ok (s : Store) : Prop :=
  Size s = Z.of_nat (count_valid (Nodes s)).

(** The root that [Init] created, whatever children it has by now. *)
Definition is_root (n : Node) : Prop :=
  Location n = Location root ∧ Dep n = Dep root
  ∧ Key n = Key root ∧ Value n = Value root.

(** [n'] has the location, parent, key and value of [n]. *)
Definition same_identity (n n' : Node) : Prop :=
  Location n' = Location n ∧ Dep n' = Dep n
  ∧ Key n' = Key n ∧ Value n' = Value n.

(** Slot 0 holds a node without a key, as it does from [Init] on. *)
Definition rooted (s : Store) : Prop :=
  ∃ n, Nodes s !! 0%nat = Some n ∧ Key n = "".

(** [resolves s loc n]: [GetNode] gives a pointer to [n] for [loc]. *)
Definition resolves (s : Store) (loc : Z) (n : Node) : Prop :=
  ∃ i, GetNode s loc = Done (Some i) ∧ Nodes s !! i = Some n.

(** [path s loc ns]: the nodes that a walk from [loc] along [Dep] visits, in
    the order of the visit; the walk goes on from a node only when its
    [Dep] is not the root mark. *)
Inductive path (s : Store) : Z → list Node → Prop :=
| path_end loc n :
    resolves s loc n → path s loc [n]
| path_step loc n ns :
    resolves s loc n → Dep n ≠ MaxUint64 → path s (Dep n) ns →
    path s loc (n :: ns).

(** Every entry of [MemLocation] points into [Nodes]. *)
Definition well_formed (s : Store) : Prop :=
  ∀ loc i, MemLocation s !! loc = Some i → (i < length (Nodes s))%nat.

(** At most one slot carries the location [loc]. *)
Definition one_slot (s : Store) (loc : Z) : Prop :=
  (length (filter (λ n, Location n = loc) (Nodes s)) ≤ 1)%nat.

End storage.


(** ** Package [indexing] *)

Module indexing.

(** Modelled from the spec: the range table of [indexing.Service], a sequence
    of ranges [lo, hi] each mapped to one server address; package [indexing]
    is not among the sources. [server.go] reads and writes the field [Lock]
    itself and reaches the table only through the methods of the service,
    which are parameters of the server below. *)
Record Service : Type := mkService {
  Mapping : list (Z * Z * string);
  Lock : bool
}.

Definition set_Lock (b : bool) (svc : Service) : Service :=
  {| Mapping := Mapping svc; Lock := b |}.

End indexing.


(** ** Package [main]: the server *)

Module server.

Definition bytes : Type := list Byte.byte.

(** What a handler does to the outside, in the order it does it. *)
Inductive Event : Type :=
| Dialed (address : string)
| Called (address : string) (c : db.call)
| Drew
| Invoked (name : string) (params : bytes).

(** The fields of [Server] that the handlers use. The [sync.RWMutex] has no
    content in a sequential run of one handler. *)
Record Server : Type := mkServer {
  Servers : list string;
  AvailableServers : list string;
  Self : string;
  Initial : string;
  Threshold : Z;
  mergeFunction : gmap Z string;
  globalMergeFunction : string
}.

(** The state that a handler works on: the package variables [store] and
    [indexingService], the receiver, and the events so far. *)
Record World : Type := mkWorld {
  store : storage.Store;
  indexingService : indexing.Service;
  self : Server;
  trace : list Event
}.

(** Everything that [server.go] calls and that lies outside [storage]: the
    packages [utils] and [indexing] of this repository, which are not among
    the sources, the libraries [encoding/json], [math/rand] and [grpc], and
    the peers. An answer of the outside may depend on the events so far. *)
Record Env : Type := mkEnv {
  (** [utils.Hash2Uint (utils.Hash ([]byte key))] *)
  hash32 : string → Z;
  (** [utils.KeyHash] *)
  KeyHash : Z → Z;
  (** [utils.CallAction] *)
  CallAction : list Event → string → bytes → bytes;
  (** the methods of [indexing.Service] *)
  Locate : indexing.Service → Z → string;
  LocateKey : indexing.Service → string → string;
  Range : indexing.Service → string → Z * Z;
  AddMapping : indexing.Service → Z → Z → string → indexing.Service;
  RemoveMapping : indexing.Service → Z → Z → indexing.Service;
  (** [json.Marshal] of a [*db.Node], and [json.Unmarshal] into a
      [*db.Nodes] that starts as [nil] *)
  Marshal : db.Node → bytes;
  Unmarshal : bytes → option db.Nodes.t * error;
  (** [rand.Uint32()] and [rand.Intn(n)] *)
  rand_Uint32 : list Event → Z;
  rand_Intn : list Event → Z → Z;
  (** the order in which a [range] visits the entries of a map *)
  range_order : list (string * list db.Node) → list (string * list db.Node);
  (** [grpc.Dial], and a call on the client of the connection *)
  Dial : list Event → string → error;
  client : list Event → string → ∀ c : db.call, option (db.reply c) * error
}.

(** *** Handlers as state transformers *)

Definition M (A : Type) : Type := World → outcome (A * World).

Definition ret {A} (a : A) : M A := λ w, Done (a, w).

Definition bind {A B} (m : M A) (k : A → M B) : M B :=
  λ w, match m w with
       | Done (a, w') => k a w'
       | Panic => Panic
       | Fatal => Fatal
       end.

Notation "'let*' x ':=' m 'in' k" := (bind m (λ x, k))
  (at level 10, x name, m at level 100, k at level 200).

Definition panic {A} : M A := λ _, Panic.
Definition fatal {A} : M A := λ _, Fatal.

Definition lift {A} (o : outcome A) : M A :=
  λ w, match o with
       | Done a => Done (a, w)
       | Panic => Panic
       | Fatal => Fatal
       end.

Definition the_world : M World := λ w, Done (w, w).

Definition put_store (st : storage.Store) : M unit :=
  λ w, Done (tt, {| store := st; indexingService := indexingService w;
                    self := self w; trace := trace w |}).

Definition put_indexing (svc : indexing.Service) : M unit :=
  λ w, Done (tt, {| store := store w; indexingService := svc;
                    self := self w; trace := trace w |}).

Definition put_self (s : Server) : M unit :=
  λ w, Done (tt, {| store := store w; indexingService := indexingService w;
                    self := s; trace := trace w |}).

Definition emit (e : Event) : M unit :=
  λ w, Done (tt, {| store := store w; indexingService := indexingService w;
                    self := self w; trace := trace w ++ [e] |}).

(** The world with the split lock set to [b]. *)
Definition with_Lock (b : bool) (w : World) : World :=
  {| store := store w;
     indexingService := indexing.set_Lock b (indexingService w);
     self := self w;
     trace := trace w |}.

(** The world after a dial, and after a dial and a call. *)
Definition dialed (address : string) (w : World) : World :=
  {| store := store w; indexingService := indexingService w;
     self := self w; trace := trace w ++ [Dialed address] |}.

Definition called (address : string) (c : db.call) (w : World) : World :=
  {| store := store w; indexingService := indexingService w;
     self := self w;
     trace := (trace w ++ [Dialed address]) ++ [Called address c] |}.

(** What the peer answers to the one call that follows a dial. *)
Definition answer (E : Env) (address : string) (c : db.call) (w : World)
  : option (db.reply c) * error :=
  client E (trace w ++ [Dialed address]) address c.

(** The world with another store, another receiver, more events. *)
Definition with_store (st : storage.Store) (w : World) : World :=
  {| store := st; indexingService := indexingService w;
     self := self w; trace := trace w |}.

Definition with_self (s : Server) (w : World) : World :=
  {| store := store w; indexingService := indexingService w;
     self := s; trace := trace w |}.

Definition logged (events : list Event) (w : World) : World :=
  {| store := store w; indexingService := indexingService w;
     self := self w; trace := trace w ++ events |}.

(** The call that asks a peer for its split lock, or releases it. *)
Definition lock_call (b : bool) : db.call :=
  db.SetIndexingLock {| db.SetIndexingLockRequest.Lock := b |}.

(** A [for ... range] whose body neither breaks nor returns. *)
Fixpoint for_each {A} (l : list A) (body : A → M unit) : M unit :=
  match l with
  | [] => ret tt
  | x :: l' => let* _ := body x in for_each l' body
  end.

Definition to_db (node : storage.Node) : db.Node :=
  {| db.Location := storage.Location node;
     db.Dep := storage.Dep node;
     db.Key := storage.Key node;
     db.Value := storage.Value node;
     db.Children := storage.Children node |}.

Definition set_AvailableServers (l : list string) (s : Server) : Server :=
  {| Servers := Servers s; AvailableServers := l; Self := Self s;
     Initial := Initial s; Threshold := Threshold s;
     mergeFunction := mergeFunction s;
     globalMergeFunction := globalMergeFunction s |}.

Definition set_mergeFunction (m : gmap Z string) (s : Server) : Server :=
  {| Servers := Servers s; AvailableServers := AvailableServers s;
     Self := Self s; Initial := Initial s; Threshold := Threshold s;
     mergeFunction := m;
     globalMergeFunction := globalMergeFunction s |}.

Definition set_globalMergeFunction (name : string) (s : Server) : Server :=
  {| Servers := Servers s; AvailableServers := AvailableServers s;
     Self := Self s; Initial := Initial s; Threshold := Threshold s;
     mergeFunction := mergeFunction s;
     globalMergeFunction := name |}.

(** [fmt]'s verb [%x] on a [uint64]: lower-case hexadecimal digits. *)
Definition hex_digit (d : Z) : string :=
  String.substring (Z.to_nat d) 1 "0123456789abcdef".

Fixpoint hex_loop (fuel : nat) (z : Z) (acc : string) : string :=
  match fuel with
  | O => acc
  | S fuel' =>
      let acc' := hex_digit (z mod 16) +:+ acc in
      if decide (z / 16 = 0) then acc' else hex_loop fuel' (z / 16) acc'
  end.

Definition hex (z : Z) : string := hex_loop 16 z "".

(** *** The plan of a split: lines 294 to 359 of [splitRange] *)

Definition split_mid (left right : Z) : Z :=
  uint32 (uint64 (uint64 left + uint64 right) / 2).

Section Plan.

Variable KeyHash : Z → Z.
Variable mid : Z.

(** The loop that fills [keys]; [i] is the index of the range. *)
Fixpoint keys_loop (i : nat) (nodes : list storage.Node) (keys : list Z)
  : list Z :=
  match nodes with
  | [] => keys
  | node :: rest =>
      if decide (i = 0%nat ∨ storage.Key node = "") then
        keys_loop (S i) rest keys
      else
        keys_loop (S i) rest (keys ++ [KeyHash (storage.Location node)])
  end.

(** The loop that counts; the state is [(le, greater)]. *)
Fixpoint count_loop (keys : list Z) (le greater : Z) : Z * Z :=
  match keys with
  | [] => (le, greater)
  | key :: rest =>
      if decide (key > mid) then count_loop rest le (int (greater + 1))
      else if decide (key <= mid) then count_loop rest (int (le + 1)) greater
      else count_loop rest le greater
  end.

(** The loop that fills [results]; [moves] is the test on [keys[i]], which
    is [<= mid] in the first branch and [> mid] in the second. The index [i]
    cannot leave [int] before it leaves [keys]. *)
Fixpoint results_loop (moves : Z → bool) (keys : list Z)
  (nodes : list storage.Node) (i : nat) (results : list db.Node)
  : outcome (list db.Node) :=
  match nodes with
  | [] => Done results
  | node :: rest =>
      if decide (storage.Key node = "") then
        results_loop moves keys rest i results
      else
        match keys !! i with
        | None => Panic
        | Some key =>
            results_loop moves keys rest (S i)
              (if moves key then results ++ [to_db node] else results)
        end
  end.

(** The hash that [splitRange] sorts a node by, and the hashes of the valid
    nodes in the order of the store. *)
Definition node_hash (n : storage.Node) : Z := KeyHash (storage.Location n).

Definition hashes (nodes : list storage.Node) : list Z :=
  node_hash <$> filter storage.valid nodes.

Record Plan : Type := mkPlan {
  results : list db.Node;
  leftServer : string;
  rightServer : string
}.

(** [self_addr] is [s.Self], [server] the peer that was drawn. *)
Definition split_plan (self_addr server : string) (nodes : list storage.Node)
  : outcome Plan :=
  let keys := keys_loop 0 nodes [] in
  let '(le, greater) := count_loop keys 0 0 in
  if decide (greater >= le) then
    match results_loop (λ key, bool_decide (key <= mid)) keys nodes 0 [] with
    | Done results =>
        Done {| results := results; rightServer := self_addr;
                leftServer := server |}
    | Panic => Panic
    | Fatal => Fatal
    end
  else
    match results_loop (λ key, bool_decide (key > mid)) keys nodes 0 [] with
    | Done results =>
        Done {| results := results; rightServer := server;
                leftServer := self_addr |}
    | Panic => Panic
    | Fatal => Fatal
    end.

End Plan.

(** *** The handlers *)

Section Handlers.

Variable E : Env.

(** The branch "Forward request to the correct server" of [RemoveChildren],
    [AddChild], [Get] and [GetNode]: dial, give up with the empty message
    [empty] and the error of the dial, or else answer with whatever the call
    on the client answers. *)
Definition forward (address : string) (c : db.call) (empty : db.reply c)
  : M (option (db.reply c) * error) :=
  let* w := the_world in
  let err := Dial E (trace w) address in
  let* _ := emit (Dialed address) in
  match err with
  | Some e => ret (Some empty, Some e)
  | None =>
      let* w := the_world in
      let r := client E (trace w) address c in
      let* _ := emit (Called address c) in
      ret r
  end.

Definition RemoveChildren (in_ : db.RemoveChildrenRequest.t)
  : M (option db.Empty * error) :=
  let* w := the_world in
  let address :=
    Locate E (indexingService w) (KeyHash E (db.RemoveChildrenRequest.Location in_)) in
  if decide (address = Self (self w)) then
    let* node := lift (storage.GetNode (store w) (db.RemoveChildrenRequest.Location in_)) in
    let* n := lift (storage.deref (store w) node) in
    let* _ := for_each (storage.Children n) (λ child,
                let* w := the_world in
                put_store (storage.RemoveNode (store w) child)) in
    let* w := the_world in
    let* _ := put_store (storage.clear_children (store w) node) in
    ret (Some db.mkEmpty, None)
  else
    forward address (db.RemoveChildren in_) db.mkEmpty.

Definition AddChild (in_ : db.AddChildRequest.t)
  : M (option db.Node * error) :=
  let* w := the_world in
  let address :=
    Locate E (indexingService w) (KeyHash E (db.AddChildRequest.Location in_)) in
  if decide (address = Self (self w)) then
    let* r := lift (storage.AddChild (store w)
                      (db.AddChildRequest.Location in_)
                      (db.AddChildRequest.Child in_)) in
    let* _ := put_store r.2 in
    let* node := lift (storage.deref r.2 r.1) in
    ret (Some (to_db node), None)
  else
    forward address (db.AddChild in_) db.Node0.

(** [Get] runs the loop of [storage.Get] and so takes its fuel. *)
Definition Get (fuel : nat) (in_ : db.GetRequest.t) (w : World)
  : option (outcome ((option db.GetResponse.t * error) * World)) :=
  let address := LocateKey E (indexingService w) (db.GetRequest.Key in_) in
  if decide (address = Self (self w)) then
    match storage.Get fuel (store w) (db.GetRequest.Key in_)
                      (db.GetRequest.Location in_) with
    | None => None
    | Some (Done (value, err)) =>
        Some (Done ((Some {| db.GetResponse.Value := value |}, err), w))
    | Some Panic => Some Panic
    | Some Fatal => Some Fatal
    end
  else
    Some (forward address (db.Get in_) {| db.GetResponse.Value := "" |} w).

Definition GetNode (in_ : db.GetNodeRequest.t)
  : M (option db.Node * error) :=
  let* w := the_world in
  let address :=
    Locate E (indexingService w) (KeyHash E (db.GetNodeRequest.Location in_)) in
  if decide (address = Self (self w)) then
    let* node := lift (storage.GetNode (store w) (db.GetNodeRequest.Location in_)) in
    match node with
    | None =>
        ret (Some db.Node0,
             Some ("Location " +:+ hex (db.GetNodeRequest.Location in_) +:+ " not found"))
    | Some _ =>
        let* n := lift (storage.deref (store w) node) in
        ret (Some (to_db n), None)
    end
  else
    forward address (db.GetNode in_) db.Node0.

Definition SetIndexingLock (in_ : db.SetIndexingLockRequest.t)
  : M (option db.SetIndexingLockResponse.t * error) :=
  let* w := the_world in
  if db.SetIndexingLockRequest.Lock in_ then
    if negb (indexing.Lock (indexingService w)) then
      let* _ := put_indexing (indexing.set_Lock true (indexingService w)) in
      ret (Some {| db.SetIndexingLockResponse.Success := true |}, None)
    else
      ret (Some {| db.SetIndexingLockResponse.Success := false |}, None)
  else
    let* _ := put_indexing (indexing.set_Lock false (indexingService w)) in
    ret (Some {| db.SetIndexingLockResponse.Success := true |}, None).

(** [AvailableServers] after the loop of [Split] that drops the first entry
    equal to one of the two servers: the last entry takes its place. *)
Definition drop_available (avail : list string) (l r : string) : list string :=
  match list_find (λ server, server = l ∨ server = r) avail with
  | Some (i, _) =>
      match last avail with
      | Some x => take (length avail - 1) (<[i := x]> avail)
      | None => avail
      end
  | None => avail
  end.

Definition Split (in_ : db.SplitRequest.t) : M (option db.Empty * error) :=
  let* w := the_world in
  let svc := RemoveMapping E (indexingService w)
               (db.SplitRequest.Left in_) (db.SplitRequest.Right in_) in
  let svc := AddMapping E svc (db.SplitRequest.Left in_)
               (db.SplitRequest.Mid in_) (db.SplitRequest.LeftServer in_) in
  let svc := AddMapping E svc (uint32 (db.SplitRequest.Mid in_ + 1))
               (db.SplitRequest.Right in_) (db.SplitRequest.RightServer in_) in
  let* _ := put_indexing svc in
  let* _ := put_self
    (set_AvailableServers
       (drop_available (AvailableServers (self w))
          (db.SplitRequest.LeftServer in_) (db.SplitRequest.RightServer in_))
       (self w)) in
  ret (Some db.mkEmpty, None).

Definition AddNode (in_ : db.AddNodeRequest.t) : M (option db.Empty * error) :=
  let* w := the_world in
  let* st := lift (storage.AddNode (store w) (db.AddNodeRequest.Node in_)) in
  let* _ := put_store st in
  ret (Some db.mkEmpty, None).

Definition SetMergeFunction (in_ : db.SetMergeFunctionRequest.t)
  : M (option db.Empty * error) :=
  let* w := the_world in
  let location := db.SetMergeFunctionRequest.Location in_ in
  let name := db.SetMergeFunctionRequest.Name in_ in
  let* _ := put_self
    (set_mergeFunction
       (if decide (String.length name = 0%nat)
        then delete location (mergeFunction (self w))
        else <[location := name]> (mergeFunction (self w)))
       (self w)) in
  ret (Some db.mkEmpty, None).

(** A call on a client whose error is fatal for the process. *)
Definition must_call (address : string) (c : db.call) : M (option (db.reply c)) :=
  let* w := the_world in
  let r := client E (trace w) address c in
  let* _ := emit (Called address c) in
  match r.2 with
  | Some _ => fatal
  | None => ret r.1
  end.

(** A dial whose error is fatal for the process. *)
Definition must_dial (address : string) : M unit :=
  let* w := the_world in
  let err := Dial E (trace w) address in
  let* _ := emit (Dialed address) in
  match err with
  | Some _ => fatal
  | None => ret tt
  end.

(** The call to a peer is logged as an event and its answer is dropped, as
    in the source. The peer runs this same handler and so calls the servers
    of its own list in turn; whether the call returns is not decided here,
    and the properties of this handler are stated for the runs that make no
    call. *)
Definition SetGlobalMergeFunction (in_ : db.SetGlobalMergeFunctionRequest.t)
  : M (option db.Empty * error) :=
  let* w := the_world in
  let* _ := for_each (Servers (self w)) (λ addr,
    let* w := the_world in
    if decide (addr = Self (self w)) then
      put_self (set_globalMergeFunction
                  (db.SetGlobalMergeFunctionRequest.Name in_) (self w))
    else
      let* _ := must_dial addr in
      emit (Called addr (db.SetGlobalMergeFunction in_))) in
  ret (Some db.mkEmpty, None).

(** A call is logged as an event of the outside. A call to the address of
    this server itself would run its own [AddNode]; that is not followed
    here, and the properties of [distributeNodes] are stated for nodes that
    other servers own. *)
Definition distributeNodes (nodes : list (option db.Node)) : M unit :=
  let* w := the_world in
  let* nodeMapping :=
    lift (foldl (λ (acc : outcome (gmap string (list db.Node))) node,
             match acc, node with
             | Done m, Some n =>
                 let server := Locate E (indexingService w) (KeyHash E (db.Location n)) in
                 Done (<[server := default [] (m !! server) ++ [n]]> m)
             | Done _, None => Panic
             | _, _ => acc
             end) (Done ∅) nodes) in
  for_each (range_order E (map_to_list nodeMapping)) (λ entry,
    let* _ := must_dial entry.1 in
    for_each entry.2 (λ node,
      emit (Called entry.1 (db.AddNode {| db.AddNodeRequest.Node := Some node |})))).

Definition splitRange : M unit :=
  let* w := the_world in
  let range := Range E (indexingService w) (Self (self w)) in
  let left := range.1 in
  let right := range.2 in
  if decide (left = right) then ret tt else
  let number := Z.of_nat (length (AvailableServers (self w))) in
  if decide (number = 0) then ret tt else
  let i := rand_Intn E (trace w) number in
  let* _ := emit Drew in
  match (if decide (0 <= i) then AvailableServers (self w) !! Z.to_nat i else None) with
  | None => panic
  | Some server =>
  let* _ := must_dial server in
  let* resp := must_call server
    (db.SetIndexingLock {| db.SetIndexingLockRequest.Lock := true |}) in
  match resp with
  | None => panic
  | Some resp =>
  if negb (db.SetIndexingLockResponse.Success resp) then ret tt else
  let mid := split_mid left right in
  let* plan := lift (split_plan (KeyHash E) mid (Self (self w)) server
                       (storage.Nodes (store w))) in
  let* _ := for_each (results plan) (λ node,
    let* _ := must_call server
      (db.AddNode {| db.AddNodeRequest.Node := Some node |}) in
    ret tt) in
  let* _ := for_each (results plan) (λ node,
    let* w := the_world in
    match mergeFunction (self w) !! db.Location node with
    | Some f =>
        let* _ := must_call server
          (db.SetMergeFunction
             {| db.SetMergeFunctionRequest.Location := db.Location node;
                db.SetMergeFunctionRequest.Name := f |}) in
        let* w := the_world in
        put_self (set_mergeFunction
                    (delete (db.Location node) (mergeFunction (self w))) (self w))
    | None => ret tt
    end) in
  let request :=
    {| db.SplitRequest.Left := left; db.SplitRequest.Right := right;
       db.SplitRequest.Mid := mid;
       db.SplitRequest.LeftServer := leftServer plan;
       db.SplitRequest.RightServer := rightServer plan |} in
  let* _ := for_each (Servers (self w)) (λ addr,
    let* w := the_world in
    if decide (addr = Self (self w)) then
      let* r := Split request in
      match r.2 with Some _ => fatal | None => ret tt end
    else if decide (addr = server) then
      let* _ := must_call server (db.Split request) in ret tt
    else
      let* _ := must_dial addr in
      let* _ := must_call addr (db.Split request) in ret tt) in
  let* _ := for_each (results plan) (λ node,
    let* w := the_world in
    put_store (storage.RemoveNode (store w) (db.Location node))) in
  let* _ := must_call server
    (db.SetIndexingLock {| db.SetIndexingLockRequest.Lock := false |}) in
  ret tt
  end
  end.

(** The test [store.Size > s.Threshold && len(s.AvailableServers) > 0] and
    the split it guards. *)
Definition split_if_over : M unit :=
  let* w := the_world in
  if decide (storage.Size (store w) > Threshold (self w)
             ∧ (length (AvailableServers (self w)) > 0)%nat)
  then splitRange else ret tt.

(** The block of [Set] under [if in.Dep != 0]; its value is the error of the
    [return] inside it, or [None] when control leaves the block at its end. *)
Definition resolve_conflict (in_ : db.SetRequest.t) (loc : Z) : M error :=
  let* r := AddChild {| db.AddChildRequest.Location := db.SetRequest.Dep in_;
                        db.AddChildRequest.Child := loc |} in
  match r.1 with
  | None => panic
  | Some parent =>
      if decide (length (db.Children parent) > 1)%nat then
        let* w := the_world in
        let merge :=
          match mergeFunction (self w) !! db.SetRequest.Dep in_ with
          | Some merge => merge
          | None => globalMergeFunction (self w)
          end in
        if decide (String.length merge > 0)%nat then
          let params := Marshal E parent in
          let resp := CallAction E (trace w) merge params in
          let* _ := emit (Invoked merge params) in
          let '(children, err) := Unmarshal E resp in
          match err with
          | Some e => ret (Some e)
          | None =>
              match children with
              | None => panic
              | Some children =>
                  let* _ := distributeNodes (db.Nodes.Nodes children) in
                  let* _ := RemoveChildren
                    {| db.RemoveChildrenRequest.Location := db.Location parent |} in
                  let* _ := for_each (db.Nodes.Nodes children) (λ child,
                    match child with
                    | None => panic
                    | Some child =>
                        let* _ := AddChild
                          {| db.AddChildRequest.Location := db.Dep child;
                             db.AddChildRequest.Child := db.Location child |} in
                        ret tt
                    end) in
                  ret None
              end
          end
        else ret None
      else ret None
  end.

(** [Server.Set]; the name [Set] is taken in Rocq. *)
Definition Set_ (in_ : db.SetRequest.t) : M (option db.SetResponse.t * error) :=
  let* w := the_world in
  let address := LocateKey E (indexingService w) (db.SetRequest.Key in_) in
  if decide (address = Self (self w)) then
    let rnd := rand_Uint32 E (trace w) in
    let* _ := emit Drew in
    let '(loc, st) :=
      storage.Set_ (hash32 E) (store w) (db.SetRequest.Key in_)
        (db.SetRequest.Value in_) (db.SetRequest.Dep in_) rnd in
    let* _ := put_store st in
    let* early :=
      (if decide (db.SetRequest.Dep in_ ≠ 0) then resolve_conflict in_ loc
       else ret None) in
    match early with
    | Some e => ret (Some {| db.SetResponse.Location := loc |}, Some e)
    | None =>
        let* _ := split_if_over in
        let result := Some {| db.SetResponse.Location := loc |} in
        ret (result, None)
    end
  else
    let* w := the_world in
    let err := Dial E (trace w) address in
    let* _ := emit (Dialed address) in
    match err with
    | Some e => ret (Some {| db.SetResponse.Location := 0 |}, Some e)
    | None =>
        let* w := the_world in
        let r := client E (trace w) address (db.Set_ in_) in
        let* _ := emit (Called address (db.Set_ in_)) in
        let result := r.1 in
        let* _ := split_if_over in
        ret (result, None)
    end.

End Handlers.

(** The world of [Set] after [store.Set], the draw logged and the node in
    the store, and the location of that node. *)
Definition written (E : Env) (in_ : db.SetRequest.t) (w : World) : World :=
  with_store
    (storage.Set_ (hash32 E) (store w) (db.SetRequest.Key in_)
       (db.SetRequest.Value in_) (db.SetRequest.Dep in_)
       (rand_Uint32 E (trace w))).2
    (logged [Drew] w).

Definition written_at (E : Env) (in_ : db.SetRequest.t) (w : World) : Z :=
  storage.fresh_location (hash32 E) (db.SetRequest.Key in_)
    (rand_Uint32 E (trace w)).

(** *** The deliveries of [distributeNodes] *)

(** The server that owns a node, by the table of ranges of [w]. *)
Definition owner (E : Env) (w : World) (n : db.Node) : string :=
  Locate E (indexingService w) (KeyHash E (db.Location n)).

(** [nodeMapping] after its loop, for nodes that are not [nil]. *)
Definition group (E : Env) (w : World) (nodes : list db.Node)
  : gmap string (list db.Node) :=
  foldl (λ m n, <[owner E w n := default [] (m !! owner E w n) ++ [n]]> m)
        ∅ nodes.

(** The events of the second loop for the entries of [nodeMapping] in the
    order of the visit: a dial, then a call for each node of the entry. *)
Definition deliveries (entries : list (string * list db.Node)) : list Event :=
  entries ≫= λ entry,
    Dialed entry.1
    :: ((λ n, Called entry.1 (db.AddNode {| db.AddNodeRequest.Node := Some n |}))
        <$> entry.2).

(** The nodes of the entries, each with the server of its entry. *)
Definition addressed (entries : list (string * list db.Node))
  : list (string * db.Node) :=
  entries ≫= λ entry, (λ n, (entry.1, n)) <$> entry.2.

(** The nodes that a split moves away, for the list [nodes] of the store:
    the valid ones on the side that [split_plan] picks. *)
Definition moves (KeyHash : Z → Z) (mid : Z) (nodes : list storage.Node)
  (n : storage.Node) : Prop :=
  let G := length (filter (λ n, storage.valid n ∧ node_hash KeyHash n > mid)
                     nodes) in
  let L := length (filter (λ n, storage.valid n ∧ node_hash KeyHash n <= mid)
                     nodes) in
  storage.valid n
  ∧ (if decide (L ≤ G)%nat then node_hash KeyHash n <= mid
     else node_hash KeyHash n > mid).

#[global] Instance moves_dec KeyHash mid nodes n :
  Decision (moves KeyHash mid nodes n).
Proof. unfold moves. cbv zeta. destruct (decide _); apply _. Defined.

(** The slot of a node after a sweep that removes the nodes in [P]. *)
Definition swept (P : storage.Node → Prop) `{∀ n, Decision (P n)}
  (n : storage.Node) : storage.Node :=
  if decide (P n) then storage.tombstone else n.

(** A node has a key exactly when its location is not 0: so it is in a
    store where no write had an empty key or drew the location 0. *)
Definition tidy (s : storage.Store) : Prop :=
  Forall (λ n, storage.valid n ↔ storage.Location n ≠ 0) (storage.Nodes s).

(** *** The steps of a split that meets no error

    What each loop of [splitRange] does to the world for one element, when
    the calls it makes return no error; [peer] is the server that was
    drawn. *)

Definition send_node (peer : string) (w : World) (node : db.Node) : World :=
  logged [Called peer (db.AddNode {| db.AddNodeRequest.Node := Some node |})] w.

Definition transfer_call (peer : string) (location : Z) (f : string) : Event :=
  Called peer
    (db.SetMergeFunction {| db.SetMergeFunctionRequest.Location := location;
                            db.SetMergeFunctionRequest.Name := f |}).

Definition transfer_merge (peer : string) (w : World) (node : db.Node) : World :=
  match mergeFunction (self w) !! db.Location node with
  | Some f =>
      with_self
        (set_mergeFunction (delete (db.Location node) (mergeFunction (self w)))
           (self w))
        (logged [transfer_call peer (db.Location node) f] w)
  | None => w
  end.

(** The events of the two loops of a split that are not one per node. *)
Definition is_transfer (peer : string) (e : Event) : Prop :=
  ∃ location f, e = transfer_call peer location f.

Definition is_announce (request : db.SplitRequest.t) (e : Event) : Prop :=
  ∃ addr, e = Dialed addr ∨ e = Called addr (db.Split request).

(** The world after the handler [Split]. *)
Definition after_Split (E : Env) (in_ : db.SplitRequest.t) (w : World) : World :=
  {| store := store w;
     indexingService :=
       AddMapping E
         (AddMapping E
            (RemoveMapping E (indexingService w)
               (db.SplitRequest.Left in_) (db.SplitRequest.Right in_))
            (db.SplitRequest.Left in_) (db.SplitRequest.Mid in_)
            (db.SplitRequest.LeftServer in_))
         (uint32 (db.SplitRequest.Mid in_ + 1)) (db.SplitRequest.Right in_)
         (db.SplitRequest.RightServer in_);
     self :=
       set_AvailableServers
         (drop_available (AvailableServers (self w))
            (db.SplitRequest.LeftServer in_) (db.SplitRequest.RightServer in_))
         (self w);
     trace := trace w |}.

Definition announce (E : Env) (peer : string) (request : db.SplitRequest.t)
  (w : World) (addr : string) : World :=
  if decide (addr = Self (self w)) then after_Split E request w
  else if decide (addr = peer) then logged [Called peer (db.Split request)] w
  else logged [Called addr (db.Split request)] (logged [Dialed addr] w).

Definition drop_node (w : World) (node : db.Node) : World :=
  with_store (storage.RemoveNode (store w) (db.Location node)) w.

(** The world after a whole split, from the world [w] in which it began. *)
Definition split_request (left right mid : Z) (plan : Plan) : db.SplitRequest.t :=
  {| db.SplitRequest.Left := left; db.SplitRequest.Right := right;
     db.SplitRequest.Mid := mid;
     db.SplitRequest.LeftServer := leftServer plan;
     db.SplitRequest.RightServer := rightServer plan |}.

Definition after_split (E : Env) (peer : string) (request : db.SplitRequest.t)
  (moved : list db.Node) (w : World) : World :=
  let w := logged [Called peer (lock_call true)]
             (logged [Dialed peer] (logged [Drew] w)) in
  let servers := Servers (self w) in
  let w := foldl (send_node peer) w moved in
  let w := foldl (transfer_merge peer) w moved in
  let w := foldl (announce E peer request) w servers in
  let w := foldl drop_node w moved in
  logged [Called peer (lock_call false)] w.

End server.


(** ** Package [main] of the second store: nodes that hold maps

    The file defines its own [Node] and [Store]; a location is an index
    into [nodes], an [int64]. *)

Module mapstore.

Definition int64 (z : Z) : Z := (z + 2 ^ 63) mod 2 ^ 64 - 2 ^ 63.

Record Node : Type := mkNode {
  dep : Z;
  data : gmap string string
}.

Record Store : Type := mkStore {
  nodes : list Node
}.

(** [newNode] does not read its argument [dep]: the node gets [-1]. *)
Definition newNode (s : Store) (dep : Z) (data : gmap string string)
  : Z * Store :=
  let node := {| dep := -1; data := data |} in
  let nodes := nodes s ++ [node] in
  (int64 (int64 (Z.of_nat (length nodes)) - 1), {| nodes := nodes |}).

(** [s.nodes[loc]] for an [int64] index. *)
Definition index (s : Store) (loc : Z) : outcome Node :=
  if decide (0 <= loc) then
    match nodes s !! Z.to_nat loc with
    | Some node => Done node
    | None => Panic
    end
  else Panic.

(** The inner loop of [Get]: the keys not yet in [data] that [node] has. *)
Definition collect (keys : list string) (node : Node)
  (data : gmap string string) : gmap string string :=
  foldl (λ data key,
           match data !! key with
           | Some _ => data
           | None =>
               match mapstore.data node !! key with
               | Some value => <[key := value]> data
               | None => data
               end
           end) data keys.

(** The outer loop of [Get], with fuel. *)
Fixpoint Get_loop (fuel : nat) (s : Store) (keys : list string) (node : Node)
  (data : gmap string string) : option (outcome (gmap string string)) :=
  match fuel with
  | O => None
  | S fuel' =>
      if decide (dep node ≠ -1) then
        let data := collect keys node data in
        match index s (dep node) with
        | Done node' => Get_loop fuel' s keys node' data
        | Panic => Some Panic
        | Fatal => Some Fatal
        end
      else Some (Done data)
  end.

Definition Get (fuel : nat) (s : Store) (keys : list string) (loc : Z)
  : option (outcome (gmap string string)) :=
  match index s loc with
  | Done node => Get_loop fuel s keys node ∅
  | Panic => Some Panic
  | Fatal => Some Fatal
  end.

(** [Store.Set]; the name [Set] is taken in Rocq. *)
Definition Set_ (s : Store) (data : gmap string string)
  (virtualLoc dep virtualDep : Z) : Z * Store :=
  let newLoc := newNode s dep data in
  newLoc.

(** The stores that [Set] builds from the zero value. *)
Inductive built : Store → Prop :=
| built_zero : built {| nodes := [] |}
| built_Set s data virtualLoc dep virtualDep :
    built s → built (Set_ s data virtualLoc dep virtualDep).2.

(** [walk s node ns last]: the loop of [Get] that starts at [node] visits
    the nodes [ns], each with a [dep] other than [-1], and stops at [last],
    whose [dep] is [-1]. *)
Inductive walk (s : Store) : Node → list Node → Node → Prop :=
| walk_end node : dep node = -1 → walk s node [] node
| walk_step node next ns last :
    dep node ≠ -1 → index s (dep node) = Done next → walk s next ns last →
    walk s node (node :: ns) last.

(** The value of [key] in the first of the nodes that has one. *)
Fixpoint nearest (ns : list Node) (key : string) : option string :=
  match ns with
  | [] => None
  | node :: ns' =>
      match data node !! key with
      | Some value => Some value
      | None => nearest ns' key
      end
  end.

End mapstore.


(** ** A concrete outside, for running the handlers *)

Module scenario.

(** A stand-in for the hash of [utils]: the sum of the character codes. *)
Fixpoint code_sum (s : string) : Z :=
  match s with
  | EmptyString => 0
  | String a s' => Z.of_nat (Ascii.nat_of_ascii a) + code_sum s'
  end.

Definition hash32 (key : string) : Z := uint32 (code_sum key).

(** Modelled from the spec: [utils.KeyHash], the high 32 bits of a location
    ("ownership is determined entirely by [location >> 32]"). *)
Definition KeyHash (location : Z) : Z := uint32 (Z.shiftr location 32).

(** Modelled from the spec: [Locate] of [indexing.Service], the server of the
    range that contains the hash; the empty address when there is none. *)
Definition Locate (svc : indexing.Service) (h : Z) : string :=
  match list_find (λ m : Z * Z * string, m.1.1 <= h ∧ h <= m.1.2)
                  (indexing.Mapping svc) with
  | Some (_, m) => m.2
  | None => ""
  end.

(** Modelled from the spec: [Range] of [indexing.Service], the range of a
    server, [(0, 0)] when it owns none. *)
Definition Range (svc : indexing.Service) (addr : string) : Z * Z :=
  match list_find (λ m : Z * Z * string, m.2 = addr) (indexing.Mapping svc) with
  | Some (_, m) => m.1
  | None => (0, 0)
  end.

(** Modelled from the spec: [AddMapping] and [RemoveMapping] of
    [indexing.Service]. *)
Definition AddMapping (svc : indexing.Service) (lo hi : Z) (addr : string)
  : indexing.Service :=
  {| indexing.Mapping := indexing.Mapping svc ++ [(lo, hi, addr)];
     indexing.Lock := indexing.Lock svc |}.

Definition RemoveMapping (svc : indexing.Service) (lo hi : Z)
  : indexing.Service :=
  {| indexing.Mapping :=
       filter (λ m : Z * Z * string, ¬ (m.1.1 = lo ∧ m.1.2 = hi))
              (indexing.Mapping svc);
     indexing.Lock := indexing.Lock svc |}.

(** A decoder that fails on the empty input, with the message of
    [encoding/json], and reads anything else as no nodes. *)
Definition Unmarshal (resp : server.bytes) : option db.Nodes.t * error :=
  match resp with
  | [] => (None, Some "unexpected end of JSON input")
  | _ => (Some {| db.Nodes.Nodes := [] |}, None)
  end.

(** Peers that answer every call with the error [unavailable]. *)
Definition unavailable : string := "rpc error: code = Unavailable".

Definition env : server.Env :=
  {| server.hash32 := hash32;
     server.KeyHash := KeyHash;
     server.CallAction := λ _ _ _, [];
     server.Locate := Locate;
     server.LocateKey := λ svc key, Locate svc (hash32 key);
     server.Range := Range;
     server.AddMapping := AddMapping;
     server.RemoveMapping := RemoveMapping;
     server.Marshal := λ _, [];
     server.Unmarshal := Unmarshal;
     server.rand_Uint32 := λ tr, Z.of_nat (length tr) + 1;
     server.rand_Intn := λ _ _, 0;
     server.range_order := λ l, l;
     server.Dial := λ _ _, None;
     server.client := λ _ _ _, (None, Some unavailable) |}.

(** Server [A] owns the whole range after [Init]; [B] is a peer. *)
Definition A : server.Server :=
  {| server.Servers := ["A"; "B"];
     server.AvailableServers := ["B"];
     server.Self := "A";
     server.Initial := "A";
     server.Threshold := 100;
     server.mergeFunction := ∅;
     server.globalMergeFunction := "merge" |}.

Definition world (owner : string) : server.World :=
  {| server.store := storage.Init storage.zero;
     server.indexingService :=
       {| indexing.Mapping := [(0, MaxUint32, owner)]; indexing.Lock := false |};
     server.self := A;
     server.trace := [] |}.

(** The store after [Set("a","1",0)], [Set("b","2",L1)] and
    [Set("c","3",L2)], with the draws 5, 9 and 4. *)
Definition set1 : Z * storage.Store :=
  storage.Set_ hash32 (storage.Init storage.zero) "a" "1" 0 5.
Definition L1 : Z := set1.1.
Definition set2 : Z * storage.Store := storage.Set_ hash32 set1.2 "b" "2" L1 9.
Definition L2 : Z := set2.1.
Definition set3 : Z * storage.Store := storage.Set_ hash32 set2.2 "c" "3" L2 4.
Definition L3 : Z := set3.1.
Definition chain : storage.Store := set3.2.

Definition node_a : storage.Node := storage.mkNode L1 0 [] "a" "1".
Definition node_b : storage.Node := storage.mkNode L2 L1 [] "b" "2".
Definition node_c : storage.Node := storage.mkNode L3 L2 [] "c" "3".

(** [chain] after [Set("","v",L2)] with the draw 6: a node with the empty
    key above [b]. *)
Definition blank : Z * storage.Store := storage.Set_ hash32 chain "" "v" L2 6.
Definition node_blank : storage.Node := storage.mkNode blank.1 L2 [] "" "v".

(** A store with a node whose parent, 12345, is not in it. *)
Definition dangling : Z * storage.Store :=
  storage.Set_ hash32 (storage.Init storage.zero) "q" "1" 12345 1.

(** The world and the location that a run of [Set] ends with. *)
Definition after (o : outcome ((option db.SetResponse.t * error) * server.World))
  : server.World :=
  match o with
  | Done (_, w) => w
  | _ => world "A"
  end.

Definition located (o : outcome ((option db.SetResponse.t * error) * server.World))
  : Z :=
  match o with
  | Done ((Some r, _), _) => db.SetResponse.Location r
  | _ => 0
  end.

(** On [A], which owns every key: [Set("x","1",0)], then [Set("y","a",LX)];
    the request [third] then forks [LX]. *)
Definition run1 := server.Set_ env (db.SetRequest.mk "x" "1" 0) (world "A").
Definition LX : Z := located run1.
Definition run2 := server.Set_ env (db.SetRequest.mk "y" "a" LX) (after run1).
Definition forked : server.World := after run2.
Definition third : db.SetRequest.t := db.SetRequest.mk "z" "b" LX.

(** Requests that any client can send to [A]: a [Set] with the empty key;
    after [run1], the root (location 0) recorded as a child of the node at
    [LX], and the children of that node removed. *)
Definition unkeyed : db.SetRequest.t := db.SetRequest.mk "" "v" 0.
Definition link_root : db.AddChildRequest.t := db.AddChildRequest.mk LX 0.
Definition unlink : db.RemoveChildrenRequest.t := db.RemoveChildrenRequest.mk LX.

(** The outside of [env] with other peers. *)
Definition outside (dial : list server.Event → string → error)
  (client : list server.Event → string →
            ∀ c : db.call, option (db.reply c) * error) : server.Env :=
  {| server.hash32 := hash32;
     server.KeyHash := KeyHash;
     server.CallAction := λ _ _ _, [];
     server.Locate := Locate;
     server.LocateKey := λ svc key, Locate svc (hash32 key);
     server.Range := Range;
     server.AddMapping := AddMapping;
     server.RemoveMapping := RemoveMapping;
     server.Marshal := λ _, [];
     server.Unmarshal := Unmarshal;
     server.rand_Uint32 := λ tr, Z.of_nat (length tr) + 1;
     server.rand_Intn := λ _ _, 0;
     server.range_order := λ l, l;
     server.Dial := dial;
     server.client := client |}.

(** Peers that cannot be dialed. *)
Definition refused : string := "connection refused".

Definition env_down : server.Env :=
  outside (λ _ _, Some refused) (λ _ _ _, (None, Some unavailable)).

(** Peers that answer every call without error; [granted] is what they
    answer to a request for their lock, and [parent] the node they answer
    [AddChild] and [GetNode] with. *)
Definition obliging (granted : bool) (parent : db.Node)
  (c : db.call) : option (db.reply c) * error :=
  match c as c0 return option (db.reply c0) * error with
  | db.SetIndexingLock _ =>
      (Some {| db.SetIndexingLockResponse.Success := granted |}, None)
  | db.AddChild _ => (Some parent, None)
  | db.GetNode _ => (Some parent, None)
  | _ => (None, None)
  end.

Definition env_ok : server.Env :=
  outside (λ _ _, None) (λ _ _, obliging true db.Node0).

Definition env_busy : server.Env :=
  outside (λ _ _, None) (λ _ _, obliging false db.Node0).

(** A parent on a peer, with the one child it has after the link. *)
Definition far : Z := 200 * 2 ^ 32 + 1.

Definition far_parent : db.Node :=
  {| db.Location := far; db.Dep := 0; db.Key := "p"; db.Value := "0";
     db.Children := [7] |}.

Definition env_far : server.Env :=
  outside (λ _ _, None) (λ _ _, obliging true far_parent).

(** [A] owns the hashes up to 100 and [B] the others. *)
Definition shared : server.World :=
  {| server.store := storage.Init storage.zero;
     server.indexingService :=
       {| indexing.Mapping := [(0, 100, "A"); (101, MaxUint32, "B")];
          indexing.Lock := false |};
     server.self := A;
     server.trace := [] |}.

(** [A] owns the hashes up to 100, [C] those up to 180 and [B] the others;
    a node of [C]. *)
Definition three : server.World :=
  {| server.store := storage.Init storage.zero;
     server.indexingService :=
       {| indexing.Mapping :=
            [(0, 100, "A"); (101, 180, "C"); (181, MaxUint32, "B")];
          indexing.Lock := false |};
     server.self := A;
     server.trace := [] |}.

Definition middle : db.Node :=
  {| db.Location := 150 * 2 ^ 32 + 3; db.Dep := far; db.Key := "q";
     db.Value := "1"; db.Children := [] |}.

Definition under_far : db.SetRequest.t := db.SetRequest.mk "a" "1" far.

(** [A] owns the hashes 96 to 99 and stores the keys [a], [b] and [c]. *)
Definition crowded : server.World :=
  {| server.store := chain;
     server.indexingService :=
       {| indexing.Mapping := [(96, 99, "A")]; indexing.Lock := false |};
     server.self := A;
     server.trace := [] |}.

Definition crowded_plan : server.Plan :=
  {| server.results := [server.to_db node_a];
     server.leftServer := "B";
     server.rightServer := "A" |}.

(** [A] with a merge function for the key [a] of [crowded]. *)
Definition named : server.World :=
  {| server.store := chain;
     server.indexingService :=
       {| indexing.Mapping := [(96, 99, "A")]; indexing.Lock := false |};
     server.self := server.set_mergeFunction {[ L1 := "m" ]} A;
     server.trace := [] |}.

(** [forked] with no merge function named, and [A] with a range of a single
    hash. *)
Definition quiet : server.World :=
  {| server.store := server.store forked;
     server.indexingService := server.indexingService forked;
     server.self := server.set_globalMergeFunction "" A;
     server.trace := [] |}.

(** [A] when its list of servers holds its own address alone. *)
Definition A_alone : server.Server :=
  {| server.Servers := ["A"];
     server.AvailableServers := [];
     server.Self := "A";
     server.Initial := "A";
     server.Threshold := 100;
     server.mergeFunction := ∅;
     server.globalMergeFunction := "merge" |}.

Definition alone : server.World :=
  {| server.store := storage.Init storage.zero;
     server.indexingService :=
       {| indexing.Mapping := [(0, MaxUint32, "A")]; indexing.Lock := false |};
     server.self := A_alone;
     server.trace := [] |}.

Definition single : server.World :=
  {| server.store := chain;
     server.indexingService :=
       {| indexing.Mapping := [(97, 97, "A")]; indexing.Lock := false |};
     server.self := A;
     server.trace := [] |}.

(** Stores of maps: one built by [Set], one with links written by hand. *)
Definition maps_built : mapstore.Store :=
  (mapstore.Set_
     (mapstore.Set_ {| mapstore.nodes := [] |} {[ "a" := "1" ]} 0 (-1) 0).2
     {[ "b" := "2" ]} 0 0 0).2.

Definition maps_linked : mapstore.Store :=
  {| mapstore.nodes :=
       [ {| mapstore.dep := -1; mapstore.data := {[ "r" := "0" ]} |};
         {| mapstore.dep := 0; mapstore.data := {[ "a" := "1" ]} |};
         {| mapstore.dep := 1;
            mapstore.data := <[ "a" := "2" ]> {[ "b" := "3" ]} |} ] |}.

End scenario.


(** * Properties of the store *)

Section StoreWalk.

Import storage.

Implicit Types (s : Store) (k : string) (loc : Z) (n m : Node)
  (ns : list Node) (fuel : nat).

Lemma path_nonempty s loc : ¬ path s loc [].
Proof. intros H. inversion H. Qed.

Lemma path_head s loc n ns : path s loc (n :: ns) → resolves s loc n.
Proof. intros H. inversion H; subst; assumption. Qed.

Lemma path_tail s loc n m ns :
  path s loc (n :: m :: ns) → Dep n ≠ MaxUint64 ∧ path s (Dep n) (m :: ns).
Proof. intros H. inversion H; subst. split; assumption. Qed.

Lemma resolves_lookup s loc n : resolves s loc n → is_Some (MemLocation s !! loc).
Proof.
  intros (i & Hg & _). unfold GetNode in Hg.
  destruct (MemLocation s !! loc); [eauto | discriminate].
Qed.

(** One turn of the loop, by what the node under the pointer looks like. *)
Lemma Get_hit s k loc n fuel :
  resolves s loc n → Key n = k →
  Get (S fuel) s k loc = Some (Done (Value n, None)).
Proof.
  intros (i & Hg & Hn) Hk. unfold Get. rewrite Hg. simpl. rewrite Hn.
  rewrite decide_True by assumption. reflexivity.
Qed.

Lemma Get_miss_root s k loc n fuel :
  resolves s loc n → Key n ≠ k → Dep n = MaxUint64 →
  Get (S fuel) s k loc = Some (Done ("", Some (NotFound k))).
Proof.
  intros (i & Hg & Hn) Hk Hd. unfold Get. rewrite Hg. simpl. rewrite Hn.
  rewrite decide_False by assumption. rewrite decide_True by assumption.
  reflexivity.
Qed.

Lemma Get_miss_step s k loc n fuel :
  resolves s loc n → Key n ≠ k → Dep n ≠ MaxUint64 →
  Get (S fuel) s k loc = Get fuel s k (Dep n).
Proof.
  intros (i & Hg & Hn) Hk Hd. unfold Get at 1. rewrite Hg. simpl. rewrite Hn.
  rewrite !decide_False by assumption. unfold Get.
  destruct (GetNode s (Dep n)); reflexivity.
Qed.

Lemma Get_unknown s k loc fuel :
  MemLocation s !! loc = None → Get (S fuel) s k loc = Some Panic.
Proof. intros H. unfold Get, GetNode. rewrite H. reflexivity. Qed.

(** More fuel does not change an answer. *)
Lemma Get_loop_more_fuel fuel : ∀ s k p r fuel',
  Get_loop fuel s k p = Some r → (fuel ≤ fuel')%nat →
  Get_loop fuel' s k p = Some r.
Proof.
  induction fuel as [|fuel IH]; intros s k p r fuel' H Hle; [discriminate|].
  destruct fuel' as [|fuel']; [lia|]. simpl in *.
  destruct (deref s p) as [n| |]; try assumption.
  destruct (decide (Key n = k)); [assumption|].
  destruct (decide (Dep n = MaxUint64)); [assumption|].
  destruct (GetNode s (Dep n)); try assumption.
  apply IH; [assumption | lia].
Qed.

Lemma Get_more_fuel s k loc r fuel fuel' :
  Get fuel s k loc = Some r → (fuel ≤ fuel')%nat → Get fuel' s k loc = Some r.
Proof.
  unfold Get. destruct (GetNode s loc); try (intros; assumption).
  apply Get_loop_more_fuel.
Qed.

(** Along a path whose nodes before the last do not have the key, [Get]
    comes to the last node with the fuel that is left. *)
Lemma Get_along s k loc ns : ∀ n fuel,
  path s loc (ns ++ [n]) → Forall (λ m, Key m ≠ k) ns →
  ∃ loc', resolves s loc' n ∧
          Get (length ns + S fuel) s k loc = Get (S fuel) s k loc'.
Proof.
  revert loc. induction ns as [|m ns IH]; intros loc n fuel Hp Hk.
  - exists loc. split; [apply (path_head _ _ _ _ Hp) | reflexivity].
  - simpl in Hp. apply Forall_cons in Hk as [Hm Hk].
    pose proof (path_head _ _ _ _ Hp) as Hr.
    assert (Dep m ≠ MaxUint64 ∧ path s (Dep m) (ns ++ [n])) as [Hd Hp'].
    { destruct ns; simpl in *; apply (path_tail _ _ _ _ _ Hp). }
    destruct (IH (Dep m) n fuel Hp' Hk) as (loc' & Hr' & Heq).
    exists loc'. split; [assumption|].
    cbn [length Nat.add]. rewrite (Get_miss_step _ _ _ _ _ Hr Hm Hd). exact Heq.
Qed.

(** What an answer with an error tells about the walk. *)
Lemma Get_loop_error fuel : ∀ s k loc i v e,
  GetNode s loc = Done (Some i) →
  Get_loop fuel s k (Some i) = Some (Done (v, Some e)) →
  ∃ ns n, path s loc (ns ++ [n]) ∧ Dep n = MaxUint64
          ∧ Forall (λ m, Key m ≠ k) (ns ++ [n]) ∧ v = "" ∧ e = NotFound k.
Proof.
  induction fuel as [|fuel IH]; intros s k loc i v e Hg H; [discriminate|].
  simpl in H. destruct (Nodes s !! i) as [n|] eqn:Hn; [|discriminate].
  destruct (decide (Key n = k)); [discriminate|].
  assert (resolves s loc n) as Hr by (exists i; auto).
  destruct (decide (Dep n = MaxUint64)) as [Hd|Hd].
  - inversion H; subst. exists [], n. simpl.
    repeat split; auto using path_end.
  - destruct (GetNode s (Dep n)) as [[j|]| |] eqn:Hg'; try discriminate.
    + destruct (IH s k (Dep n) j v e Hg' H) as (ns & l & Hp & Hl & Hk & -> & ->).
      exists (n :: ns), l. simpl. repeat split; auto.
      apply path_step; assumption.
    + destruct fuel; discriminate.
Qed.

(** C1. For every key [k] and start location [loc], along the nodes
    [ns ++ [n]] that the walk from [loc] visits by following [Dep] (each of
    them resolved by [GetNode]), when no node of [ns] has the key [k]: if [n]
    has the key [k], [Get] returns the value of [n], the first node of the
    path with that key, and no error; if [n] has another key and its [Dep]
    is the root mark [2^64 - 1], [Get] returns the error
    ["Key k not found"]. One unit of fuel for each node of the path is
    enough. *)
Theorem Get_first_match s k loc ns n fuel :
  path s loc (ns ++ [n]) →
  Forall (λ m, Key m ≠ k) ns →
  (length ns < fuel)%nat →
  (Key n = k → Get fuel s k loc = Some (Done (Value n, None)))
  ∧ (Key n ≠ k → Dep n = MaxUint64 →
     Get fuel s k loc = Some (Done ("", Some ("Key " +:+ k +:+ " not found")))).
Proof.
  intros Hp Hk Hf.
  destruct (Get_along s k loc ns n 0 Hp Hk) as (loc' & Hr & Heq).
  split.
  - intros Hn. apply Get_more_fuel with (fuel := (length ns + 1)%nat); [|lia].
    rewrite Heq. apply Get_hit; assumption.
  - intros Hn Hd. apply Get_more_fuel with (fuel := (length ns + 1)%nat); [|lia].
    rewrite Heq. apply Get_miss_root with (n := n); assumption.
Qed.

(** C9. [Get] is partial. For a start location without an entry in
    [MemLocation], [GetNode] returns [nil] and [Get] panics on it, whatever
    the fuel; the same happens when the walk comes to a node without the key
    whose [Dep] is not the root mark and has no entry. An answer of [Get]
    with an error is always the one of a walk that began at a known location
    and ended at a node whose [Dep] is the root mark. *)
Theorem Get_partial s k loc :
  (MemLocation s !! loc = None →
   GetNode s loc = Done None ∧ ∀ fuel, Get (S fuel) s k loc = Some Panic)
  ∧ (∀ ns n fuel,
       path s loc (ns ++ [n]) → Forall (λ m, Key m ≠ k) (ns ++ [n]) →
       Dep n ≠ MaxUint64 → MemLocation s !! Dep n = None →
       (length ns + 1 < fuel)%nat →
       Get fuel s k loc = Some Panic)
  ∧ (∀ fuel v e,
       Get fuel s k loc = Some (Done (v, Some e)) →
       is_Some (MemLocation s !! loc)
       ∧ ∃ ns n, path s loc (ns ++ [n]) ∧ Dep n = MaxUint64
                 ∧ Forall (λ m, Key m ≠ k) (ns ++ [n])
                 ∧ v = "" ∧ e = NotFound k).
Proof.
  split; [|split].
  - intros H. split.
    + unfold GetNode. rewrite H. reflexivity.
    + intros fuel. apply Get_unknown, H.
  - intros ns n fuel Hp Hk Hd Hnone Hf.
    apply Forall_app in Hk as [Hk Hn]. rewrite Forall_singleton in Hn.
    destruct (Get_along s k loc ns n 1 Hp Hk) as (loc' & Hr & Heq).
    apply Get_more_fuel with (fuel := (length ns + 2)%nat); [|lia].
    rewrite Heq, (Get_miss_step _ _ _ _ _ Hr Hn Hd).
    apply Get_unknown, Hnone.
  - intros fuel v e H. unfold Get in H.
    destruct (GetNode s loc) as [[i|]| |] eqn:Hg; try discriminate.
    + split.
      * unfold GetNode in Hg. destruct (MemLocation s !! loc); [eauto|discriminate].
      * eapply Get_loop_error; eassumption.
    + destruct fuel; discriminate.
Qed.

(** C10. When the walk from [loc] ends at the root that [Init] created, [Get]
    with the empty key never answers with an error: the comparison of keys
    comes before the test of the root mark and the key of the root is empty,
    so the walk matches at the first node [n] of the path whose key is empty
    (no node of [pre], the nodes visited before it, has an empty key), the
    root at the latest, and returns the value of [n]; that value is the
    empty string when the match is the root. One unit of fuel for each node
    up to [n] is enough. *)
Theorem Get_empty_key s loc ns r :
  path s loc (ns ++ [r]) → is_root r →
  ∃ pre n post,
    ns ++ [r] = pre ++ n :: post
    ∧ Forall (λ m, Key m ≠ "") pre ∧ Key n = ""
    ∧ (∀ fuel, (length pre < fuel)%nat →
         Get fuel s "" loc = Some (Done (Value n, None)))
    ∧ (∀ fuel v e, Get fuel s "" loc ≠ Some (Done (v, Some e)))
    ∧ (Forall (λ m, Key m ≠ "") ns → n = r ∧ Value n = "").
Proof.
  intros Hp (_ & _ & Hkey & Hval). simpl in Hkey, Hval.
  assert (∃ pre n post, ns ++ [r] = pre ++ n :: post
                   ∧ path s loc (pre ++ [n])
                   ∧ Forall (λ m, Key m ≠ "") pre ∧ Key n = ""
                   ∧ (Forall (λ m, Key m ≠ "") ns → n = r))
    as (pre & n & post & Hsplit & Hp' & Hpre & Hn & Hlast).
  { clear Hval. revert loc Hp. induction ns as [|m ns IH]; intros loc Hp.
    - exists [], r, []. simpl. repeat split; auto.
    - destruct (decide (Key m = "")) as [Hm|Hm].
      + exists [], m, (ns ++ [r]). simpl. repeat split; auto.
        * apply path_end, (path_head _ _ _ _ Hp).
        * intros HF. apply Forall_cons in HF as [HF _]. contradiction.
      + simpl in Hp.
        assert (Dep m ≠ MaxUint64 ∧ path s (Dep m) (ns ++ [r])) as [Hd Hp'].
        { destruct ns; simpl in *; apply (path_tail _ _ _ _ _ Hp). }
        destruct (IH _ Hp') as (pre & n & post & Hs & Hq & Hpre & Hn & Hl).
        exists (m :: pre), n, post. repeat split; auto.
        * simpl. rewrite Hs. reflexivity.
        * simpl. destruct pre; simpl in *;
            (apply path_step; [apply (path_head _ _ _ _ Hp) | assumption | assumption]).
        * intros HF. apply Forall_cons in HF as [_ HF]. auto. }
  assert (∀ fuel, (length pre < fuel)%nat →
            Get fuel s "" loc = Some (Done (Value n, None))) as Hget.
  { intros fuel Hf.
    destruct (Get_along s "" loc pre n 0 Hp' Hpre) as (loc' & Hr & Heq).
    apply Get_more_fuel with (fuel := (length pre + 1)%nat); [|lia].
    rewrite Heq. apply Get_hit; assumption. }
  exists pre, n, post. repeat (split; [assumption|]). split.
  - intros fuel v e H.
    pose proof (Get_more_fuel _ _ _ _ _ (fuel + S (length pre)) H ltac:(lia)) as H'.
    rewrite Hget in H' by lia. discriminate.
  - intros HF. rewrite (Hlast HF). split; [reflexivity | assumption].
Qed.

End StoreWalk.

(** The powers of two of the integer types, as numerals for [lia]. *)
Ltac pow2 :=
  change (2 ^ 64) with 18446744073709551616 in *;
  change (2 ^ 63) with 9223372036854775808 in *;
  change (2 ^ 32) with 4294967296 in *.

Section StoreLocation.

Import storage.

Variable hash32 : string → Z.

Lemma uint64_small z : 0 <= z < 2 ^ 64 → uint64 z = z.
Proof. intros H. unfold uint64. apply Z.mod_small, H. Qed.

Lemma fresh_location_sum key rnd :
  0 <= hash32 key < 2 ^ 32 → 0 <= rnd < 2 ^ 32 →
  fresh_location hash32 key rnd = rnd + hash32 key * 2 ^ 32.
Proof.
  intros Hh Hr. unfold fresh_location.
  rewrite (uint64_small rnd) by (pow2; lia).
  rewrite (uint64_small (hash32 key)) by (pow2; lia).
  rewrite Z.shiftl_mul_pow2 by lia.
  rewrite (uint64_small (hash32 key * 2 ^ 32)) by (pow2; lia).
  apply uint64_small. pow2. lia.
Qed.

(** The two summands have no bit in common. *)
Lemma high_low_disjoint h rnd :
  0 <= h → 0 <= rnd < 2 ^ 32 → Z.land (Z.shiftl h 32) rnd = 0.
Proof.
  intros Hh Hr. apply Z.bits_inj'. intros i Hi.
  rewrite Z.land_spec, Z.bits_0.
  destruct (Z.lt_ge_cases i 32) as [Hlt|Hge].
  - rewrite Z.shiftl_spec_low by assumption. reflexivity.
  - destruct (Z.eq_dec rnd 0) as [->|Hne].
    + rewrite Z.bits_0. apply andb_false_r.
    + rewrite (Z.bits_above_log2 rnd i); [apply andb_false_r | lia |].
      apply Z.lt_le_trans with 32; [|assumption].
      apply Z.log2_lt_pow2; lia.
Qed.

(** C2. For every key, whose hash is a [uint32], and every value [rnd] of
    the 32-bit random draw, the location that [Set] returns has the hash of
    the key as its high 32 bits: [location >> 32 = hash32 key]. The sum that
    the code computes does not wrap, and it is the bitwise or of the shifted
    hash and the draw, since the draw is below [2^32]. *)
Theorem Set_location_high_bits s key value dep rnd :
  0 <= hash32 key < 2 ^ 32 → 0 <= rnd < 2 ^ 32 →
  let location := (Set_ hash32 s key value dep rnd).1 in
  Z.shiftr location 32 = hash32 key
  ∧ location = rnd + Z.shiftl (hash32 key) 32
  ∧ location = Z.lor (Z.shiftl (hash32 key) 32) rnd.
Proof.
  intros Hh Hr. simpl. rewrite (fresh_location_sum key rnd Hh Hr).
  split; [|split].
  - rewrite Z.shiftr_div_pow2 by lia.
    rewrite Z.div_add by (pow2; lia). rewrite Z.div_small by lia. reflexivity.
  - rewrite Z.shiftl_mul_pow2 by lia. reflexivity.
  - rewrite <- (Z.add_0_r (Z.lor _ _)).
    rewrite <- (high_low_disjoint (hash32 key) rnd) by lia.
    rewrite Z.add_lor_land, Z.shiftl_mul_pow2 by lia. lia.
Qed.

End StoreLocation.

Section StoreSize.

Import storage.

Implicit Types (s : Store) (n : Node) (l : list Node).

Lemma int_small z : - 2 ^ 63 <= z < 2 ^ 63 → int z = z.
Proof. intros H. unfold int. pow2. rewrite Z.mod_small; lia. Qed.

Lemma count_valid_app l1 l2 :
  count_valid (l1 ++ l2) = (count_valid l1 + count_valid l2)%nat.
Proof. unfold count_valid. rewrite filter_app, length_app. reflexivity. Qed.

Lemma count_valid_cons n l :
  count_valid (n :: l)
  = ((if decide (valid n) then 1 else 0) + count_valid l)%nat.
Proof.
  unfold count_valid. rewrite filter_cons.
  destruct (decide (valid n)); reflexivity.
Qed.

Lemma count_valid_le_length l : (count_valid l ≤ length l)%nat.
Proof. unfold count_valid. apply length_filter. Qed.

(** Putting a tombstone on a slot takes the node of the slot out of the
    count, if it was in it. *)
Lemma count_valid_tombstone l i n :
  l !! i = Some n →
  (count_valid (<[i := tombstone]> l) + (if decide (valid n) then 1 else 0)
   = count_valid l)%nat.
Proof.
  intros Hi. pose proof (lookup_lt_Some _ _ _ Hi) as Hlt.
  rewrite insert_take_drop by assumption.
  rewrite <- (take_drop_middle l i n Hi) at 3.
  rewrite !count_valid_app, !count_valid_cons.
  rewrite (decide_False (P := valid tombstone)) by (unfold valid; simpl; tauto).
  lia.
Qed.

Lemma size_ok_newNode s location dep key value :
  size_ok s → key ≠ "" → Z.of_nat (length (Nodes s)) < 2 ^ 63 - 1 →
  Size (newNode s location dep key value) = Size s + 1
  ∧ size_ok (newNode s location dep key value).
Proof.
  unfold size_ok. intros Hs Hk Hlen. simpl.
  pose proof (count_valid_le_length (Nodes s)) as Hle.
  rewrite int_small by (pow2; lia). split; [reflexivity|].
  rewrite count_valid_app, count_valid_cons.
  rewrite decide_True by exact Hk. unfold count_valid at 2. simpl. lia.
Qed.

Lemma RemoveNode_found s location i n :
  list_find (λ m, Location m = location) (Nodes s) = Some (i, n) →
  RemoveNode s location
  = {| Nodes := <[i := tombstone]> (Nodes s);
       MemLocation := MemLocation s;
       Size := int (Size s - 1) |}.
Proof. intros H. unfold RemoveNode. rewrite H. reflexivity. Qed.

Lemma RemoveNode_absent s location :
  Forall (λ m, Location m ≠ location) (Nodes s) → RemoveNode s location = s.
Proof.
  intros H. unfold RemoveNode.
  destruct (list_find _ _) as [[i n]|] eqn:Hf; [|reflexivity].
  apply list_find_Some in Hf as (Hi & Hn & _).
  rewrite Forall_lookup in H. destruct (H _ _ Hi Hn).
Qed.

(** Where the store does keep [Size] equal to the number of valid nodes. In
    a store whose [Size] is the number of its valid nodes, and whose slice
    can still grow, its length being an [int]:
    [newNode], [Set] and [AddNode] with a key that is not empty append one
    node, add one to [Size] and keep the equality; [RemoveNode] on a
    location whose first slot holds a valid node puts the empty node in that
    slot, takes one from [Size] and keeps the equality; [RemoveNode] on a
    location that no slot holds changes nothing. *)
Theorem Size_counts_valid_preserved s :
  size_ok s → Z.of_nat (length (Nodes s)) < 2 ^ 63 - 1 →
  (∀ location dep key value,
     key ≠ "" →
     let s' := newNode s location dep key value in
     Nodes s' = Nodes s ++ [mkNode location dep [] key value]
     ∧ Size s' = Size s + 1 ∧ size_ok s')
  ∧ (∀ hash32 key value dep rnd,
       key ≠ "" →
       let s' := (Set_ hash32 s key value dep rnd).2 in
       length (Nodes s') = S (length (Nodes s))
       ∧ Size s' = Size s + 1 ∧ size_ok s')
  ∧ (∀ node,
       db.Key node ≠ "" →
       ∃ s', AddNode s (Some node) = Done s'
             ∧ length (Nodes s') = S (length (Nodes s))
             ∧ Size s' = Size s + 1 ∧ size_ok s')
  ∧ (∀ location i n,
       list_find (λ m, Location m = location) (Nodes s) = Some (i, n) →
       valid n →
       let s' := RemoveNode s location in
       Nodes s' !! i = Some tombstone ∧ Key tombstone = ""
       ∧ Size s' = Size s - 1 ∧ size_ok s')
  ∧ (∀ location,
       Forall (λ m, Location m ≠ location) (Nodes s) →
       RemoveNode s location = s).
Proof.
  intros Hs Hlen. repeat apply conj.
  - intros location dep key value Hk s'.
    split; [reflexivity | apply size_ok_newNode; assumption].
  - intros hash32 key value dep rnd Hk s'. split.
    + subst s'. simpl. rewrite length_app. simpl. lia.
    + apply size_ok_newNode; assumption.
  - intros node Hk. eexists. split; [reflexivity|]. split.
    + simpl. rewrite length_app. simpl. lia.
    + apply size_ok_newNode; assumption.
  - intros location i n Hf Hv s'. subst s'.
    rewrite (RemoveNode_found _ _ _ _ Hf). simpl.
    apply list_find_Some in Hf as (Hi & _ & _).
    pose proof (count_valid_tombstone _ _ _ Hi) as Hc.
    rewrite decide_True in Hc by exact Hv.
    pose proof (count_valid_le_length (Nodes s)) as Hle.
    unfold size_ok in *. simpl.
    repeat apply conj.
    + apply list_lookup_insert_eq. eapply lookup_lt_Some, Hi.
    + reflexivity.
    + apply int_small. pow2. lia.
    + rewrite int_small by (pow2; lia). lia.
  - apply RemoveNode_absent.
Qed.

(** The store that [Server.Init] starts from. *)
Lemma size_ok_Init : size_ok (Init zero).
Proof. reflexivity. Qed.

End StoreSize.


Section StoreRoot.

Import storage.

Implicit Types (s : Store) (n : Node).

(** Slot 0 keeps an empty key from [Init] on. *)
Lemma rooted_Init : rooted (Init zero).
Proof. exists root. split; reflexivity. Qed.

Lemma rooted_newNode s location dep key value :
  rooted s → rooted (newNode s location dep key value).
Proof.
  intros (n & Hn & Hk). exists n. split; [|exact Hk]. simpl.
  apply lookup_app_l_Some, Hn.
Qed.

Lemma rooted_RemoveNode s location : rooted s → rooted (RemoveNode s location).
Proof.
  intros (n & Hn & Hk). unfold RemoveNode.
  destruct (list_find _ _) as [[i m]|] eqn:Hf; [|exists n; auto].
  unfold rooted. cbn [Nodes]. destruct (decide (i = 0%nat)) as [->|Hi].
  - exists tombstone. split; [|reflexivity].
    apply list_lookup_insert_eq. eapply lookup_lt_Some, Hn.
  - exists n. split; [|exact Hk].
    rewrite list_lookup_insert_ne by exact Hi. exact Hn.
Qed.

Lemma rooted_AddChild s location child p s' :
  rooted s → AddChild s location child = Done (p, s') → rooted s'.
Proof.
  intros (n & Hn & Hk). unfold AddChild.
  destruct (GetNode s location) as [[i|]| |]; try discriminate.
  destruct (Nodes s !! i) as [m|] eqn:Hm; try discriminate.
  intros H. inversion H; subst; clear H. unfold rooted. cbn [Nodes].
  destruct (decide (i = 0%nat)) as [->|Hi].
  - exists (add_child child m). split.
    + apply list_lookup_insert_eq. eapply lookup_lt_Some, Hn.
    + simpl. congruence.
  - exists n. split; [|exact Hk].
    rewrite list_lookup_insert_ne by exact Hi. exact Hn.
Qed.

Lemma rooted_clear_children s i : rooted s → rooted (clear_children s (Some i)).
Proof.
  intros (n & Hn & Hk). unfold rooted. cbn [clear_children Nodes].
  destruct (decide (i = 0%nat)) as [->|Hi].
  - rewrite list_lookup_alter, Hn. eexists. split; [reflexivity | exact Hk].
  - exists n. split; [|exact Hk].
    rewrite list_lookup_alter_ne by exact Hi. exact Hn.
Qed.

Lemma reachable_rooted s : reachable s → rooted s.
Proof.
  induction 1;
    eauto using rooted_Init, rooted_newNode, rooted_AddChild,
                rooted_RemoveNode, rooted_clear_children.
Qed.

Lemma rooted_slot0 s : rooted s → ∀ n, Nodes s !! 0%nat = Some n → Key n = "".
Proof. intros (m & Hm & Hk) n Hn. congruence. Qed.

End StoreRoot.


(** * Properties of the server *)

Section IndexingLock.

Import server.

(** C4. [SetIndexingLock(true)] on a server whose lock is held answers
    [success = false] and leaves the state, and so the lock, as it is;
    [SetIndexingLock(true)] on a server whose lock is free sets the lock and
    answers [success = true]; [SetIndexingLock(false)] clears the lock and
    answers [success = true], whatever the lock was. No case returns an
    error. *)
Theorem SetIndexingLock_spec (w : World) :
  (indexing.Lock (indexingService w) = true →
   SetIndexingLock {| db.SetIndexingLockRequest.Lock := true |} w
   = Done ((Some {| db.SetIndexingLockResponse.Success := false |}, None), w))
  ∧ (indexing.Lock (indexingService w) = false →
     SetIndexingLock {| db.SetIndexingLockRequest.Lock := true |} w
     = Done ((Some {| db.SetIndexingLockResponse.Success := true |}, None),
             with_Lock true w)
     ∧ indexing.Lock (indexingService (with_Lock true w)) = true)
  ∧ (SetIndexingLock {| db.SetIndexingLockRequest.Lock := false |} w
     = Done ((Some {| db.SetIndexingLockResponse.Success := true |}, None),
             with_Lock false w)
     ∧ indexing.Lock (indexingService (with_Lock false w)) = false).
Proof.
  unfold SetIndexingLock, bind, the_world, put_indexing, ret. simpl.
  split; [|split].
  - intros H. rewrite H. reflexivity.
  - intros H. rewrite H. split; reflexivity.
  - split; reflexivity.
Qed.

End IndexingLock.

Section SplitPlan.

Import server.

(** C6. For a range [left, right] of [uint32] bounds, [splitRange] computes
    [mid] as the floor of [(left + right) / 2]: the sum is taken in 64 bits,
    where it cannot wrap, and the quotient is below [2^32], so the
    conversion to [uint32] changes nothing. For the initial range
    [0, 2^32 - 1] the result is [2^31 - 1]. *)
Theorem split_mid_floor (left right : Z) :
  0 <= left < 2 ^ 32 → 0 <= right < 2 ^ 32 →
  split_mid left right = (left + right) / 2
  ∧ split_mid 0 (2 ^ 32 - 1) = 2 ^ 31 - 1.
Proof.
  intros Hl Hr. split; [|reflexivity].
  unfold split_mid, uint32, uint64. pow2.
  rewrite (Z.mod_small left), (Z.mod_small right) by lia.
  rewrite (Z.mod_small (left + right)) by lia.
  apply Z.mod_small. split.
  - apply Z.div_pos; lia.
  - apply Z.div_lt_upper_bound; lia.
Qed.

Variable KeyHash : Z → Z.
Variable mid : Z.

Implicit Types (nodes : list storage.Node) (keys : list Z).

Abbreviation node_hash := (server.node_hash KeyHash) (only parsing).
Abbreviation hashes := (server.hashes KeyHash) (only parsing).

Lemma keys_loop_later nodes : ∀ i keys,
  keys_loop KeyHash (S i) nodes keys = keys ++ hashes nodes.
Proof.
  unfold server.hashes.
  induction nodes as [|n nodes IH]; intros i keys; simpl.
  - rewrite app_nil_r. reflexivity.
  - rewrite filter_cons.
    destruct (decide (storage.Key n = "")) as [Hk|Hk].
    + rewrite decide_True by (right; exact Hk).
      rewrite (decide_False (P := storage.valid n))
        by (intros Hv; apply Hv, Hk).
      apply IH.
    + rewrite decide_False by (intros [?|?]; [lia|contradiction]).
      rewrite (decide_True (P := storage.valid n)) by exact Hk.
      rewrite IH, <- app_assoc. reflexivity.
Qed.

(** With the root in slot 0, [keys] holds the hashes of the valid nodes. *)
Lemma keys_loop_hashes nodes :
  (∀ n, nodes !! 0%nat = Some n → storage.Key n = "") →
  keys_loop KeyHash 0 nodes [] = hashes nodes.
Proof.
  intros H0. destruct nodes as [|n nodes]; [reflexivity|].
  cbn [keys_loop]. rewrite decide_True by (left; reflexivity).
  rewrite keys_loop_later. unfold server.hashes. rewrite filter_cons.
  rewrite decide_False; [reflexivity|].
  unfold storage.valid. intros Hv. apply Hv, H0. reflexivity.
Qed.

Lemma count_loop_counts keys : ∀ le greater,
  0 <= le → 0 <= greater →
  le + Z.of_nat (length keys) < 2 ^ 63 →
  greater + Z.of_nat (length keys) < 2 ^ 63 →
  count_loop mid keys le greater
  = (le + Z.of_nat (length (filter (λ key, key <= mid) keys)),
     greater + Z.of_nat (length (filter (λ key, key > mid) keys))).
Proof.
  induction keys as [|key keys IH]; intros le greater Hle Hgr Hl Hg.
  - simpl. rewrite !Z.add_0_r. reflexivity.
  - cbn [count_loop]. rewrite !filter_cons. cbn [length] in Hl, Hg.
    destruct (decide (key > mid)) as [Hk|Hk].
    + rewrite !(decide_False (P := key <= mid)) by lia.
      rewrite int_small by (pow2; lia).
      rewrite IH by (pow2; lia). cbn [length]. f_equal. lia.
    + rewrite !(decide_True (P := key <= mid)) by lia.
      rewrite int_small by (pow2; lia).
      rewrite IH by (pow2; lia). cbn [length]. f_equal. lia.
Qed.

Lemma length_filter_hashes (P : Z → Prop) `{∀ key, Decision (P key)} nodes :
  length (filter P (hashes nodes))
  = length (filter (λ n, storage.valid n ∧ P (node_hash n)) nodes).
Proof.
  unfold server.hashes. induction nodes as [|n nodes IH]; [reflexivity|].
  rewrite !filter_cons. destruct (decide (storage.valid n)) as [Hv|Hv].
  - rewrite fmap_cons, filter_cons. destruct (decide (P (node_hash n))).
    + rewrite decide_True by tauto. simpl. rewrite IH. reflexivity.
    + rewrite decide_False by tauto. exact IH.
  - rewrite decide_False by tauto. exact IH.
Qed.

(** The second loop reads [keys] in step with the valid nodes. *)
Lemma results_loop_filter (P : Z → Prop) `{∀ key, Decision (P key)} nodes :
  ∀ pre results,
  results_loop (λ key, bool_decide (P key)) (pre ++ hashes nodes) nodes
               (length pre) results
  = Done (results
          ++ (to_db <$> filter (λ n, storage.valid n ∧ P (node_hash n)) nodes)).
Proof.
  induction nodes as [|n nodes IH]; intros pre results.
  - simpl. rewrite app_nil_r. reflexivity.
  - cbn [results_loop]. rewrite filter_cons. unfold server.hashes.
    rewrite filter_cons.
    destruct (decide (storage.Key n = "")) as [Hk|Hk].
    + rewrite (decide_False (P := storage.valid n))
        by (intros Hv; apply Hv, Hk).
      rewrite (decide_False (P := storage.valid n ∧ P (node_hash n)))
        by (intros [Hv _]; apply Hv, Hk).
      apply IH.
    + rewrite (decide_True (P := storage.valid n)) by exact Hk.
      rewrite fmap_cons.
      rewrite lookup_app_r by lia. rewrite Nat.sub_diag. cbn [lookup list_lookup].
      specialize (IH (pre ++ [node_hash n])).
      rewrite length_app, Nat.add_1_r, <- app_assoc in IH. cbn [app] in IH.
      unfold server.hashes in IH. rewrite IH.
      destruct (decide (P (node_hash n))) as [Hp|Hp].
      * rewrite bool_decide_eq_true_2 by exact Hp.
        rewrite (decide_True (P := storage.valid n ∧ P (node_hash n)))
          by (split; assumption).
        rewrite fmap_cons, <- app_assoc. reflexivity.
      * rewrite bool_decide_eq_false_2 by exact Hp.
        rewrite (decide_False (P := storage.valid n ∧ P (node_hash n)))
          by (intros [_ ?]; contradiction).
        reflexivity.
Qed.

(** The plan on a list of nodes whose first one, if any, has no key. *)
Lemma split_plan_filter (self_addr peer : string) nodes :
  (∀ n, nodes !! 0%nat = Some n → storage.Key n = "") →
  Z.of_nat (length nodes) < 2 ^ 63 →
  let G := length (filter (λ n, storage.valid n ∧ node_hash n > mid) nodes) in
  let L := length (filter (λ n, storage.valid n ∧ node_hash n <= mid) nodes) in
  ((G ≥ L)%nat →
   split_plan KeyHash mid self_addr peer nodes
   = Done {| results :=
               to_db <$> filter (λ n, storage.valid n ∧ node_hash n <= mid) nodes;
             leftServer := peer;
             rightServer := self_addr |})
  ∧ ((G < L)%nat →
     split_plan KeyHash mid self_addr peer nodes
     = Done {| results :=
                 to_db <$> filter (λ n, storage.valid n ∧ node_hash n > mid) nodes;
               leftServer := self_addr;
               rightServer := peer |}).
Proof.
  intros H0 Hlen G L. unfold split_plan.
  rewrite (keys_loop_hashes nodes H0).
  assert (length (hashes nodes) ≤ length nodes)%nat as Hh.
  { unfold server.hashes. rewrite length_fmap. apply length_filter. }
  rewrite count_loop_counts by (pow2; lia).
  rewrite !length_filter_hashes. fold G L. rewrite !Z.add_0_l.
  pose proof (results_loop_filter (λ key, key <= mid) nodes [] []) as Hle.
  pose proof (results_loop_filter (λ key, key > mid) nodes [] []) as Hgt.
  cbn [app length] in Hle, Hgt.
  split; intros HGL.
  - rewrite decide_True by lia. rewrite Hle. reflexivity.
  - rewrite decide_False by lia. rewrite Hgt. reflexivity.
Qed.

(** C5. In [splitRange], on the store [s] of a running server (the length of
    its slice fits [int], as the length of every slice does): let [G] be
    the number of valid local nodes whose hash is above [mid] and [L] the
    number of those whose hash is at most [mid]. If [G >= L], the nodes to
    move are exactly the valid nodes with a hash at most [mid], in the order
    of the store, with [leftServer] the chosen peer and [rightServer] this
    server; otherwise they are exactly the valid nodes with a hash above
    [mid], with [leftServer] this server and [rightServer] the peer. *)
Theorem split_plan_direction (self_addr peer : string) (s : storage.Store) :
  storage.reachable s →
  Z.of_nat (length (storage.Nodes s)) < 2 ^ 63 →
  let nodes := storage.Nodes s in
  let G := length (filter (λ n, storage.valid n ∧ node_hash n > mid) nodes) in
  let L := length (filter (λ n, storage.valid n ∧ node_hash n <= mid) nodes) in
  ((G ≥ L)%nat →
   split_plan KeyHash mid self_addr peer nodes
   = Done {| results :=
               to_db <$> filter (λ n, storage.valid n ∧ node_hash n <= mid) nodes;
             leftServer := peer;
             rightServer := self_addr |})
  ∧ ((G < L)%nat →
     split_plan KeyHash mid self_addr peer nodes
     = Done {| results :=
                 to_db <$> filter (λ n, storage.valid n ∧ node_hash n > mid) nodes;
               leftServer := self_addr;
               rightServer := peer |}).
Proof.
  intros Hreach Hlen nodes.
  apply split_plan_filter; [|exact Hlen].
  apply rooted_slot0, reachable_rooted, Hreach.
Qed.

End SplitPlan.

Section Forwarding.

Import server.

Variable E : Env.

Implicit Types (w : World) (address : string).

Abbreviation answer := (server.answer E) (only parsing).

Lemma forward_dial_error address c empty w e :
  Dial E (trace w) address = Some e →
  forward E address c empty w = Done ((Some empty, Some e), dialed address w).
Proof.
  intros H. unfold forward, bind, the_world, emit, ret. simpl. rewrite H.
  reflexivity.
Qed.

Lemma forward_answer address c empty w :
  Dial E (trace w) address = None →
  forward E address c empty w = Done (answer address c w, called address c w).
Proof.
  intros H. unfold forward, bind, the_world, emit, ret. simpl. rewrite H.
  reflexivity.
Qed.

(** The four handlers that forward by [return client.X(ctx, in)]: the answer
    of the peer, its error included, is the answer of the handler, and the
    handler dials once and calls once. *)
Lemma Get_forwarded fuel in_ w :
  let address := LocateKey E (indexingService w) (db.GetRequest.Key in_) in
  address ≠ Self (self w) → Dial E (trace w) address = None →
  Get E fuel in_ w
  = Some (Done (answer address (db.Get in_) w, called address (db.Get in_) w)).
Proof.
  intros address Hne Hd. unfold Get. fold address.
  rewrite decide_False by exact Hne.
  rewrite (forward_answer address (db.Get in_) _ w Hd). reflexivity.
Qed.

Lemma GetNode_forwarded in_ w :
  let address :=
    Locate E (indexingService w) (KeyHash E (db.GetNodeRequest.Location in_)) in
  address ≠ Self (self w) → Dial E (trace w) address = None →
  GetNode E in_ w
  = Done (answer address (db.GetNode in_) w, called address (db.GetNode in_) w).
Proof.
  intros address Hne Hd. unfold GetNode, bind, the_world. fold address.
  rewrite decide_False by exact Hne.
  exact (forward_answer address (db.GetNode in_) db.Node0 w Hd).
Qed.

Lemma AddChild_forwarded in_ w :
  let address :=
    Locate E (indexingService w) (KeyHash E (db.AddChildRequest.Location in_)) in
  address ≠ Self (self w) → Dial E (trace w) address = None →
  AddChild E in_ w
  = Done (answer address (db.AddChild in_) w, called address (db.AddChild in_) w).
Proof.
  intros address Hne Hd. unfold AddChild, bind, the_world. fold address.
  rewrite decide_False by exact Hne.
  exact (forward_answer address (db.AddChild in_) db.Node0 w Hd).
Qed.

Lemma RemoveChildren_forwarded in_ w :
  let address :=
    Locate E (indexingService w)
      (KeyHash E (db.RemoveChildrenRequest.Location in_)) in
  address ≠ Self (self w) → Dial E (trace w) address = None →
  RemoveChildren E in_ w
  = Done (answer address (db.RemoveChildren in_) w,
          called address (db.RemoveChildren in_) w).
Proof.
  intros address Hne Hd. unfold RemoveChildren, bind, the_world. fold address.
  rewrite decide_False by exact Hne.
  exact (forward_answer address (db.RemoveChildren in_) db.mkEmpty w Hd).
Qed.

(** [Set] forwards by [result, err = client.Set(ctx, in)] and ends in
    [return result, nil]: the error of the peer is not in the answer. *)
Lemma Set_forwarded in_ w :
  let address := LocateKey E (indexingService w) (db.SetRequest.Key in_) in
  address ≠ Self (self w) → Dial E (trace w) address = None →
  ¬ (storage.Size (store w) > Threshold (self w)
     ∧ (length (AvailableServers (self w)) > 0)%nat) →
  Set_ E in_ w
  = Done (((answer address (db.Set_ in_) w).1, None),
          called address (db.Set_ in_) w).
Proof.
  intros address Hne Hd Hsplit.
  unfold Set_, bind, the_world, emit, ret. fold address.
  rewrite decide_False by exact Hne. simpl. rewrite Hd.
  unfold split_if_over, bind, the_world, ret. simpl.
  rewrite decide_False by exact Hsplit. reflexivity.
Qed.

End Forwarding.

(** C3, where the code departs from it. The key ["a"] belongs to the peer
    [B]; the dial succeeds and [B] answers the forwarded [Set] with an error
    and no message. [Set] on [A] dials once, calls once, and answers with no
    message and no error: the error of the peer is lost. [Get] in the same
    state hands the error of the peer on. *)
Theorem Set_forward_drops_error :
  let w := scenario.world "B" in
  let set := {| db.SetRequest.Key := "a"; db.SetRequest.Value := "1";
                db.SetRequest.Dep := 0 |} in
  let get := {| db.GetRequest.Key := "a"; db.GetRequest.Location := 0 |} in
  server.answer scenario.env "B" (db.Set_ set) w = (None, Some scenario.unavailable)
  ∧ server.Set_ scenario.env set w
    = Done ((None, None), server.called "B" (db.Set_ set) w)
  ∧ server.Get scenario.env 1 get w
    = Some (Done ((None, Some scenario.unavailable), server.called "B" (db.Get get) w)).
Proof. repeat split; vm_compute; reflexivity. Qed.

Section MergeError.

Import server.

Variable E : Env.

Implicit Types (w : World).

(** The handler [AddChild], local or forwarded, leaves the receiver, the map
    of locations, [Size] and the number of slots as they are, and changes at
    most the child list of a slot. *)
Lemma AddChild_keeps_nodes in_ w r w' :
  AddChild E in_ w = Done (r, w') →
  self w' = self w
  ∧ storage.MemLocation (store w') = storage.MemLocation (store w)
  ∧ storage.Size (store w') = storage.Size (store w)
  ∧ length (storage.Nodes (store w')) = length (storage.Nodes (store w))
  ∧ ∀ i n, storage.Nodes (store w) !! i = Some n →
           ∃ n', storage.Nodes (store w') !! i = Some n'
                 ∧ storage.same_identity n n'.
Proof.
  unfold AddChild, bind, the_world.
  destruct (decide _) as [_|_].
  - unfold lift, put_store, ret, storage.AddChild.
    destruct (storage.GetNode _ _) as [[j|]| |]; try discriminate.
    destruct (storage.Nodes (store w) !! j) as [m|] eqn:Hm; try discriminate.
    cbn [fst snd].
    destruct (storage.deref _ _); try discriminate.
    intros H. inversion H; subst; clear H. cbn.
    repeat apply conj; try reflexivity.
    + apply length_insert.
    + intros i n Hn. destruct (decide (i = j)) as [->|Hij].
      * rewrite Hm in Hn. inversion Hn; subst.
        exists (storage.add_child (db.AddChildRequest.Child in_) n). split.
        -- apply list_lookup_insert_eq. eapply lookup_lt_Some, Hm.
        -- repeat split.
      * exists n. split; [|repeat split].
        rewrite list_lookup_insert_ne by congruence. exact Hn.
  - unfold forward, bind, the_world, emit, ret. cbn.
    destruct (Dial E _ _); intros H; inversion H; subst; clear H; cbn;
      (repeat apply conj; try reflexivity;
       intros i n Hn; exists n; split; [exact Hn | repeat split]).
Qed.

(** C8. A [Set] that is handled here, with a parent ([Dep] is not 0), whose
    [AddChild] answers with a parent of more than one child, for which a
    merge function is named, and whose answer of the merge function does not
    decode: [Set] returns the error of the decoder together with a response
    that carries the location of the node it created, and that node is in
    the store afterwards, under its location, with the parent, key and value
    of the request; [Size] and the number of slots have grown by one. *)
Theorem Set_decode_error_keeps_node in_ w parent perr w2 e :
  let key := db.SetRequest.Key in_ in
  let value := db.SetRequest.Value in_ in
  let dep := db.SetRequest.Dep in_ in
  let loc := storage.fresh_location (hash32 E) key (rand_Uint32 E (trace w)) in
  let w1 :=
    {| store := storage.newNode (store w) loc dep key value;
       indexingService := indexingService w;
       self := self w;
       trace := trace w ++ [Drew] |} in
  let merge :=
    match mergeFunction (self w) !! dep with
    | Some merge => merge
    | None => globalMergeFunction (self w)
    end in
  LocateKey E (indexingService w) key = Self (self w) →
  dep ≠ 0 →
  AddChild E {| db.AddChildRequest.Location := dep;
                db.AddChildRequest.Child := loc |} w1
  = Done ((Some parent, perr), w2) →
  (length (db.Children parent) > 1)%nat →
  (String.length merge > 0)%nat →
  (Unmarshal E (CallAction E (trace w2) merge (Marshal E parent))).2 = Some e →
  ∃ w',
    Set_ E in_ w = Done ((Some {| db.SetResponse.Location := loc |}, Some e), w')
    ∧ (∃ i n, storage.MemLocation (store w') !! loc = Some i
              ∧ storage.Nodes (store w') !! i = Some n
              ∧ storage.Location n = loc ∧ storage.Dep n = dep
              ∧ storage.Key n = key ∧ storage.Value n = value)
    ∧ storage.Size (store w') = int (storage.Size (store w) + 1)
    ∧ length (storage.Nodes (store w')) = S (length (storage.Nodes (store w))).
Proof.
  intros key value dep loc w1 merge Hown Hdep Hadd Hfork Hmerge Hdec.
  destruct (AddChild_keeps_nodes _ _ _ _ Hadd)
    as (Hself & Hmem & Hsize & Hlen & Hslots).
  exists {| store := store w2; indexingService := indexingService w2;
            self := self w2;
            trace := trace w2 ++ [Invoked merge (Marshal E parent)] |}.
  split; [|split; [|split]].
  - unfold Set_, bind at 1, the_world at 1. fold key value dep.
    rewrite decide_True by exact Hown.
    unfold bind at 1, emit at 1. unfold storage.Set_. fold loc.
    unfold bind at 1, put_store at 1. cbn [store indexingService self trace].
    fold w1. unfold bind at 1.
    rewrite decide_True by exact Hdep.
    unfold resolve_conflict, bind at 1. fold dep. rewrite Hadd. cbn [fst].
    rewrite decide_True by exact Hfork.
    unfold bind at 1, the_world at 1.
    assert (match mergeFunction (self w2) !! dep with
            | Some merge => merge
            | None => globalMergeFunction (self w2)
            end = merge) as -> by (rewrite Hself; reflexivity).
    rewrite decide_True by exact Hmerge.
    unfold bind at 1, emit at 1.
    destruct (Unmarshal E _) as [children err]. cbn [snd] in Hdec. subst err.
    unfold ret. reflexivity.
  - cbn [store]. rewrite Hmem.
    destruct (Hslots (length (storage.Nodes (store w)))
                (storage.mkNode loc dep [] key value))
      as (n' & Hn' & Hl & Hd & Hk & Hv).
    { cbn. rewrite lookup_app_r by lia. rewrite Nat.sub_diag. reflexivity. }
    exists (length (storage.Nodes (store w))), n'. cbn in *.
    repeat apply conj; try assumption.
    rewrite lookup_insert_eq. f_equal. rewrite length_app. cbn. lia.
  - cbn [store]. rewrite Hsize. reflexivity.
  - cbn [store]. rewrite Hlen. cbn. rewrite length_app. cbn. lia.
Qed.

End MergeError.


(** * The theorems at work on the scenarios *)

(** The first two end-to-end scenarios of the specification, on the store. *)
Example scenario_single_server :
  storage.Get 3 scenario.set2.2 "a" scenario.L2 = Some (Done ("1", None))
  ∧ storage.Get 3 scenario.set2.2 "b" scenario.L2 = Some (Done ("2", None))
  ∧ storage.Get 3 scenario.set2.2 "c" scenario.L2
    = Some (Done ("", Some "Key c not found")).
Proof. repeat split; vm_compute; reflexivity. Qed.

Example scenario_version_chain :
  let r1 := storage.Set_ scenario.hash32 (storage.Init storage.zero) "x" "1" 0 3 in
  let r2 := storage.Set_ scenario.hash32 r1.2 "x" "2" r1.1 8 in
  storage.Get 3 r2.2 "x" r1.1 = Some (Done ("1", None))
  ∧ storage.Get 3 r2.2 "x" r2.1 = Some (Done ("2", None)).
Proof. repeat split; vm_compute; reflexivity. Qed.

(** The third scenario, on the server, with no merge function named: after
    the fork the parent lists both children and nothing was invoked. *)
Example scenario_fork_without_merge :
  let quiet :=
    {| server.store := server.store scenario.forked;
       server.indexingService := server.indexingService scenario.forked;
       server.self := server.set_globalMergeFunction "" scenario.A;
       server.trace := [] |} in
  ∃ w' n,
    server.Set_ scenario.env scenario.third quiet
    = Done ((Some {| db.SetResponse.Location := 523986010113 |}, None), w')
    ∧ server.trace w' = [server.Drew]
    ∧ storage.Nodes (server.store w') !! 1%nat = Some n
    ∧ storage.Children n = [519691042818; 523986010113].
Proof. do 2 eexists. repeat split; vm_compute; reflexivity. Qed.

(** A path of the store [scenario.chain], slot by slot. *)
Ltac slot i := exists i; split; vm_compute; reflexivity.
Ltac differs := vm_compute; discriminate.
Ltac no_key := repeat (constructor; [differs|]); constructor.
Ltac in_range := vm_compute; split; [discriminate | reflexivity].

Lemma chain_path_b_a :
  storage.path scenario.chain scenario.L2 [scenario.node_b; scenario.node_a].
Proof.
  apply storage.path_step; [slot 2%nat | differs |].
  apply storage.path_end. slot 1%nat.
Defined.

Lemma chain_path_b_a_root :
  storage.path scenario.chain scenario.L2
    [scenario.node_b; scenario.node_a; storage.root].
Proof.
  apply storage.path_step; [slot 2%nat | differs |].
  apply storage.path_step; [slot 1%nat | differs |].
  apply storage.path_end. slot 0%nat.
Defined.

Lemma Get_first_match_witness :
  storage.Get 2 scenario.chain "a" scenario.L2 = Some (Done ("1", None))
  ∧ storage.Get 3 scenario.chain "z" scenario.L2
    = Some (Done ("", Some "Key z not found")).
Proof.
  split.
  - apply (Get_first_match scenario.chain "a" scenario.L2
             [scenario.node_b] scenario.node_a 2 chain_path_b_a).
    + no_key.
    + simpl. lia.
    + reflexivity.
  - apply (Get_first_match scenario.chain "z" scenario.L2
             [scenario.node_b; scenario.node_a] storage.root 3
             chain_path_b_a_root).
    + no_key.
    + simpl. lia.
    + differs.
    + reflexivity.
Defined.

Lemma Set_location_high_bits_witness :
  Z.shiftr scenario.L1 32 = scenario.hash32 "a"
  ∧ scenario.L1 = Z.lor (Z.shiftl (scenario.hash32 "a") 32) 5.
Proof.
  pose proof (Set_location_high_bits scenario.hash32
                (storage.Init storage.zero) "a" "1" 0 5
                ltac:(in_range) ltac:(in_range)) as (H1 & _ & H2).
  split; [exact H1 | exact H2].
Defined.

Lemma SetIndexingLock_spec_witness :
  server.SetIndexingLock
    {| db.SetIndexingLockRequest.Lock := true |}
    (server.with_Lock true (scenario.world "A"))
  = Done ((Some {| db.SetIndexingLockResponse.Success := false |}, None),
          server.with_Lock true (scenario.world "A"))
  ∧ server.SetIndexingLock
      {| db.SetIndexingLockRequest.Lock := true |} (scenario.world "A")
    = Done ((Some {| db.SetIndexingLockResponse.Success := true |}, None),
            server.with_Lock true (scenario.world "A")).
Proof.
  split.
  - apply (proj1 (SetIndexingLock_spec
                    (server.with_Lock true (scenario.world "A")))).
    reflexivity.
  - apply (proj1 (proj2 (SetIndexingLock_spec (scenario.world "A")))).
    reflexivity.
Defined.

Lemma split_mid_floor_witness : server.split_mid 10 21 = 15.
Proof.
  exact (eq_trans
           (proj1 (split_mid_floor 10 21 ltac:(in_range) ltac:(in_range)))
           eq_refl).
Defined.

Lemma chain_reachable : storage.reachable scenario.chain.
Proof. repeat apply storage.reach_newNode. apply storage.reach_Init. Defined.

Lemma split_plan_direction_witness :
  server.split_plan scenario.KeyHash 97 "A" "B" (storage.Nodes scenario.chain)
  = Done {| server.results := [server.to_db scenario.node_a];
            server.leftServer := "B"; server.rightServer := "A" |}
  ∧ server.split_plan scenario.KeyHash 98 "A" "B" (storage.Nodes scenario.chain)
    = Done {| server.results := [server.to_db scenario.node_c];
              server.leftServer := "A"; server.rightServer := "B" |}.
Proof.
  split.
  - etransitivity.
    + refine (proj1 (split_plan_direction scenario.KeyHash 97 "A" "B"
                       scenario.chain chain_reachable _) _).
      * vm_compute. reflexivity.
      * vm_compute. lia.
    + vm_compute. reflexivity.
  - etransitivity.
    + refine (proj2 (split_plan_direction scenario.KeyHash 98 "A" "B"
                       scenario.chain chain_reachable _) _).
      * vm_compute. reflexivity.
      * vm_compute. lia.
    + vm_compute. reflexivity.
Defined.

Lemma Size_counts_valid_witness :
  storage.size_ok (storage.newNode scenario.chain 77 0 "k" "v")
  ∧ storage.size_ok (storage.RemoveNode scenario.chain scenario.L2)
  ∧ storage.RemoveNode scenario.chain 77 = scenario.chain.
Proof.
  pose proof (Size_counts_valid_preserved scenario.chain
                ltac:(vm_compute; reflexivity) ltac:(vm_compute; reflexivity))
    as (Hnew & _ & _ & Hremove & Habsent).
  split; [|split].
  - apply (Hnew 77 0 "k" "v"). discriminate.
  - apply (Hremove scenario.L2 2%nat scenario.node_b).
    + vm_compute. reflexivity.
    + differs.
  - apply Habsent. no_key.
Defined.

(** C7. [Size] is documented as the size of the valid nodes ([Size int //
    Size of valid nodes]) and the code does not keep it so: [newNode] adds
    one whatever the key and [RemoveNode] takes one whatever the slot holds.
    On the server [A] of the scenarios, whose store has [Size] 0 and no valid
    node after [Init]: the request [Set] with the empty key is answered
    without error and leaves [Size] 1 with no valid node. After
    [Set("x","1",0)], where [Size] is 1 with one valid node, [AddChild] of the
    location 0 under the new node and [RemoveChildren] of that node are
    answered without error and leave [Size] 0 with the valid node still in
    the store. On the store itself, [Set] with the empty key and
    [RemoveNode(0)] after [Init] both break the equality. *)
Theorem Size_miscounts :
  storage.size_ok (server.store (scenario.world "A"))
  ∧ (∃ loc w',
       server.Set_ scenario.env scenario.unkeyed (scenario.world "A")
       = Done ((Some {| db.SetResponse.Location := loc |}, None), w')
       ∧ storage.Size (server.store w') = 1
       ∧ storage.count_valid (storage.Nodes (server.store w')) = 0%nat)
  ∧ (∃ w0 parent w1 w2,
       scenario.run1
       = Done ((Some {| db.SetResponse.Location := scenario.LX |}, None), w0)
       ∧ storage.size_ok (server.store w0)
       ∧ server.AddChild scenario.env scenario.link_root w0
         = Done ((Some parent, None), w1)
       ∧ server.RemoveChildren scenario.env scenario.unlink w1
         = Done ((Some db.mkEmpty, None), w2)
       ∧ storage.Size (server.store w2) = 0
       ∧ storage.count_valid (storage.Nodes (server.store w2)) = 1%nat)
  ∧ ¬ storage.size_ok
        (storage.Set_ scenario.hash32 (storage.Init storage.zero) "" "v" 0 7).2
  ∧ ¬ storage.size_ok (storage.RemoveNode (storage.Init storage.zero) 0).
Proof.
  split; [reflexivity|]. split; [|split; [|split; differs]].
  - eexists _, _. split; [vm_compute; reflexivity|]. split; reflexivity.
  - eexists _, _, _, _. split; [vm_compute; reflexivity|].
    split; [reflexivity|]. split; [vm_compute; reflexivity|].
    split; [vm_compute; reflexivity|]. split; reflexivity.
Qed.

Lemma Set_decode_error_keeps_node_witness :
  ∃ w',
    server.Set_ scenario.env scenario.third scenario.forked
    = Done ((Some {| db.SetResponse.Location := 523986010115 |},
             Some "unexpected end of JSON input"), w')
    ∧ storage.Size (server.store w') = 3.
Proof.
  edestruct (Set_decode_error_keeps_node scenario.env scenario.third
               scenario.forked)
    as (w' & Hrun & _ & Hsize & _).
  - vm_compute. reflexivity.
  - differs.
  - vm_compute. reflexivity.
  - vm_compute. lia.
  - vm_compute. lia.
  - vm_compute. reflexivity.
  - exists w'. split; [exact Hrun | exact Hsize].
Defined.

Lemma Get_partial_witness :
  storage.Get 1 scenario.chain "a" 77 = Some Panic
  ∧ storage.Get 2 scenario.dangling.2 "zz" scenario.dangling.1 = Some Panic
  ∧ is_Some (storage.MemLocation scenario.chain !! scenario.L2).
Proof.
  split; [|split].
  - apply (proj1 (Get_partial scenario.chain "a" 77)). reflexivity.
  - apply (proj1 (proj2 (Get_partial scenario.dangling.2 "zz"
                           scenario.dangling.1))
             [] (storage.mkNode scenario.dangling.1 12345 [] "q" "1") 2%nat).
    + apply storage.path_end. slot 1%nat.
    + no_key.
    + differs.
    + reflexivity.
    + simpl. lia.
  - apply (proj2 (proj2 (Get_partial scenario.chain "z" scenario.L2))
             3%nat "" "Key z not found").
    vm_compute. reflexivity.
Defined.

Lemma blank_path :
  storage.path scenario.blank.2 scenario.blank.1
    [scenario.node_blank; scenario.node_b; scenario.node_a; storage.root].
Proof.
  apply storage.path_step; [slot 4%nat | differs |].
  apply storage.path_step; [slot 2%nat | differs |].
  apply storage.path_step; [slot 1%nat | differs |].
  apply storage.path_end. slot 0%nat.
Defined.

Lemma Get_empty_key_witness :
  storage.Get 3 scenario.chain "" scenario.L2 = Some (Done ("", None))
  ∧ storage.Get 1 scenario.blank.2 "" scenario.blank.1
    = Some (Done ("v", None)).
Proof.
  split.
  - destruct (Get_empty_key scenario.chain scenario.L2
                [scenario.node_b; scenario.node_a] storage.root
                chain_path_b_a_root ltac:(repeat split))
      as (pre & n & post & Hsplit & _ & _ & Hget & _ & Hroot).
    assert (length pre < 3)%nat as Hlen.
    { apply (f_equal length) in Hsplit. rewrite !length_app in Hsplit.
      cbn [length] in Hsplit. lia. }
    rewrite (Hget 3%nat Hlen).
    destruct (Hroot ltac:(no_key)) as [_ ->]. reflexivity.
  - destruct (Get_empty_key scenario.blank.2 scenario.blank.1
                [scenario.node_blank; scenario.node_b; scenario.node_a]
                storage.root blank_path ltac:(repeat split))
      as (pre & n & post & Hsplit & Hpre & _ & Hget & _).
    destruct pre as [|m pre].
    + injection Hsplit as <- _. apply Hget. simpl. lia.
    + injection Hsplit as <- _. apply Forall_cons in Hpre as [Hm _].
      exfalso. apply Hm. reflexivity.
Defined.


(** * Further properties of the store *)

Section StoreShape.

Import storage.

Implicit Types (s : Store) (n : Node) (loc : Z) (k : string) (fuel : nat).

Lemma well_formed_Init : well_formed (Init zero).
Proof.
  intros loc i H.
  change (Init zero)
    with {| Nodes := [root]; MemLocation := <[0 := 0%nat]> ∅; Size := 0 |} in *.
  cbn in *. apply lookup_insert_Some in H as [[_ <-]|[_ H]].
  - lia.
  - rewrite lookup_empty in H. discriminate.
Qed.

Lemma well_formed_newNode s location dep key value :
  well_formed s → well_formed (newNode s location dep key value).
Proof.
  intros Hwf loc i H. cbn in *. rewrite length_app in *. cbn in *.
  apply lookup_insert_Some in H as [[_ <-]|[_ H]]; [lia|].
  specialize (Hwf _ _ H). lia.
Qed.

Lemma well_formed_AddChild s location child p s' :
  well_formed s → AddChild s location child = Done (p, s') → well_formed s'.
Proof.
  intros Hwf. unfold AddChild.
  destruct (GetNode s location) as [[i|]| |]; try discriminate.
  destruct (Nodes s !! i) as [m|]; try discriminate.
  intros H. inversion H; subst; clear H. intros loc j Hj. cbn in *.
  rewrite length_insert. eauto.
Qed.

Lemma well_formed_RemoveNode s location :
  well_formed s → well_formed (RemoveNode s location).
Proof.
  intros Hwf. unfold RemoveNode.
  destruct (list_find _ _) as [[i m]|]; [|exact Hwf].
  intros loc j Hj. cbn in *. rewrite length_insert. eauto.
Qed.

Lemma well_formed_clear_children s i :
  well_formed s → well_formed (clear_children s (Some i)).
Proof.
  intros Hwf loc j Hj. cbn in *. rewrite length_alter. eauto.
Qed.

Lemma reachable_well_formed s : reachable s → well_formed s.
Proof.
  induction 1;
    eauto using well_formed_Init, well_formed_newNode, well_formed_AddChild,
                well_formed_RemoveNode, well_formed_clear_children.
Qed.

Lemma GetNode_in_range_aux s loc :
  reachable s →
  GetNode s loc = Done (MemLocation s !! loc)
  ∧ ∀ i, MemLocation s !! loc = Some i → ∃ n, deref s (Some i) = Done n.
Proof.
  intros Hr. pose proof (reachable_well_formed s Hr) as Hwf. split.
  - unfold GetNode. destruct (MemLocation s !! loc) as [i|] eqn:Hi; [|reflexivity].
    rewrite decide_True by (eapply Hwf, Hi). reflexivity.
  - intros i Hi. cbn. destruct (lookup_lt_is_Some_2 (Nodes s) i) as [n Hn].
    + eapply Hwf, Hi.
    + exists n. rewrite Hn. reflexivity.
Qed.

(** X1. On every store of a running server, each entry of [MemLocation]
    points into [Nodes]: [GetNode] never fails on an index out of range, its
    answer is the entry of the map ([nil] when there is none), and a pointer
    it hands out can be read. *)
Theorem GetNode_in_range s loc :
  reachable s →
  GetNode s loc = Done (MemLocation s !! loc)
  ∧ ∀ i, MemLocation s !! loc = Some i → ∃ n, deref s (Some i) = Done n.
Proof. apply GetNode_in_range_aux. Qed.

(** The new node is the one that its location resolves to. *)
Lemma newNode_resolves s location dep key value :
  resolves (newNode s location dep key value) location
    (mkNode location dep [] key value).
Proof.
  exists (length (Nodes s)). unfold GetNode. cbn.
  rewrite lookup_insert_eq, length_app. cbn.
  replace (length (Nodes s) + 1 - 1)%nat with (length (Nodes s)) by lia.
  rewrite decide_True by lia. split; [reflexivity|].
  rewrite lookup_app_r by lia. rewrite Nat.sub_diag. reflexivity.
Qed.

Lemma newNode_lookup_other s location dep key value l :
  l ≠ location →
  MemLocation (newNode s location dep key value) !! l = MemLocation s !! l.
Proof. intros H. cbn. apply lookup_insert_ne. congruence. Qed.

Lemma newNode_length s location dep key value :
  length (Nodes (newNode s location dep key value)) = S (length (Nodes s)).
Proof. cbn. rewrite length_app. cbn. lia. Qed.

Lemma newNode_slot_old s location dep key value i n :
  Nodes s !! i = Some n →
  Nodes (newNode s location dep key value) !! i = Some n.
Proof. intros H. cbn. apply lookup_app_l_Some, H. Qed.

(** A read that came to an answer before a node was added under a location
    that was free comes to the same answer after. *)
Lemma Get_loop_after_newNode fuel : ∀ s location dep key value k p r,
  MemLocation s !! location = None →
  Get_loop fuel s k p = Some (Done r) →
  Get_loop fuel (newNode s location dep key value) k p = Some (Done r).
Proof.
  induction fuel as [|fuel IH]; intros s location dep key value k p r Hfree H;
    [discriminate|].
  cbn [Get_loop] in *. destruct p as [i|]; [|discriminate]. cbn [deref] in *.
  destruct (Nodes s !! i) as [n|] eqn:Hn; [|discriminate].
  rewrite (newNode_slot_old _ _ _ _ _ _ _ Hn).
  destruct (decide (Key n = k)); [exact H|].
  destruct (decide (Dep n = MaxUint64)); [exact H|].
  unfold GetNode in *.
  destruct (MemLocation s !! Dep n) as [j|] eqn:Hj.
  - rewrite newNode_lookup_other by congruence. rewrite Hj, newNode_length.
    destruct (decide (j < length (Nodes s))%nat) as [Hlt|]; [|discriminate].
    rewrite decide_True by lia.
    apply (IH s location dep key value); assumption.
  - destruct fuel; discriminate.
Qed.

Lemma Get_after_newNode fuel s location dep key value k l r :
  MemLocation s !! location = None →
  Get fuel s k l = Some (Done r) →
  Get fuel (newNode s location dep key value) k l = Some (Done r).
Proof.
  intros Hfree. unfold Get, GetNode.
  destruct (MemLocation s !! l) as [i|] eqn:Hi.
  - rewrite newNode_lookup_other by congruence. rewrite Hi, newNode_length.
    destruct (decide (i < length (Nodes s))%nat) as [Hlt|]; [|discriminate].
    rewrite decide_True by lia.
    apply Get_loop_after_newNode, Hfree.
  - destruct fuel; discriminate.
Qed.

End StoreShape.

Section StoreReadWrite.

Import storage.

Variable hash32 : string → Z.

Implicit Types (s : Store) (n : Node) (loc : Z) (k : string) (fuel : nat).

(** X2. Read your write: in any store of a running server (made by [Init]
    and changed by the operations of the store since), for any key (the
    empty one included), parent and draw, [Get] of the key at the location
    that [Set] returned gives the value that was set and no error, in one
    turn of the loop. *)
Theorem Set_then_Get s key value dep rnd fuel :
  reachable s →
  let r := Set_ hash32 s key value dep rnd in
  Get (S fuel) r.2 key r.1 = Some (Done (value, None)).
Proof.
  intros _. cbn. apply (Get_hit _ _ _ (mkNode (fresh_location hash32 key rnd) dep [] key value)).
  - apply newNode_resolves.
  - reflexivity.
Qed.

(** X3. Versions are not rewritten: when the location that [Set] draws is
    not yet in [MemLocation], every [Get] that came to an answer (a value or
    the error of a missing key) before the [Set] comes to the same answer
    after it, for any key and start location. *)
Theorem Set_keeps_earlier_reads s key value dep rnd k l fuel r :
  MemLocation s !! fresh_location hash32 key rnd = None →
  Get fuel s k l = Some (Done r) →
  Get fuel (Set_ hash32 s key value dep rnd).2 k l = Some (Done r).
Proof. intros Hfree H. cbn. apply Get_after_newNode; assumption. Qed.

(** X4. A write is transparent for the other keys: after [Set] of [key]
    under a parent [dep] (not the root mark) at a location that was free,
    [Get] of another key at the new location gives what [Get] of that key at
    [dep] gave before the write. *)
Theorem Set_inherits_other_keys s key value dep rnd k fuel r :
  k ≠ key → dep ≠ MaxUint64 →
  MemLocation s !! fresh_location hash32 key rnd = None →
  Get fuel s k dep = Some (Done r) →
  let w := Set_ hash32 s key value dep rnd in
  Get (S fuel) w.2 k w.1 = Some (Done r).
Proof.
  intros Hk Hdep Hfree H. cbn.
  rewrite (Get_miss_step _ _ _
             (mkNode (fresh_location hash32 key rnd) dep [] key value)).
  - cbn. apply Get_after_newNode; assumption.
  - apply newNode_resolves.
  - cbn. congruence.
  - exact Hdep.
Qed.

(** X5. [CreateNode] names a node as [Set] does: for the same key and draw
    it computes the location that [Set] returns, so that, for a [uint32]
    hash and draw, the high 32 bits of the location are the hash of the key;
    the node carries the parent, key and value given and no children. *)
Theorem CreateNode_location s key value dep rnd :
  0 <= hash32 key < 2 ^ 32 → 0 <= rnd < 2 ^ 32 →
  let node := CreateNode hash32 key value dep rnd in
  db.Location node = (Set_ hash32 s key value dep rnd).1
  ∧ Z.shiftr (db.Location node) 32 = hash32 key
  ∧ node = db.mkNode (rnd + hash32 key * 2 ^ 32) dep key value [].
Proof.
  intros Hh Hr. unfold CreateNode, Set_. cbn.
  rewrite (fresh_location_sum hash32 key rnd Hh Hr).
  split; [reflexivity|]. split; [|reflexivity].
  rewrite Z.shiftr_div_pow2 by lia.
  rewrite Z.div_add by (pow2; lia). rewrite Z.div_small by lia. reflexivity.
Qed.

End StoreReadWrite.

Section StoreLinks.

Import storage.

Implicit Types (s : Store) (n : Node) (loc : Z) (k : string) (fuel : nat).

Lemma AddChild_known s loc i n child :
  GetNode s loc = Done (Some i) → Nodes s !! i = Some n →
  AddChild s loc child
  = Done (Some i, {| Nodes := <[i := add_child child n]> (Nodes s);
                     MemLocation := MemLocation s;
                     Size := Size s |}).
Proof. intros Hg Hn. unfold AddChild. rewrite Hg, Hn. reflexivity. Qed.

Lemma AddChild_unknown s loc child :
  MemLocation s !! loc = None → AddChild s loc child = Panic.
Proof. intros H. unfold AddChild, GetNode. rewrite H. reflexivity. Qed.

(** X6. [AddChild] keeps the order of the links: two calls for the same
    stored parent, first with [c1] and then with [c2], both answer with the
    pointer to the parent and leave it with its former children followed by
    [c1] and [c2], its location, parent, key and value as before; the map of
    locations, [Size] and every other slot are untouched. *)
Theorem AddChild_appends s loc n c1 c2 :
  resolves s loc n →
  ∃ i s1 s2 n2,
    AddChild s loc c1 = Done (Some i, s1)
    ∧ AddChild s1 loc c2 = Done (Some i, s2)
    ∧ Nodes s2 !! i = Some n2
    ∧ Children n2 = Children n ++ [c1; c2]
    ∧ same_identity n n2
    ∧ MemLocation s2 = MemLocation s ∧ Size s2 = Size s
    ∧ ∀ j, j ≠ i → Nodes s2 !! j = Nodes s !! j.
Proof.
  intros (i & Hg & Hn).
  pose proof (lookup_lt_Some _ _ _ Hn) as Hlt.
  set (s1 := {| Nodes := <[i := add_child c1 n]> (Nodes s);
                MemLocation := MemLocation s; Size := Size s |}).
  assert (GetNode s1 loc = Done (Some i)) as Hg1.
  { unfold GetNode in *. cbn. rewrite length_insert. exact Hg. }
  assert (Nodes s1 !! i = Some (add_child c1 n)) as Hn1.
  { cbn. apply list_lookup_insert_eq, Hlt. }
  exists i, s1. eexists. exists (add_child c2 (add_child c1 n)).
  split; [apply AddChild_known; assumption|].
  split; [apply (AddChild_known s1 loc i _ c2 Hg1 Hn1)|].
  cbn. repeat apply conj; try reflexivity.
  - apply list_lookup_insert_eq. rewrite length_insert. exact Hlt.
  - rewrite <- app_assoc. reflexivity.
  - intros j Hj. rewrite !list_lookup_insert_ne by congruence. reflexivity.
Qed.

(** X7. [RemoveNode] does not take the location out of [MemLocation]: for a
    location whose entry points to the first slot that carries it, [GetNode]
    still resolves the location after the removal, to the empty node. [Get]
    of the empty key there answers the empty string and no error, and [Get]
    of any other key goes on from location 0, the [Dep] of the empty
    node. *)
Theorem RemoveNode_leaves_entry s loc i n k fuel :
  list_find (λ m, Location m = loc) (Nodes s) = Some (i, n) →
  MemLocation s !! loc = Some i →
  let s' := RemoveNode s loc in
  GetNode s' loc = Done (Some i)
  ∧ Nodes s' !! i = Some tombstone
  ∧ Get (S fuel) s' "" loc = Some (Done ("", None))
  ∧ (k ≠ "" → Get (S fuel) s' k loc = Get fuel s' k 0).
Proof.
  intros Hf Hm s'. subst s'. rewrite (RemoveNode_found _ _ _ _ Hf).
  apply list_find_Some in Hf as (Hi & _ & _).
  pose proof (lookup_lt_Some _ _ _ Hi) as Hlt.
  set (s' := {| Nodes := <[i := tombstone]> (Nodes s);
                MemLocation := MemLocation s;
                Size := int (Size s - 1) |}).
  assert (GetNode s' loc = Done (Some i)) as Hg.
  { unfold GetNode. cbn. rewrite Hm, length_insert.
    rewrite decide_True by exact Hlt. reflexivity. }
  assert (Nodes s' !! i = Some tombstone) as Hn.
  { cbn. apply list_lookup_insert_eq, Hlt. }
  split; [exact Hg|]. split; [exact Hn|]. split.
  - apply (Get_hit _ _ _ tombstone); [exists i; auto | reflexivity].
  - intros Hk.
    apply (Get_miss_step _ _ _ tombstone);
      [exists i; auto | cbn; congruence | discriminate].
Qed.

Lemma no_match_Forall (l : list Node) loc :
  length (filter (λ m, Location m = loc) l) = 0%nat →
  Forall (λ m, Location m ≠ loc) l.
Proof.
  induction l as [|m l IH]; [constructor|].
  rewrite filter_cons. destruct (decide (Location m = loc)); [discriminate|].
  intros H. constructor; auto.
Qed.

(** X8. A second [RemoveNode] of the same location changes nothing, when
    the location is not 0 and at most one slot carries it: the first call
    left the location 0 in the slot, so the second finds no slot and [Size]
    is taken from only once. *)
Theorem RemoveNode_twice s loc :
  loc ≠ 0 → one_slot s loc →
  RemoveNode (RemoveNode s loc) loc = RemoveNode s loc.
Proof.
  intros H0 Hone.
  destruct (list_find (λ m, Location m = loc) (Nodes s)) as [[i n]|] eqn:Hf.
  - rewrite (RemoveNode_found _ _ _ _ Hf).
    apply list_find_Some in Hf as (Hi & Hloc & _).
    apply RemoveNode_absent. cbn.
    rewrite insert_take_drop by (eapply lookup_lt_Some, Hi).
    unfold one_slot in Hone. rewrite <- (take_drop_middle _ _ _ Hi) in Hone.
    rewrite filter_app, filter_cons, decide_True in Hone by exact Hloc.
    rewrite length_app in Hone. cbn in Hone.
    apply Forall_app. split; [|apply Forall_cons; split].
    + apply no_match_Forall. lia.
    + cbn. congruence.
    + apply no_match_Forall. lia.
  - unfold RemoveNode at 2. rewrite Hf. unfold RemoveNode. rewrite Hf.
    reflexivity.
Qed.

End StoreLinks.

Lemma GetNode_in_range_witness :
  storage.GetNode scenario.chain scenario.L2 = Done (Some 2%nat)
  ∧ storage.GetNode scenario.chain 77 = Done None.
Proof.
  split.
  - exact (eq_trans
             (proj1 (GetNode_in_range scenario.chain scenario.L2 chain_reachable))
             eq_refl).
  - exact (eq_trans
             (proj1 (GetNode_in_range scenario.chain 77 chain_reachable))
             eq_refl).
Defined.

Lemma Set_then_Get_witness :
  storage.Get 1 scenario.blank.2 "" scenario.blank.1 = Some (Done ("v", None))
  ∧ storage.Get 1 scenario.chain "c" scenario.L3 = Some (Done ("3", None)).
Proof.
  split.
  - exact (Set_then_Get scenario.hash32 scenario.chain "" "v" scenario.L2 6 0
             chain_reachable).
  - apply (Set_then_Get scenario.hash32 scenario.set2.2 "c" "3" scenario.L2 4 0).
    repeat apply storage.reach_newNode. apply storage.reach_Init.
Defined.

Lemma Set_keeps_earlier_reads_witness :
  storage.Get 3 scenario.chain "a" scenario.L2 = Some (Done ("1", None))
  ∧ storage.Get 3 scenario.chain "z" scenario.L2
    = Some (Done ("", Some "Key z not found")).
Proof.
  split.
  - apply (Set_keeps_earlier_reads scenario.hash32 scenario.set2.2
             "c" "3" scenario.L2 4 "a" scenario.L2 3 ("1", None));
      vm_compute; reflexivity.
  - apply (Set_keeps_earlier_reads scenario.hash32 scenario.set2.2
             "c" "3" scenario.L2 4 "z" scenario.L2 3
             ("", Some "Key z not found"));
      vm_compute; reflexivity.
Defined.

Lemma Set_inherits_other_keys_witness :
  storage.Get 4 scenario.chain "a" scenario.L3 = Some (Done ("1", None)).
Proof.
  apply (Set_inherits_other_keys scenario.hash32 scenario.set2.2
           "c" "3" scenario.L2 4 "a" 3 ("1", None)).
  - discriminate.
  - differs.
  - vm_compute. reflexivity.
  - vm_compute. reflexivity.
Defined.

Lemma CreateNode_location_witness :
  db.Location (storage.CreateNode scenario.hash32 "a" "1" 0 5) = scenario.L1
  ∧ Z.shiftr (db.Location (storage.CreateNode scenario.hash32 "a" "1" 0 5)) 32
    = scenario.hash32 "a".
Proof.
  pose proof (CreateNode_location scenario.hash32 (storage.Init storage.zero)
                "a" "1" 0 5 ltac:(in_range) ltac:(in_range)) as (H1 & H2 & _).
  split; [exact H1 | exact H2].
Defined.

Lemma AddChild_appends_witness :
  ∃ i s1 s2 n2,
    storage.AddChild scenario.chain scenario.L1 7 = Done (Some i, s1)
    ∧ storage.AddChild s1 scenario.L1 8 = Done (Some i, s2)
    ∧ storage.Nodes s2 !! i = Some n2
    ∧ storage.Children n2 = [7; 8].
Proof.
  destruct (AddChild_appends scenario.chain scenario.L1 scenario.node_a 7 8
              ltac:(slot 1%nat))
    as (i & s1 & s2 & n2 & H1 & H2 & H3 & H4 & _).
  exists i, s1, s2, n2. repeat split; assumption.
Defined.

Lemma RemoveNode_leaves_entry_witness :
  storage.GetNode (storage.RemoveNode scenario.chain scenario.L2) scenario.L2
  = Done (Some 2%nat)
  ∧ storage.Get 1 (storage.RemoveNode scenario.chain scenario.L2) "" scenario.L2
    = Some (Done ("", None)).
Proof.
  pose proof (RemoveNode_leaves_entry scenario.chain scenario.L2 2%nat
                scenario.node_b "b" 0
                ltac:(vm_compute; reflexivity) ltac:(vm_compute; reflexivity))
    as (H1 & _ & H2 & _).
  split; [exact H1 | exact H2].
Defined.

Lemma RemoveNode_twice_witness :
  storage.RemoveNode (storage.RemoveNode scenario.chain scenario.L2) scenario.L2
  = storage.RemoveNode scenario.chain scenario.L2.
Proof.
  apply RemoveNode_twice.
  - differs.
  - vm_compute. lia.
Defined.


(** * Properties of the store of maps *)

Section MapStore.

Import mapstore.

Implicit Types (s : Store) (node : Node) (keys : list string)
  (data : gmap string string) (key : string).

Lemma int64_small z : - 2 ^ 63 <= z < 2 ^ 63 → int64 z = z.
Proof. intros H. unfold int64. pow2. rewrite Z.mod_small; lia. Qed.

(** X9. [Set] of the store of maps appends one node and returns its index,
    the former length of [nodes] (as long as that fits [int64]): the node
    read back at that index has the data given, and [-1] as its [dep]
    whatever [dep] was passed; the nodes that were there before are read
    back as before. *)
Theorem mapstore_Set_index s data virtualLoc dep' virtualDep :
  Z.of_nat (length (nodes s)) < 2 ^ 63 - 1 →
  let r := Set_ s data virtualLoc dep' virtualDep in
  r.1 = Z.of_nat (length (nodes s))
  ∧ index r.2 r.1 = Done {| dep := -1; data := data |}
  ∧ ∀ loc node, index s loc = Done node → index r.2 loc = Done node.
Proof.
  intros Hlen. cbn. rewrite length_app. cbn.
  assert (int64 (int64 (Z.of_nat (length (nodes s) + 1)) - 1)
          = Z.of_nat (length (nodes s))) as ->.
  { rewrite (int64_small (Z.of_nat _)) by (pow2; lia).
    rewrite int64_small by (pow2; lia). lia. }
  split; [reflexivity|]. split.
  - unfold index. cbn. rewrite decide_True by lia. rewrite Nat2Z.id.
    rewrite lookup_app_r by lia. rewrite Nat.sub_diag. reflexivity.
  - intros loc node. unfold index. cbn.
    destruct (decide (0 <= loc)); [|discriminate].
    destruct (nodes s !! Z.to_nat loc) as [m|] eqn:Hm; [|discriminate].
    rewrite (lookup_app_l_Some _ _ _ _ Hm). auto.
Qed.

Lemma collect_lookup keys node : ∀ data key,
  collect keys node data !! key
  = match data !! key with
    | Some value => Some value
    | None => if decide (key ∈ keys) then mapstore.data node !! key else None
    end.
Proof.
  unfold collect.
  induction keys as [|k keys IH]; intros data key; cbn [foldl].
  - rewrite decide_False by apply not_elem_of_nil.
    destruct (data !! key); reflexivity.
  - rewrite IH. clear IH.
    destruct (decide (key = k)) as [->|Hne].
    + rewrite (decide_True (P := k ∈ k :: keys)) by apply list_elem_of_here.
      destruct (data !! k) as [v|] eqn:Hd.
      * rewrite Hd. reflexivity.
      * destruct (mapstore.data node !! k) as [v|] eqn:Hv.
        -- rewrite lookup_insert_eq. reflexivity.
        -- rewrite Hd. destruct (decide (k ∈ keys)); reflexivity.
    + assert (match data !! k with
              | Some _ => data
              | None => match mapstore.data node !! k with
                        | Some value => <[k := value]> data
                        | None => data
                        end
              end !! key = data !! key) as ->.
      { destruct (data !! k); [reflexivity|].
        destruct (mapstore.data node !! k); [|reflexivity].
        apply lookup_insert_ne. congruence. }
      destruct (data !! key); [reflexivity|].
      destruct (decide (key ∈ keys)) as [Hin|Hin].
      * rewrite decide_True by (apply list_elem_of_further, Hin). reflexivity.
      * rewrite decide_False; [reflexivity|].
        intros Hin'. apply elem_of_cons in Hin' as [?|?]; contradiction.
Qed.

Lemma Get_loop_nearest s keys node ns last :
  walk s node ns last →
  ∀ fuel data, (length ns < fuel)%nat →
  ∃ m, Get_loop fuel s keys node data = Some (Done m)
       ∧ ∀ key, m !! key
                = match data !! key with
                  | Some value => Some value
                  | None => if decide (key ∈ keys) then nearest ns key else None
                  end.
Proof.
  induction 1 as [node Hd|node next ns last Hd Hi Hw IH]; intros fuel data Hf.
  - destruct fuel as [|fuel]; [cbn in Hf; lia|]. cbn [Get_loop].
    rewrite decide_False by (intros Hne; apply Hne, Hd).
    exists data. split; [reflexivity|]. intros key. cbn.
    destruct (data !! key); [reflexivity|]. destruct (decide _); reflexivity.
  - destruct fuel as [|fuel]; [cbn in Hf; lia|]. cbn [Get_loop].
    rewrite decide_True by exact Hd. rewrite Hi.
    destruct (IH fuel (collect keys node data)) as (m & Hm & Hlook).
    { cbn in Hf. lia. }
    exists m. split; [exact Hm|]. intros key.
    rewrite Hlook, collect_lookup. cbn [nearest].
    destruct (data !! key); [reflexivity|].
    destruct (decide (key ∈ keys)); [|reflexivity].
    destruct (mapstore.data node !! key); reflexivity.
Qed.

(** X10. What [Get] of the store of maps returns, on any store: when the
    walk from [loc] visits the nodes [ns] and stops at a node whose [dep]
    is [-1], [Get] returns a map that holds, for each requested key, the
    value of the first node of [ns] that has the key, and nothing for the
    other keys. The node that ends the walk is not read: its data never
    shows in the answer. *)
Theorem mapstore_Get_nearest s keys loc node ns last fuel :
  index s loc = Done node → walk s node ns last → (length ns < fuel)%nat →
  ∃ m, Get fuel s keys loc = Some (Done m)
       ∧ ∀ key, m !! key = if decide (key ∈ keys) then nearest ns key else None.
Proof.
  intros Hi Hw Hf. unfold Get. rewrite Hi.
  destruct (Get_loop_nearest s keys node ns last Hw fuel ∅ Hf) as (m & Hm & Hl).
  exists m. split; [exact Hm|]. intros key. rewrite Hl, lookup_empty.
  reflexivity.
Qed.

Lemma built_dep s : built s → Forall (λ node, dep node = -1) (nodes s).
Proof.
  induction 1 as [|s data virtualLoc dep' virtualDep Hb IH]; [constructor|].
  cbn. apply Forall_app. split; [exact IH|]. repeat constructor.
Qed.

(** X11. In a store of maps that was built by [Set] alone, [Get] finds
    nothing: every node has the [dep] [-1], so for any keys and any location
    in range the loop does not run and the answer is the empty map, whatever
    was stored; a location out of range is an index out of range. *)
Theorem mapstore_Get_built s keys loc fuel :
  built s →
  (0 <= loc < Z.of_nat (length (nodes s)) →
   Get (S fuel) s keys loc = Some (Done ∅))
  ∧ (¬ 0 <= loc < Z.of_nat (length (nodes s)) →
     Get fuel s keys loc = Some Panic).
Proof.
  intros Hb. pose proof (built_dep s Hb) as Hdep. unfold Get, index. split.
  - intros Hloc. rewrite decide_True by lia.
    destruct (lookup_lt_is_Some_2 (nodes s) (Z.to_nat loc)) as [node Hn]; [lia|].
    rewrite Hn. cbn [Get_loop].
    rewrite Forall_lookup in Hdep. specialize (Hdep _ _ Hn). cbn in Hdep.
    rewrite decide_False by (intros Hne; apply Hne, Hdep). reflexivity.
  - intros Hloc. destruct (decide (0 <= loc)); [|reflexivity].
    rewrite lookup_ge_None_2 by lia. reflexivity.
Qed.

End MapStore.


(** * Further properties of the server *)

Section Loops.

Import server.

(** A loop whose body always ends and acts on the world alone is a fold. *)
Lemma for_each_fold {A} (l : list A) (body : A → M unit)
  (f : World → A → World) :
  (∀ x w, body x w = Done (tt, f w x)) →
  ∀ w, for_each l body w = Done (tt, foldl f w l).
Proof.
  intros Hbody. induction l as [|x l IH]; intros w; [reflexivity|].
  cbn [for_each foldl]. unfold bind. rewrite Hbody. apply IH.
Qed.

End Loops.

Section Routing.

Import server.

Variable E : Env.

Implicit Types (w : World).

Abbreviation answer := (server.answer E) (only parsing).

(** X12. The four handlers that forward with [return client.X(ctx, in)],
    [Get], [GetNode], [AddChild] and [RemoveChildren], when the owner of the
    key or location is another server and the dial succeeds: the answer of
    the handler is the answer of the peer, message and error alike, the
    state of this server is as before, and the handler has dialed the owner
    once and called it once, with the request it was given. *)
Theorem forward_passes_answer w :
  (∀ fuel in_,
     let address := LocateKey E (indexingService w) (db.GetRequest.Key in_) in
     address ≠ Self (self w) → Dial E (trace w) address = None →
     Get E fuel in_ w
     = Some (Done (answer address (db.Get in_) w,
                   called address (db.Get in_) w)))
  ∧ (∀ in_,
       let address := Locate E (indexingService w)
                        (KeyHash E (db.GetNodeRequest.Location in_)) in
       address ≠ Self (self w) → Dial E (trace w) address = None →
       GetNode E in_ w
       = Done (answer address (db.GetNode in_) w,
               called address (db.GetNode in_) w))
  ∧ (∀ in_,
       let address := Locate E (indexingService w)
                        (KeyHash E (db.AddChildRequest.Location in_)) in
       address ≠ Self (self w) → Dial E (trace w) address = None →
       AddChild E in_ w
       = Done (answer address (db.AddChild in_) w,
               called address (db.AddChild in_) w))
  ∧ (∀ in_,
       let address := Locate E (indexingService w)
                        (KeyHash E (db.RemoveChildrenRequest.Location in_)) in
       address ≠ Self (self w) → Dial E (trace w) address = None →
       RemoveChildren E in_ w
       = Done (answer address (db.RemoveChildren in_) w,
               called address (db.RemoveChildren in_) w)).
Proof.
  repeat apply conj; intros.
  - apply Get_forwarded; assumption.
  - apply GetNode_forwarded; assumption.
  - apply AddChild_forwarded; assumption.
  - apply RemoveChildren_forwarded; assumption.
Qed.

(** X13. When the dial to the owner fails, each of the five handlers that
    forward, [Set] among them, answers with the empty message of its kind
    and the error of the dial, after the dial alone: no call is made, the
    state is as before, and [Set] does not come to its test for a split. *)
Theorem forward_dial_failure w e :
  (∀ fuel in_,
     let address := LocateKey E (indexingService w) (db.GetRequest.Key in_) in
     address ≠ Self (self w) → Dial E (trace w) address = Some e →
     Get E fuel in_ w
     = Some (Done ((Some {| db.GetResponse.Value := "" |}, Some e),
                   dialed address w)))
  ∧ (∀ in_,
       let address := LocateKey E (indexingService w) (db.SetRequest.Key in_) in
       address ≠ Self (self w) → Dial E (trace w) address = Some e →
       Set_ E in_ w
       = Done ((Some {| db.SetResponse.Location := 0 |}, Some e),
               dialed address w))
  ∧ (∀ in_,
       let address := Locate E (indexingService w)
                        (KeyHash E (db.GetNodeRequest.Location in_)) in
       address ≠ Self (self w) → Dial E (trace w) address = Some e →
       GetNode E in_ w = Done ((Some db.Node0, Some e), dialed address w))
  ∧ (∀ in_,
       let address := Locate E (indexingService w)
                        (KeyHash E (db.AddChildRequest.Location in_)) in
       address ≠ Self (self w) → Dial E (trace w) address = Some e →
       AddChild E in_ w = Done ((Some db.Node0, Some e), dialed address w))
  ∧ (∀ in_,
       let address := Locate E (indexingService w)
                        (KeyHash E (db.RemoveChildrenRequest.Location in_)) in
       address ≠ Self (self w) → Dial E (trace w) address = Some e →
       RemoveChildren E in_ w
       = Done ((Some db.mkEmpty, Some e), dialed address w)).
Proof.
  repeat apply conj; intros.
  - unfold Get. fold address. rewrite decide_False by assumption.
    rewrite (forward_dial_error E address (db.Get in_) _ w e) by assumption.
    reflexivity.
  - unfold Set_, bind, the_world, emit, ret. fold address.
    rewrite decide_False by assumption. cbn.
    match goal with H : Dial _ _ _ = Some _ |- _ => rewrite H end.
    reflexivity.
  - unfold GetNode, bind, the_world. fold address.
    rewrite decide_False by assumption.
    exact (forward_dial_error E address (db.GetNode in_) db.Node0 w e
             ltac:(assumption)).
  - unfold AddChild, bind, the_world. fold address.
    rewrite decide_False by assumption.
    exact (forward_dial_error E address (db.AddChild in_) db.Node0 w e
             ltac:(assumption)).
  - unfold RemoveChildren, bind, the_world. fold address.
    rewrite decide_False by assumption.
    exact (forward_dial_error E address (db.RemoveChildren in_) db.mkEmpty w e
             ltac:(assumption)).
Qed.

(** X14. [GetNode] on the server that owns the location: a location without
    an entry in the store is answered with the empty node and the error
    ["Location x not found"], [x] the location in hexadecimal, and a stored
    location with a copy of its node and no error; the state is as before.
    On the store of a running server the handler always answers. *)
Theorem GetNode_local in_ w :
  let loc := db.GetNodeRequest.Location in_ in
  Locate E (indexingService w) (KeyHash E loc) = Self (self w) →
  (storage.MemLocation (store w) !! loc = None →
   GetNode E in_ w
   = Done ((Some db.Node0, Some ("Location " +:+ hex loc +:+ " not found")), w))
  ∧ (∀ n, storage.resolves (store w) loc n →
          GetNode E in_ w = Done ((Some (to_db n), None), w))
  ∧ (storage.reachable (store w) → ∃ r, GetNode E in_ w = Done (r, w)).
Proof.
  intros loc Hown. unfold GetNode, bind, the_world, lift, ret. fold loc.
  rewrite decide_True by exact Hown.
  split; [|split].
  - intros Hnone. unfold storage.GetNode. rewrite Hnone. reflexivity.
  - intros n (i & Hg & Hn). rewrite Hg. cbn. rewrite Hn. reflexivity.
  - intros Hr. destruct (GetNode_in_range_aux (store w) loc Hr) as [Hg Hd].
    rewrite Hg. destruct (storage.MemLocation (store w) !! loc) as [i|] eqn:Hi.
    + destruct (Hd i eq_refl) as [n Hn]. rewrite Hn. eauto.
    + eauto.
Qed.

(** X15. [AddChild] and [RemoveChildren] on the server that owns the
    location do not test the pointer that [GetNode] of the store returns:
    for a location without an entry in the store both panic on [nil], where
    the handler [GetNode] answers with an error. *)
Theorem unknown_location_panics w loc :
  Locate E (indexingService w) (KeyHash E loc) = Self (self w) →
  storage.MemLocation (store w) !! loc = None →
  (∀ child, AddChild E {| db.AddChildRequest.Location := loc;
                          db.AddChildRequest.Child := child |} w = Panic)
  ∧ RemoveChildren E {| db.RemoveChildrenRequest.Location := loc |} w = Panic.
Proof.
  intros Hown Hnone. split.
  - intros child. unfold AddChild, bind, the_world, lift. cbn.
    rewrite decide_True by exact Hown.
    rewrite AddChild_unknown by exact Hnone. reflexivity.
  - unfold RemoveChildren, bind, the_world, lift. cbn.
    rewrite decide_True by exact Hown.
    unfold storage.GetNode. rewrite Hnone. reflexivity.
Qed.

End Routing.

Section LocalHandlers.

Import server.

Variable E : Env.

Implicit Types (w : World).

Lemma remove_each_fold (children : list Z) : ∀ w,
  for_each children (λ child,
    let* w := the_world in
    put_store (storage.RemoveNode (store w) child)) w
  = Done (tt, with_store (foldl storage.RemoveNode (store w) children) w).
Proof.
  induction children as [|c children IH]; intros w.
  - destruct w; reflexivity.
  - cbn [for_each foldl]. unfold bind at 1. unfold bind at 1.
    unfold the_world at 1, put_store at 1. rewrite IH. reflexivity.
Qed.

Lemma RemoveNode_each_absent (children : list Z) : ∀ st,
  Forall (λ c, Forall (λ m, storage.Location m ≠ c) (storage.Nodes st)) children →
  foldl storage.RemoveNode st children = st.
Proof.
  induction children as [|c children IH]; intros st H; [reflexivity|].
  apply Forall_cons in H as [Hc H]. cbn [foldl].
  rewrite (RemoveNode_absent st c Hc). apply IH, H.
Qed.

(** X16. [RemoveChildren] on the server that owns and stores the location:
    it runs [RemoveNode] of the store for each child in the order of the
    list and then empties the list of the parent, and answers without
    error. It reaches no other server: the trace of outside events is as
    before, and when no child is stored here the store changes by the empty
    child list alone. *)
Theorem RemoveChildren_local in_ w i n :
  let loc := db.RemoveChildrenRequest.Location in_ in
  let st := foldl storage.RemoveNode (store w) (storage.Children n) in
  Locate E (indexingService w) (KeyHash E loc) = Self (self w) →
  storage.GetNode (store w) loc = Done (Some i) →
  storage.Nodes (store w) !! i = Some n →
  RemoveChildren E in_ w
  = Done ((Some db.mkEmpty, None),
          with_store (storage.clear_children st (Some i)) w)
  ∧ (∀ n', storage.Nodes (storage.clear_children st (Some i)) !! i = Some n' →
           storage.Children n' = [])
  ∧ (Forall (λ c, Forall (λ m, storage.Location m ≠ c)
                         (storage.Nodes (store w))) (storage.Children n) →
     st = store w).
Proof.
  intros loc st Hown Hg Hn. split; [|split].
  - unfold RemoveChildren, bind at 1, the_world at 1. fold loc.
    rewrite decide_True by exact Hown.
    unfold bind at 1, lift at 1. rewrite Hg.
    unfold bind at 1, lift at 1. cbn [storage.deref]. rewrite Hn.
    unfold bind at 1. rewrite remove_each_fold. fold st.
    reflexivity.
  - intros n'. cbn. rewrite list_lookup_alter.
    rewrite decide_True by reflexivity.
    destruct (storage.Nodes st !! i); cbn; [|discriminate].
    intros H. inversion H. reflexivity.
  - apply RemoveNode_each_absent.
Qed.

(** Writing the last entry over an entry and cutting the last slot off
    removes that entry, up to order. *)
Lemma swap_remove (pre post : list string) (x : string) :
  let l := pre ++ x :: post in
  length (match last l with
          | Some z => take (length l - 1) (<[length pre := z]> l)
          | None => l
          end) = (length l - 1)%nat
  ∧ match last l with
    | Some z => take (length l - 1) (<[length pre := z]> l)
    | None => l
    end ≡ₚ pre ++ post.
Proof.
  cbv zeta. destruct post as [|z post' _] using rev_ind.
  - rewrite last_snoc.
    replace (<[length pre := x]> (pre ++ [x])) with (pre ++ [x]).
    + rewrite length_app. cbn. rewrite Nat.add_sub.
      rewrite take_app_length, app_nil_r. split; reflexivity.
    + rewrite insert_app_r_alt by lia. rewrite Nat.sub_diag. reflexivity.
  - replace (pre ++ x :: post' ++ [z]) with ((pre ++ x :: post') ++ [z])
      by (rewrite <- app_assoc; reflexivity).
    rewrite last_snoc.
    rewrite insert_app_l by (rewrite length_app; cbn; lia).
    rewrite insert_app_r_alt by lia. rewrite Nat.sub_diag.
    cbn [insert list_insert].
    rewrite (length_app _ [z]). cbn [length]. rewrite Nat.add_sub.
    replace (length (pre ++ x :: post')) with (length (pre ++ z :: post'))
      by (rewrite !length_app; reflexivity).
    rewrite take_app_length. split.
    + rewrite !length_app. reflexivity.
    + apply Permutation_app_head.
      rewrite (Permutation_app_comm post' [z]). reflexivity.
Qed.

(** X17. [Split] takes at most one server out of [AvailableServers]: when
    no entry is one of the two servers of the request the list is as before;
    otherwise the list is one shorter, even when both servers are listed,
    and is the old list without its first entry that is one of the two, up
    to order (the last entry takes the place of the one removed). The store
    and the trace are untouched and no error is returned. *)
Theorem Split_available in_ w :
  let l := db.SplitRequest.LeftServer in_ in
  let r := db.SplitRequest.RightServer in_ in
  let avail := AvailableServers (self w) in
  ∃ w',
    Split E in_ w = Done ((Some db.mkEmpty, None), w')
    ∧ store w' = store w ∧ trace w' = trace w
    ∧ AvailableServers (self w') = drop_available avail l r
    ∧ (Forall (λ server, ¬ (server = l ∨ server = r)) avail →
       drop_available avail l r = avail)
    ∧ (∀ i x, list_find (λ server, server = l ∨ server = r) avail = Some (i, x) →
              length (drop_available avail l r) = (length avail - 1)%nat
              ∧ drop_available avail l r ≡ₚ delete i avail).
Proof.
  intros l r avail. eexists.
  split; [unfold Split, bind, the_world, put_indexing, put_self, ret;
          reflexivity|].
  cbn [store trace self AvailableServers set_AvailableServers].
  split; [reflexivity|]. split; [reflexivity|]. split; [reflexivity|]. split.
  - intros Hnone. unfold drop_available.
    destruct (list_find _ avail) as [[i x]|] eqn:Hf; [|reflexivity].
    apply list_find_Some in Hf as (Hi & Hx & _).
    rewrite Forall_lookup in Hnone. destruct (Hnone _ _ Hi Hx).
  - intros i x Hf. unfold drop_available. rewrite Hf.
    apply list_find_Some in Hf as (Hi & _ & _).
    pose proof (lookup_lt_Some _ _ _ Hi) as Hlt.
    pose proof (swap_remove (take i avail) (drop (S i) avail) x) as H.
    cbv zeta in H. rewrite (take_drop_middle _ _ _ Hi) in H.
    rewrite length_take_le in H by lia.
    rewrite delete_take_drop. exact H.
Qed.

End LocalHandlers.

Section MergeNames.

Import server.

Variable E : Env.

Implicit Types (w : World).



(** The loop of [SetGlobalMergeFunction] over addresses that are all the
    server's own. *)
Lemma SetGlobal_own in_ (addrs : list string) : ∀ w,
  Forall (λ addr, addr = Self (self w)) addrs →
  for_each addrs (λ addr,
    let* w := the_world in
    if decide (addr = Self (self w)) then
      put_self (set_globalMergeFunction
                  (db.SetGlobalMergeFunctionRequest.Name in_) (self w))
    else
      let* _ := must_dial E addr in
      emit (Called addr (db.SetGlobalMergeFunction in_))) w
  = Done (tt,
          if decide (addrs = []) then w
          else with_self (set_globalMergeFunction
                            (db.SetGlobalMergeFunctionRequest.Name in_)
                            (self w)) w).
Proof.
  induction addrs as [|addr addrs IH]; intros w Hown; [reflexivity|].
  apply Forall_cons in Hown as [-> Hown].
  cbn [for_each]. unfold bind at 1. unfold bind at 1, the_world at 1.
  rewrite decide_True by reflexivity. unfold put_self at 1.
  rewrite IH by exact Hown.
  rewrite (decide_False (P := Self (self w) :: addrs = [])) by discriminate.
  destruct (decide (addrs = [])); reflexivity.
Qed.

(** X19. [SetGlobalMergeFunction] where it makes no call. On a server whose
    list [Servers] holds no address but its own, the handler answers
    without error and reaches no peer: the server takes the name when the
    list has an entry, and keeps its old name when the list is empty; the
    store, the table of ranges, the table of merge functions and the trace
    are as before. When the first address of the list that is not its own
    cannot be dialed, the run ends in [log.Fatalln] and no answer is given. *)
Theorem SetGlobalMergeFunction_no_peer in_ w :
  let name := db.SetGlobalMergeFunctionRequest.Name in_ in
  (Forall (λ addr, addr = Self (self w)) (Servers (self w)) →
   SetGlobalMergeFunction E in_ w
   = Done ((Some db.mkEmpty, None),
           if decide (Servers (self w) = []) then w
           else with_self (set_globalMergeFunction name (self w)) w))
  ∧ (∀ own peer rest e,
       Servers (self w) = own ++ peer :: rest →
       Forall (λ addr, addr = Self (self w)) own →
       peer ≠ Self (self w) →
       Dial E (trace w) peer = Some e →
       SetGlobalMergeFunction E in_ w = Fatal).
Proof.
  intros name. split.
  - intros Hown. unfold SetGlobalMergeFunction, bind at 1, the_world at 1.
    unfold bind at 1. rewrite (SetGlobal_own in_ _ w Hown). reflexivity.
  - intros own peer rest e Hlist Hown Hpeer Hdial.
    unfold SetGlobalMergeFunction, bind at 1, the_world at 1.
    unfold bind at 1. rewrite Hlist. clear Hlist.
    assert (∀ w1, Self (self w1) = Self (self w) → trace w1 = trace w →
              for_each (own ++ peer :: rest) (λ addr,
                let* w := the_world in
                if decide (addr = Self (self w)) then
                  put_self (set_globalMergeFunction
                              (db.SetGlobalMergeFunctionRequest.Name in_) (self w))
                else
                  let* _ := must_dial E addr in
                  emit (Called addr (db.SetGlobalMergeFunction in_))) w1
              = Fatal) as Hloop.
    { induction own as [|addr own IH]; intros w1 Hself Htrace.
      - cbn [app for_each]. unfold bind at 1. unfold bind at 1, the_world at 1.
        rewrite decide_False by (rewrite Hself; exact Hpeer).
        unfold bind at 1, must_dial at 1. unfold bind at 1, the_world at 1.
        rewrite Htrace, Hdial. reflexivity.
      - apply Forall_cons in Hown as [-> Hown].
        cbn [app for_each]. unfold bind at 1. unfold bind at 1, the_world at 1.
        rewrite decide_True by (symmetry; exact Hself). unfold put_self at 1.
        rewrite IH; [reflexivity | exact Hown | exact Hself | exact Htrace]. }
    rewrite Hloop; reflexivity.
Qed.

(** X20. A node that arrives by [AddNode] loses its child list. A request
    without a node is a nil dereference. On a running server, for a node
    whose location the server owns: the handler appends a node with the
    location, parent, key and value of the one it was given and no children,
    and answers without error; [GetNode] on the same server for that
    location then returns the node with these four fields and no children,
    whatever children the node came with. [Size] is one more and nothing is
    sent to a peer. *)
Theorem AddNode_then_GetNode node w :
  AddNode {| db.AddNodeRequest.Node := None |} w = Panic
  ∧ (storage.reachable (store w) →
     Locate E (indexingService w) (KeyHash E (db.Location node))
     = Self (self w) →
     ∃ w',
       AddNode {| db.AddNodeRequest.Node := Some node |} w
       = Done ((Some db.mkEmpty, None), w')
       ∧ storage.Nodes (store w')
         = storage.Nodes (store w)
           ++ [storage.mkNode (db.Location node) (db.Dep node) []
                 (db.Key node) (db.Value node)]
       ∧ GetNode E {| db.GetNodeRequest.Location := db.Location node |} w'
         = Done ((Some {| db.Location := db.Location node;
                          db.Dep := db.Dep node;
                          db.Key := db.Key node;
                          db.Value := db.Value node;
                          db.Children := [] |}, None), w')
       ∧ storage.Size (store w') = int (storage.Size (store w) + 1)
       ∧ trace w' = trace w).
Proof.
  split; [reflexivity|]. intros _ Hown. eexists. split.
  - unfold AddNode, bind, the_world, lift, put_store, ret. cbn. reflexivity.
  - split; [reflexivity|]. split; [|split; reflexivity].
    unfold GetNode, bind, the_world, lift, ret.
    cbn [indexingService self db.GetNodeRequest.Location store].
    rewrite decide_True by exact Hown.
    destruct (newNode_resolves (store w) (db.Location node) (db.Dep node)
                (db.Key node) (db.Value node)) as (i & Hg & Hn).
    rewrite Hg. cbn [storage.deref]. rewrite Hn. reflexivity.
Qed.

End MergeNames.

Section LocalSet.

Import server.

Variable E : Env.

Implicit Types (w : World).

Abbreviation written := (server.written E) (only parsing).
Abbreviation written_at := (server.written_at E) (only parsing).

(** [Set] on the owner of the key, from the point after [store.Set]. *)
Lemma Set_local in_ w :
  LocateKey E (indexingService w) (db.SetRequest.Key in_) = Self (self w) →
  Set_ E in_ w
  = (let* early :=
       (if decide (db.SetRequest.Dep in_ ≠ 0)
        then resolve_conflict E in_ (written_at in_ w) else ret None) in
     match early with
     | Some e =>
         ret (Some {| db.SetResponse.Location := written_at in_ w |}, Some e)
     | None =>
         let* _ := split_if_over E in
         ret (Some {| db.SetResponse.Location := written_at in_ w |}, None)
     end) (written in_ w).
Proof.
  intros Hown. unfold Set_, bind at 1, the_world at 1.
  rewrite decide_True by exact Hown.
  unfold bind at 1, emit at 1. unfold storage.Set_.
  unfold bind at 1, put_store at 1. reflexivity.
Qed.

Lemma split_if_over_idle w :
  ¬ (storage.Size (store w) > Threshold (self w)
     ∧ (length (AvailableServers (self w)) > 0)%nat) →
  split_if_over E w = Done (tt, w).
Proof.
  intros H. unfold split_if_over, bind, the_world, ret.
  rewrite decide_False by exact H. reflexivity.
Qed.

(** X21. A write under the root is not linked. On a running server that
    owns the key, [Set] with [dep = 0], with no split due after the write,
    answers with the location it drew and no error. It appends one node to
    the store, with that location, the parent 0, the key and value of the
    request and no children, records its slot under the location, so that
    [GetNode] of the store finds it, and adds one to [Size]. It does
    nothing else: the slots that were there, the child list of the root
    among them, are as before ([AddChild] is not run), the draw is the only
    outside event (no merge function is invoked), and the table of ranges
    and the receiver are untouched. *)
Theorem Set_under_root in_ w :
  let key := db.SetRequest.Key in_ in
  let loc := storage.fresh_location (hash32 E) key (rand_Uint32 E (trace w)) in
  let slot := length (storage.Nodes (store w)) in
  storage.reachable (store w) →
  LocateKey E (indexingService w) key = Self (self w) →
  db.SetRequest.Dep in_ = 0 →
  ¬ (int (storage.Size (store w) + 1) > Threshold (self w)
     ∧ (length (AvailableServers (self w)) > 0)%nat) →
  ∃ w',
    Set_ E in_ w
    = Done ((Some {| db.SetResponse.Location := loc |}, None), w')
    ∧ storage.Nodes (store w')
      = storage.Nodes (store w)
        ++ [storage.mkNode loc 0 [] key (db.SetRequest.Value in_)]
    ∧ storage.MemLocation (store w')
      = <[loc := slot]> (storage.MemLocation (store w))
    ∧ storage.GetNode (store w') loc = Done (Some slot)
    ∧ storage.Size (store w') = int (storage.Size (store w) + 1)
    ∧ trace w' = trace w ++ [Drew]
    ∧ indexingService w' = indexingService w
    ∧ self w' = self w.
Proof.
  intros key loc slot _ Hown Hdep Hidle. exists (written in_ w).
  assert (storage.Nodes (store (written in_ w))
          = storage.Nodes (store w)
            ++ [storage.mkNode loc 0 [] key (db.SetRequest.Value in_)])
    as Hnodes.
  { cbn. rewrite Hdep. reflexivity. }
  assert (storage.MemLocation (store (written in_ w))
          = <[loc := slot]> (storage.MemLocation (store w))) as Hmap.
  { cbn. rewrite length_app. cbn [length].
    replace (length (storage.Nodes (store w)) + 1 - 1)%nat with slot
      by (unfold slot; lia).
    reflexivity. }
  split; [|split; [exact Hnodes|split; [exact Hmap|split; [|repeat split]]]].
  - rewrite (Set_local in_ w Hown). unfold bind at 1.
    rewrite decide_False by (intros H; apply H, Hdep).
    unfold ret at 1. unfold bind at 1.
    rewrite (split_if_over_idle (written in_ w)) by exact Hidle. reflexivity.
  - unfold storage.GetNode. rewrite Hmap, Hnodes, lookup_insert_eq.
    rewrite decide_True; [reflexivity|]. rewrite length_app. cbn. unfold slot. lia.
Qed.

(** X22. [Set] under a parent that this server owns but does not store gives
    no answer: when the key and the location [dep] (not 0, and not the
    location just drawn) both belong to this server and the store has no
    entry for [dep], the run of the handler ends in a panic. *)
Theorem Set_unknown_parent_panics in_ w :
  let dep := db.SetRequest.Dep in_ in
  LocateKey E (indexingService w) (db.SetRequest.Key in_) = Self (self w) →
  dep ≠ 0 →
  Locate E (indexingService w) (KeyHash E dep) = Self (self w) →
  storage.MemLocation (store w) !! dep = None →
  dep ≠ written_at in_ w →
  Set_ E in_ w = Panic.
Proof.
  intros dep Hown Hdep Hparent Hnone Hne.
  rewrite (Set_local in_ w Hown). unfold bind at 1.
  rewrite decide_True by exact Hdep.
  unfold resolve_conflict, bind at 1.
  unfold AddChild, bind at 1, the_world at 1.
  cbn [db.AddChildRequest.Location db.AddChildRequest.Child
       indexingService self written with_store logged].
  fold dep. rewrite decide_True by exact Hparent.
  unfold bind at 1, lift at 1. cbn [store].
  rewrite AddChild_unknown; [reflexivity|].
  cbn. rewrite lookup_insert_ne by (fold (written_at in_ w); congruence).
  exact Hnone.
Qed.

(** [Set] on the owner of the key, with a parent, from the answer of
    [AddChild] on, when the parent has at most one child or no merge
    function is named for it. *)
Lemma Set_after_link in_ w r w2 :
  LocateKey E (indexingService w) (db.SetRequest.Key in_) = Self (self w) →
  db.SetRequest.Dep in_ ≠ 0 →
  AddChild E {| db.AddChildRequest.Location := db.SetRequest.Dep in_;
                db.AddChildRequest.Child := written_at in_ w |}
    (written in_ w) = Done (r, w2) →
  (∀ parent, r.1 = Some parent →
     (length (db.Children parent) ≤ 1)%nat
     ∨ match mergeFunction (self w2) !! db.SetRequest.Dep in_ with
       | Some merge => merge
       | None => globalMergeFunction (self w2)
       end = "") →
  Set_ E in_ w
  = match r.1 with
    | None => Panic
    | Some _ =>
        match split_if_over E w2 with
        | Done (_, w3) =>
            Done ((Some {| db.SetResponse.Location := written_at in_ w |},
                   None), w3)
        | Panic => Panic
        | Fatal => Fatal
        end
    end.
Proof.
  intros Hown Hdep Hadd Hquiet. rewrite (Set_local in_ w Hown). unfold bind at 1.
  rewrite decide_True by exact Hdep.
  unfold resolve_conflict, bind at 1. rewrite Hadd.
  destruct r.1 as [parent|]; [|reflexivity].
  destruct (decide (length (db.Children parent) > 1)%nat) as [Hgt|Hle].
  - destruct (Hquiet parent eq_refl) as [Hle|Hname]; [lia|].
    unfold bind at 1, the_world at 1. rewrite Hname.
    rewrite decide_False by (cbn; lia).
    unfold ret at 1. unfold bind at 1.
    destruct (split_if_over E w2) as [[[] w3]| |]; reflexivity.
  - unfold ret at 1. unfold bind at 1.
    destruct (split_if_over E w2) as [[[] w3]| |]; reflexivity.
Qed.

(** X23. [Set] under a parent that another server owns. When the dial to
    that server fails, the error is dropped with the empty parent it comes
    with: [Set] answers with the location and no error although no link to
    the child was recorded. When the dial succeeds and the peer answers
    without a node, the handler panics on the nil parent. When the peer
    answers with a parent of at most one child, [Set] answers with the
    location, whatever error came with the parent. In each case that
    answers, no merge function is invoked. *)
Theorem Set_remote_parent in_ w :
  let dep := db.SetRequest.Dep in_ in
  let owner := Locate E (indexingService w) (KeyHash E dep) in
  let w1 := written in_ w in
  let link := db.AddChild {| db.AddChildRequest.Location := dep;
                             db.AddChildRequest.Child := written_at in_ w |} in
  let ok := (Some {| db.SetResponse.Location := written_at in_ w |}, None) in
  LocateKey E (indexingService w) (db.SetRequest.Key in_) = Self (self w) →
  dep ≠ 0 → owner ≠ Self (self w) →
  ¬ (storage.Size (store w1) > Threshold (self w)
     ∧ (length (AvailableServers (self w)) > 0)%nat) →
  (∀ e, Dial E (trace w1) owner = Some e →
        Set_ E in_ w = Done (ok, dialed owner w1))
  ∧ (Dial E (trace w1) owner = None →
     (answer E owner link w1).1 = None → Set_ E in_ w = Panic)
  ∧ (∀ parent err,
       Dial E (trace w1) owner = None →
       answer E owner link w1 = (Some parent, err) →
       (length (db.Children parent) ≤ 1)%nat →
       Set_ E in_ w = Done (ok, called owner link w1)).
Proof.
  intros dep owner w1 link ok Hown Hdep Hremote Hidle.
  assert (AddChild E {| db.AddChildRequest.Location := dep;
                        db.AddChildRequest.Child := written_at in_ w |} w1
          = forward E owner link db.Node0 w1) as Hfwd.
  { unfold AddChild, bind at 1, the_world at 1.
    cbn [db.AddChildRequest.Location].
    change (indexingService w1) with (indexingService w).
    change (self w1) with (self w). fold owner.
    rewrite decide_False by exact Hremote. reflexivity. }
  split; [|split].
  - intros e Hd.
    rewrite (forward_dial_error E owner link db.Node0 w1 e Hd) in Hfwd.
    rewrite (Set_after_link in_ w _ _ Hown Hdep Hfwd).
    + cbn [fst]. rewrite split_if_over_idle by exact Hidle. reflexivity.
    + intros parent Hp. inversion Hp; subst. left. cbn. lia.
  - intros Hd Hnil.
    rewrite (forward_answer E owner link db.Node0 w1 Hd) in Hfwd.
    rewrite (Set_after_link in_ w _ _ Hown Hdep Hfwd).
    + revert Hnil. destruct (answer E owner link w1) as [[p'|] err']; cbn;
        [discriminate | reflexivity].
    + revert Hnil. destruct (answer E owner link w1) as [[p'|] err']; cbn;
        [discriminate | intros _ parent Hp; discriminate].
  - intros parent err Hd Hans Hle.
    rewrite (forward_answer E owner link db.Node0 w1 Hd) in Hfwd.
    rewrite (Set_after_link in_ w _ _ Hown Hdep Hfwd).
    + revert Hans. destruct (answer E owner link w1) as [p' err'].
      intros H. inversion H; subst. cbn [fst].
      rewrite split_if_over_idle by exact Hidle. reflexivity.
    + revert Hans. destruct (answer E owner link w1) as [p' err'].
      intros H parent' Hp. inversion H; subst. cbn [fst] in Hp.
      inversion Hp; subst. left. exact Hle.
Qed.

End LocalSet.

Section LocalSetFork.

Import server.

Variable E : Env.

Implicit Types (w : World).

Abbreviation written := (server.written E) (only parsing).
Abbreviation written_at := (server.written_at E) (only parsing).

(** X24. A fork without a merge function: on the owner of the key, when
    neither the table nor the global name gives a merge function for the
    parent, [Set] ends, with no split due, in the very world that [AddChild]
    left, answering with the location and no error, however many children
    the parent has by now: no action is invoked, no child is removed, and
    the error that [AddChild] may have returned is dropped. *)
Theorem Set_fork_without_merge in_ w parent perr w2 :
  let dep := db.SetRequest.Dep in_ in
  LocateKey E (indexingService w) (db.SetRequest.Key in_) = Self (self w) →
  dep ≠ 0 →
  mergeFunction (self w) !! dep = None → globalMergeFunction (self w) = "" →
  AddChild E {| db.AddChildRequest.Location := dep;
                db.AddChildRequest.Child := written_at in_ w |} (written in_ w)
  = Done ((Some parent, perr), w2) →
  ¬ (storage.Size (store w2) > Threshold (self w2)
     ∧ (length (AvailableServers (self w2)) > 0)%nat) →
  Set_ E in_ w
  = Done ((Some {| db.SetResponse.Location := written_at in_ w |}, None), w2).
Proof.
  intros dep Hown Hdep Htable Hglobal Hadd Hidle.
  destruct (AddChild_keeps_nodes E _ _ _ _ Hadd) as (Hself & _).
  rewrite (Set_after_link E in_ w _ _ Hown Hdep Hadd).
  - cbn [fst]. rewrite (split_if_over_idle E _ Hidle). reflexivity.
  - intros p _. right. rewrite Hself. cbn [self server.written with_store logged].
    fold dep. rewrite Htable. exact Hglobal.
Qed.

End LocalSetFork.

Section SplitGivesUp.

Import server.

Variable E : Env.

Implicit Types (w : World).

(** X25. When [splitRange] gives up. If the range of this server is a single
    hash ([left = right], which is also what a server without a range
    gets), or if no server is available, nothing happens at all. If the peer
    that was drawn, another server than this one, answers the request for
    its lock with [success = false],
    [splitRange] returns after the draw, the dial and that one call: the
    store, the table of ranges and the receiver are as before, no node was
    sent, and no request to release the lock follows. *)
Theorem splitRange_gives_up w :
  let range := Range E (indexingService w) (Self (self w)) in
  let number := Z.of_nat (length (AvailableServers (self w))) in
  let i := rand_Intn E (trace w) number in
  (range.1 = range.2 → splitRange E w = Done (tt, w))
  ∧ (AvailableServers (self w) = [] → splitRange E w = Done (tt, w))
  ∧ (∀ peer,
       peer ≠ Self (self w) →
       range.1 ≠ range.2 → 0 <= i →
       AvailableServers (self w) !! Z.to_nat i = Some peer →
       Dial E (trace w ++ [Drew]) peer = None →
       client E ((trace w ++ [Drew]) ++ [Dialed peer]) peer (lock_call true)
       = (Some {| db.SetIndexingLockResponse.Success := false |}, None) →
       splitRange E w
       = Done (tt, logged [Drew; Dialed peer; Called peer (lock_call true)] w)).
Proof.
  intros range number i. split; [|split].
  - intros Heq. unfold splitRange, bind at 1, the_world at 1. fold range.
    rewrite decide_True by exact Heq. reflexivity.
  - intros Hnil. unfold splitRange, bind at 1, the_world at 1. fold range.
    destruct (decide (range.1 = range.2)); [reflexivity|].
    rewrite Hnil. cbn [length]. rewrite decide_True by reflexivity.
    reflexivity.
  - intros peer _ Hne Hi Hpeer Hdial Hlock.
    unfold splitRange, bind at 1, the_world at 1. fold range.
    rewrite decide_False by exact Hne. fold number.
    rewrite decide_False.
    2:{ pose proof (lookup_lt_Some _ _ _ Hpeer). unfold number. lia. }
    fold i. unfold bind at 1, emit at 1.
    rewrite decide_True by exact Hi. rewrite Hpeer.
    unfold bind at 1, must_dial at 1.
    unfold bind at 1, the_world at 1. cbn [trace]. rewrite Hdial.
    unfold bind at 1, emit at 1. unfold ret at 1.
    unfold bind at 1, must_call at 1.
    unfold bind at 1, the_world at 1. cbn [trace].
    fold (lock_call true). rewrite Hlock.
    unfold bind at 1, emit at 1. cbn [snd fst]. unfold ret at 1.
    cbn [db.SetIndexingLockResponse.Success negb].
    unfold ret, logged. cbn. rewrite <- !app_assoc. reflexivity.
Qed.

End SplitGivesUp.

Section SplitRuns.

Import server.

Variable E : Env.

Implicit Types (w : World).

(** The peers answer every dial and every call without error. *)
Hypothesis dials : ∀ tr address, Dial E tr address = None.
Hypothesis calls : ∀ tr address c, (client E tr address c).2 = None.

Lemma must_dial_ok address w :
  must_dial E address w = Done (tt, logged [Dialed address] w).
Proof.
  unfold must_dial, bind, the_world, emit, ret. rewrite dials. reflexivity.
Qed.

Lemma must_call_ok address c w :
  must_call E address c w
  = Done ((client E (trace w) address c).1, logged [Called address c] w).
Proof.
  unfold must_call, bind, the_world, emit, ret. cbn [trace].
  pose proof (calls (trace w) address c) as H.
  destruct (client E (trace w) address c) as [r err]. cbn in *. subst err.
  reflexivity.
Qed.

Lemma send_each peer (moved : list db.Node) w :
  for_each moved (λ node,
    let* _ := must_call E peer
      (db.AddNode {| db.AddNodeRequest.Node := Some node |}) in
    ret tt) w
  = Done (tt, foldl (send_node peer) w moved).
Proof.
  apply for_each_fold. intros node w0. unfold bind.
  rewrite must_call_ok. reflexivity.
Qed.

Lemma transfer_each peer (moved : list db.Node) w :
  for_each moved (λ node,
    let* w := the_world in
    match mergeFunction (self w) !! db.Location node with
    | Some f =>
        let* _ := must_call E peer
          (db.SetMergeFunction
             {| db.SetMergeFunctionRequest.Location := db.Location node;
                db.SetMergeFunctionRequest.Name := f |}) in
        let* w := the_world in
        put_self (set_mergeFunction
                    (delete (db.Location node) (mergeFunction (self w))) (self w))
    | None => ret tt
    end) w
  = Done (tt, foldl (transfer_merge peer) w moved).
Proof.
  apply for_each_fold. intros node w0. unfold bind at 1, the_world at 1.
  unfold transfer_merge.
  destruct (mergeFunction (self w0) !! db.Location node) as [f|]; [|reflexivity].
  unfold bind at 1. rewrite must_call_ok. reflexivity.
Qed.

Lemma announce_each peer request (servers : list string) w :
  for_each servers (λ addr,
    let* w := the_world in
    if decide (addr = Self (self w)) then
      let* r := Split E request in
      match r.2 with Some _ => fatal | None => ret tt end
    else if decide (addr = peer) then
      let* _ := must_call E peer (db.Split request) in ret tt
    else
      let* _ := must_dial E addr in
      let* _ := must_call E addr (db.Split request) in ret tt) w
  = Done (tt, foldl (announce E peer request) w servers).
Proof.
  apply for_each_fold. intros addr w0. unfold bind at 1, the_world at 1.
  unfold announce.
  destruct (decide (addr = Self (self w0))); [reflexivity|].
  destruct (decide (addr = peer)).
  - unfold bind. rewrite must_call_ok. reflexivity.
  - unfold bind. rewrite must_dial_ok, must_call_ok. reflexivity.
Qed.

Lemma drop_each (moved : list db.Node) w :
  for_each moved (λ node,
    let* w := the_world in
    put_store (storage.RemoveNode (store w) (db.Location node))) w
  = Done (tt, foldl drop_node w moved).
Proof. apply for_each_fold. intros node w0. reflexivity. Qed.

(** A split that meets no error, step by step. *)
Lemma splitRange_run w peer plan :
  let range := Range E (indexingService w) (Self (self w)) in
  let mid := split_mid range.1 range.2 in
  let number := Z.of_nat (length (AvailableServers (self w))) in
  let i := rand_Intn E (trace w) number in
  range.1 ≠ range.2 → 0 <= i →
  AvailableServers (self w) !! Z.to_nat i = Some peer →
  (∀ tr, (client E tr peer (lock_call true)).1
         = Some {| db.SetIndexingLockResponse.Success := true |}) →
  split_plan (KeyHash E) mid (Self (self w)) peer (storage.Nodes (store w))
  = Done plan →
  splitRange E w
  = Done (tt, after_split E peer (split_request range.1 range.2 mid plan)
                (results plan) w).
Proof.
  intros range mid number i Hne Hi Hpeer Hlock Hplan.
  unfold splitRange, bind at 1, the_world at 1. fold range.
  rewrite decide_False by exact Hne. fold number.
  rewrite decide_False.
  2:{ pose proof (lookup_lt_Some _ _ _ Hpeer). unfold number. lia. }
  fold i. unfold bind at 1, emit at 1.
  rewrite decide_True by exact Hi. rewrite Hpeer.
  unfold bind at 1. rewrite must_dial_ok.
  unfold bind at 1. rewrite must_call_ok. fold (lock_call true).
  rewrite Hlock. cbn [db.SetIndexingLockResponse.Success negb].
  fold mid. unfold bind at 1, lift at 1. rewrite Hplan.
  unfold bind at 1. rewrite send_each.
  unfold bind at 1. rewrite transfer_each.
  unfold bind at 1.
  fold (split_request range.1 range.2 mid plan).
  rewrite announce_each.
  unfold bind at 1. rewrite drop_each.
  unfold bind at 1. rewrite must_call_ok. reflexivity.
Qed.

End SplitRuns.

Section Sweep.

Import storage.

Variable P : Node → Prop.
Context `{∀ n, Decision (P n)}.

Implicit Types (n m : Node) (l : list Node).

Abbreviation swept := (server.swept P) (only parsing).

Lemma list_find_after (Q : Node → Prop) `{∀ n, Decision (Q n)} l1 n l2 :
  Forall (λ m, ¬ Q m) l1 → Q n →
  list_find Q (l1 ++ n :: l2) = Some (length l1, n).
Proof.
  intros Hnot Hn. apply list_find_Some. split; [|split].
  - rewrite lookup_app_r by lia. rewrite Nat.sub_diag. reflexivity.
  - exact Hn.
  - intros j y Hj Hlt. rewrite lookup_app_l in Hj by exact Hlt.
    rewrite Forall_lookup in Hnot. eapply Hnot, Hj.
Qed.

(** [RemoveNode] for the locations of the nodes of [todo] that are in [P],
    one after the other, turns each of these nodes into the empty node and
    takes one from [Size] each time; the slots that were swept before are in
    the way of none of them. *)
Lemma sweep todo : ∀ done M sz,
  Forall (λ n, valid n ↔ Location n ≠ 0) (done ++ todo) →
  (∀ n, P n → valid n) →
  (∀ n m, valid n → valid m → Location n = Location m → P n → P m) →
  foldl RemoveNode
    {| Nodes := (swept <$> done) ++ todo; MemLocation := M; Size := sz |}
    (Location <$> filter P todo)
  = {| Nodes := swept <$> (done ++ todo);
       MemLocation := M;
       Size := foldl (λ z _, int (z - 1)) sz (filter P todo) |}.
Proof.
  induction todo as [|n todo IH]; intros done M sz Htidy HP Hloc.
  - cbn. rewrite !app_nil_r. reflexivity.
  - assert (Forall (λ n0, valid n0 ↔ Location n0 ≠ 0) ((done ++ [n]) ++ todo))
      as Htidy' by (rewrite <- app_assoc; exact Htidy).
    replace (done ++ n :: todo) with ((done ++ [n]) ++ todo)
      by (rewrite <- app_assoc; reflexivity).
    rewrite filter_cons. destruct (decide (P n)) as [Hn|Hn].
    + cbn [fmap list_fmap foldl].
      assert (valid n ∧ Location n ≠ 0) as [Hv Hnz].
      { pose proof (HP n Hn) as Hv. split; [exact Hv|].
        rewrite Forall_app, Forall_cons in Htidy. apply Htidy, Hv. }
      rewrite (RemoveNode_found _ _ (length (swept <$> done)) n).
      * cbn [Nodes MemLocation Size].
        rewrite insert_app_r_alt by lia. rewrite Nat.sub_diag.
        cbn [insert list_insert].
        rewrite <- (IH (done ++ [n]) M (int (sz - 1)) Htidy' HP Hloc).
        rewrite fmap_app. cbn [fmap list_fmap]. unfold server.swept at 3.
        rewrite decide_True by exact Hn. rewrite <- app_assoc. reflexivity.
      * cbn [Nodes]. apply list_find_after; [|reflexivity].
        apply Forall_fmap, Forall_forall. intros m Hm. cbn.
        unfold server.swept. destruct (decide (P m)) as [Hpm|Hpm].
        -- cbn. congruence.
        -- intros Heq. destruct (decide (valid m)) as [Hvm|Hvm].
           ++ apply Hpm. apply (Hloc n m Hv Hvm); [congruence | exact Hn].
           ++ rewrite Forall_app in Htidy. destruct Htidy as [Hd _].
              rewrite Forall_forall in Hd. apply Hvm, (Hd m Hm). congruence.
    + rewrite <- (IH (done ++ [n]) M sz Htidy' HP Hloc).
      rewrite fmap_app. cbn [fmap list_fmap]. unfold server.swept at 3.
      rewrite decide_False by exact Hn. rewrite <- app_assoc. reflexivity.
Qed.

Lemma count_down {A} (l : list A) : ∀ sz,
  Z.of_nat (length l) <= sz < 2 ^ 63 →
  foldl (λ z _, int (z - 1)) sz l = sz - Z.of_nat (length l).
Proof.
  induction l as [|x l IH]; intros sz Hsz; cbn [foldl length] in *; [lia|].
  rewrite int_small by (pow2; lia). rewrite IH by lia. lia.
Qed.

Lemma swept_in n : P n → swept n = tombstone.
Proof. intros Hn. unfold server.swept. apply decide_True, Hn. Qed.

Lemma swept_out n : ¬ P n → swept n = n.
Proof. intros Hn. unfold server.swept. apply decide_False, Hn. Qed.

Lemma count_valid_swept l :
  (∀ n, P n → valid n) →
  (count_valid (swept <$> l) + length (filter P l) = count_valid l)%nat.
Proof.
  intros HP. induction l as [|n l IH]; [reflexivity|].
  rewrite fmap_cons, filter_cons. destruct (decide (P n)) as [Hn|Hn].
  - rewrite (swept_in n Hn), !count_valid_cons.
    rewrite (decide_False (P := valid tombstone)) by (unfold valid; cbn; tauto).
    rewrite (decide_True (P := valid n)) by (apply HP, Hn). cbn [length]. lia.
  - rewrite (swept_out n Hn), !count_valid_cons. lia.
Qed.

End Sweep.

Section SplitEffects.

Import server.

Variable E : Env.

Implicit Types (w : World).

Lemma foldl_keeps {A B} (f : World → A → World) (g : World → B) (l : list A) :
  (∀ w x, g (f w x) = g w) → ∀ w, g (foldl f w l) = g w.
Proof.
  intros Hf. induction l as [|x l IH]; intros w; [reflexivity|].
  cbn [foldl]. rewrite IH. apply Hf.
Qed.

Lemma transfer_keeps {B} (g : World → B) peer :
  (∀ w s, g (with_self s w) = g w) → (∀ w es, g (logged es w) = g w) →
  ∀ w node, g (transfer_merge peer w node) = g w.
Proof.
  intros Hs Hl w node. unfold transfer_merge.
  destruct (mergeFunction (self w) !! db.Location node); [|reflexivity].
  rewrite Hs. apply Hl.
Qed.

Lemma announce_store peer request w addr :
  store (announce E peer request w addr) = store w.
Proof. unfold announce. repeat destruct (decide _); reflexivity. Qed.

Lemma drop_each_store (moved : list db.Node) : ∀ w,
  store (foldl drop_node w moved)
  = foldl storage.RemoveNode (store w) (db.Location <$> moved).
Proof.
  induction moved as [|node moved IH]; intros w; [reflexivity|].
  cbn [foldl fmap list_fmap]. rewrite IH. reflexivity.
Qed.

Lemma after_split_store peer request moved w :
  store (after_split E peer request moved w)
  = foldl storage.RemoveNode (store w) (db.Location <$> moved).
Proof.
  unfold after_split. cbn [store logged]. rewrite drop_each_store.
  rewrite (foldl_keeps _ store) by apply announce_store.
  rewrite (foldl_keeps _ store)
    by (apply transfer_keeps; reflexivity).
  rewrite (foldl_keeps _ store) by reflexivity. reflexivity.
Qed.

Lemma moves_valid KeyHash mid nodes n :
  moves KeyHash mid nodes n → storage.valid n.
Proof. intros [Hv _]. exact Hv. Qed.

Lemma moves_by_location KeyHash mid nodes n m :
  storage.valid n → storage.valid m →
  storage.Location n = storage.Location m →
  moves KeyHash mid nodes n → moves KeyHash mid nodes m.
Proof.
  unfold moves, node_hash. intros _ Hm Heq [_ Hside]. rewrite <- Heq.
  split; assumption.
Qed.

(** The nodes that the plan names are the nodes that move. *)
Lemma split_plan_moves KeyHash mid self_addr peer nodes :
  (∀ n, nodes !! 0%nat = Some n → storage.Key n = "") →
  Z.of_nat (length nodes) < 2 ^ 63 →
  ∃ plan,
    split_plan KeyHash mid self_addr peer nodes = Done plan
    ∧ results plan = to_db <$> filter (moves KeyHash mid nodes) nodes.
Proof.
  intros H0 Hlen.
  destruct (split_plan_filter KeyHash mid self_addr peer nodes H0 Hlen)
    as [Hlow Hhigh].
  set (G := length (filter (λ n, storage.valid n ∧ node_hash KeyHash n > mid)
                      nodes)) in *.
  set (L := length (filter (λ n, storage.valid n ∧ node_hash KeyHash n <= mid)
                      nodes)) in *.
  destruct (decide (L ≤ G)%nat) as [Hle|Hgt].
  - eexists. split; [apply Hlow; lia|]. cbn [results]. f_equal.
    apply list_filter_iff. intros n. unfold moves. fold G L.
    rewrite decide_True by exact Hle. reflexivity.
  - eexists. split; [apply Hhigh; lia|]. cbn [results]. f_equal.
    apply list_filter_iff. intros n. unfold moves. fold G L.
    rewrite decide_False by exact Hgt. reflexivity.
Qed.

Lemma to_db_locations (l : list storage.Node) :
  db.Location <$> (to_db <$> l) = storage.Location <$> l.
Proof. rewrite <- list_fmap_compose. reflexivity. Qed.

Hypothesis dials : ∀ tr address, Dial E tr address = None.
Hypothesis calls : ∀ tr address c, (client E tr address c).2 = None.

(** X26. The store after a split that meets no error. In a server whose
    range has more than one hash, when the peer that is drawn is another
    server and grants its lock and every dial and call succeeds, on a store of a running server in
    which a node has a key exactly when its location is not 0: [splitRange]
    ends, and it leaves the empty node in the slot of each node it moved
    (the valid nodes of the side the plan picked) and every other slot as it
    was. No node of the moved side is left, the map of locations is
    untouched, and if [Size] was the number of valid nodes it still is,
    less by the number of nodes moved. *)
Theorem split_clears_moved_half w peer :
  let range := Range E (indexingService w) (Self (self w)) in
  let mid := split_mid range.1 range.2 in
  let number := Z.of_nat (length (AvailableServers (self w))) in
  let i := rand_Intn E (trace w) number in
  let nodes := storage.Nodes (store w) in
  let P := moves (KeyHash E) mid nodes in
  peer ≠ Self (self w) →
  range.1 ≠ range.2 → 0 <= i →
  AvailableServers (self w) !! Z.to_nat i = Some peer →
  (∀ tr, (client E tr peer (lock_call true)).1
         = Some {| db.SetIndexingLockResponse.Success := true |}) →
  storage.reachable (store w) →
  Z.of_nat (length nodes) < 2 ^ 63 →
  tidy (store w) →
  ∃ w',
    splitRange E w = Done (tt, w')
    ∧ storage.Nodes (store w') = swept P <$> nodes
    ∧ storage.MemLocation (store w') = storage.MemLocation (store w)
    ∧ Forall (λ n, ¬ P n) (storage.Nodes (store w'))
    ∧ (storage.size_ok (store w) →
       storage.Size (store w')
       = storage.Size (store w) - Z.of_nat (length (filter P nodes))
       ∧ storage.size_ok (store w')).
Proof.
  intros range mid number i nodes P _ Hne Hi Hpeer Hlock Hreach Hlen Htidy.
  destruct (split_plan_moves (KeyHash E) mid (Self (self w)) peer nodes)
    as (plan & Hplan & Hres).
  { apply rooted_slot0, reachable_rooted, Hreach. }
  { exact Hlen. }
  eexists. split.
  { exact (splitRange_run E dials calls w peer plan Hne Hi Hpeer Hlock Hplan). }
  rewrite after_split_store, Hres, to_db_locations. fold P.
  pose proof (sweep P nodes [] (storage.MemLocation (store w))
                (storage.Size (store w)) Htidy
                (moves_valid _ _ _) (moves_by_location _ _ _)) as Hsweep.
  cbn [fmap list_fmap app] in Hsweep.
  replace {| storage.Nodes := nodes;
             storage.MemLocation := storage.MemLocation (store w);
             storage.Size := storage.Size (store w) |}
    with (store w) in Hsweep
    by (subst nodes; destruct (store w); reflexivity).
  rewrite !Hsweep. cbn [storage.Nodes storage.MemLocation storage.Size].
  split; [reflexivity|]. split; [reflexivity|]. split.
  - apply Forall_fmap, Forall_forall. intros n _. cbn.
    destruct (decide (P n)) as [Hn|Hn].
    + rewrite (swept_in P n Hn). intros [Hv _]. apply Hv. reflexivity.
    + rewrite (swept_out P n Hn). exact Hn.
  - intros Hsize. unfold storage.size_ok in *.
    pose proof (count_valid_swept P nodes (moves_valid _ _ _)) as Hcount.
    pose proof (count_valid_le_length nodes) as Hle.
    fold nodes in Hsize.
    rewrite count_down by (rewrite Hsize; lia).
    cbn [storage.Nodes storage.Size]. split; [reflexivity|]. lia.
Qed.

End SplitEffects.

Section SplitTrace.

Import server.

Variable E : Env.

Implicit Types (w : World).

Lemma transfer_table peer (moved : list db.Node) : ∀ w l,
  mergeFunction (self (foldl (transfer_merge peer) w moved)) !! l
  = if decide (l ∈ db.Location <$> moved) then None
    else mergeFunction (self w) !! l.
Proof.
  induction moved as [|node moved IH]; intros w l.
  - cbn. rewrite decide_False by apply not_elem_of_nil. reflexivity.
  - cbn [foldl fmap list_fmap]. rewrite IH.
    destruct (decide (l ∈ db.Location <$> moved)) as [Hin|Hin].
    + rewrite decide_True by (apply list_elem_of_further, Hin). reflexivity.
    + destruct (decide (l = db.Location node)) as [->|Hne].
      * rewrite decide_True by apply list_elem_of_here.
        unfold transfer_merge.
        destruct (mergeFunction (self w) !! db.Location node) eqn:Hl.
        -- cbn. apply lookup_delete_eq.
        -- exact Hl.
      * rewrite decide_False
          by (intros H; apply elem_of_cons in H as [?|?]; contradiction).
        unfold transfer_merge.
        destruct (mergeFunction (self w) !! db.Location node); [|reflexivity].
        cbn. apply lookup_delete_ne. congruence.
Qed.

Lemma announce_names peer request w addr :
  mergeFunction (self (announce E peer request w addr)) = mergeFunction (self w)
  ∧ globalMergeFunction (self (announce E peer request w addr))
    = globalMergeFunction (self w)
  ∧ Self (self (announce E peer request w addr)) = Self (self w).
Proof. unfold announce. repeat destruct (decide _); repeat split. Qed.

Lemma send_each_trace peer (moved : list db.Node) : ∀ w,
  trace (foldl (send_node peer) w moved)
  = trace w
    ++ ((λ node, Called peer
                   (db.AddNode {| db.AddNodeRequest.Node := Some node |}))
        <$> moved).
Proof.
  induction moved as [|node moved IH]; intros w.
  - cbn. rewrite app_nil_r. reflexivity.
  - cbn [foldl fmap list_fmap]. rewrite IH. cbn. rewrite <- app_assoc.
    reflexivity.
Qed.

Lemma transfer_each_trace peer (moved : list db.Node) : ∀ w,
  ∃ transfers,
    trace (foldl (transfer_merge peer) w moved) = trace w ++ transfers
    ∧ Forall (is_transfer peer) transfers.
Proof.
  induction moved as [|node moved IH]; intros w.
  - exists []. cbn. rewrite app_nil_r. split; [reflexivity | constructor].
  - cbn [foldl]. destruct (IH (transfer_merge peer w node)) as (ts & Ht & Hf).
    rewrite Ht. unfold transfer_merge.
    destruct (mergeFunction (self w) !! db.Location node) as [f|].
    + exists (transfer_call peer (db.Location node) f :: ts).
      cbn. rewrite <- app_assoc. split; [reflexivity|].
      constructor; [|exact Hf]. eexists _, _. reflexivity.
    + exists ts. split; [reflexivity | exact Hf].
Qed.

Lemma announce_each_trace peer request (servers : list string) : ∀ w,
  ∃ broadcast,
    trace (foldl (announce E peer request) w servers) = trace w ++ broadcast
    ∧ Forall (is_announce request) broadcast.
Proof.
  induction servers as [|addr servers IH]; intros w.
  - exists []. cbn. rewrite app_nil_r. split; [reflexivity | constructor].
  - cbn [foldl]. destruct (IH (announce E peer request w addr)) as (bs & Hb & Hf).
    rewrite Hb. unfold announce.
    destruct (decide (addr = Self (self w))).
    + exists bs. split; [reflexivity | exact Hf].
    + destruct (decide (addr = peer)) as [->|].
      * exists (Called peer (db.Split request) :: bs).
        cbn. rewrite <- app_assoc. split; [reflexivity|].
        constructor; [|exact Hf]. exists peer. right. reflexivity.
      * exists (Dialed addr :: Called addr (db.Split request) :: bs).
        cbn. rewrite <- !app_assoc. split; [reflexivity|].
        constructor; [exists addr; left; reflexivity|].
        constructor; [exists addr; right; reflexivity | exact Hf].
Qed.

Hypothesis dials : ∀ tr address, Dial E tr address = None.
Hypothesis calls : ∀ tr address c, (client E tr address c).2 = None.

(** X27. The merge functions after a split to another server that meets no
    error: whatever
    the store holds, the table of this server ends without an entry for the
    location of any node that moved and with every other entry as it was;
    the global name and the address of the server are untouched. *)
Theorem split_moves_merge_names w peer plan :
  let range := Range E (indexingService w) (Self (self w)) in
  let mid := split_mid range.1 range.2 in
  let number := Z.of_nat (length (AvailableServers (self w))) in
  let i := rand_Intn E (trace w) number in
  peer ≠ Self (self w) →
  range.1 ≠ range.2 → 0 <= i →
  AvailableServers (self w) !! Z.to_nat i = Some peer →
  (∀ tr, (client E tr peer (lock_call true)).1
         = Some {| db.SetIndexingLockResponse.Success := true |}) →
  split_plan (KeyHash E) mid (Self (self w)) peer (storage.Nodes (store w))
  = Done plan →
  ∃ w',
    splitRange E w = Done (tt, w')
    ∧ (∀ l, mergeFunction (self w') !! l
            = if decide (l ∈ db.Location <$> results plan) then None
              else mergeFunction (self w) !! l)
    ∧ globalMergeFunction (self w') = globalMergeFunction (self w)
    ∧ Self (self w') = Self (self w).
Proof.
  intros range mid number i _ Hne Hi Hpeer Hlock Hplan. eexists. split.
  { exact (splitRange_run E dials calls w peer plan Hne Hi Hpeer Hlock Hplan). }
  unfold after_split. cbn [self logged].
  rewrite !(foldl_keeps drop_node (λ w, self w)) by reflexivity.
  set (request := split_request range.1 range.2 mid plan).
  rewrite (foldl_keeps (announce E peer request) (λ w, mergeFunction (self w)))
    by (intros; apply announce_names).
  rewrite (foldl_keeps (announce E peer request)
             (λ w, globalMergeFunction (self w)))
    by (intros; apply announce_names).
  rewrite (foldl_keeps (announce E peer request) (λ w, Self (self w)))
    by (intros; apply announce_names).
  rewrite (foldl_keeps (transfer_merge peer) (λ w, globalMergeFunction (self w)))
    by (intros w0 node; unfold transfer_merge;
        destruct (mergeFunction (self w0) !! db.Location node); reflexivity).
  rewrite (foldl_keeps (transfer_merge peer) (λ w, Self (self w)))
    by (intros w0 node; unfold transfer_merge;
        destruct (mergeFunction (self w0) !! db.Location node); reflexivity).
  rewrite !(foldl_keeps (send_node peer) (λ w, self w)) by reflexivity.
  split; [|split; reflexivity].
  intros l. rewrite transfer_table.
  rewrite (foldl_keeps (send_node peer) (λ w, self w)) by reflexivity.
  reflexivity.
Qed.

(** X28. The order of a split to another server that meets no error, as the
    peers see it:
    after the draw, this server dials the peer and asks for its lock; it
    sends each node of the plan to the peer by [AddNode], once and in the
    order of the plan; only then come the calls that hand merge functions
    over, then the dials and [Split] calls of the broadcast, and the last
    event is the release of the lock. Nothing else is sent. *)
Theorem split_trace w peer plan :
  let range := Range E (indexingService w) (Self (self w)) in
  let mid := split_mid range.1 range.2 in
  let number := Z.of_nat (length (AvailableServers (self w))) in
  let i := rand_Intn E (trace w) number in
  let request := split_request range.1 range.2 mid plan in
  peer ≠ Self (self w) →
  range.1 ≠ range.2 → 0 <= i →
  AvailableServers (self w) !! Z.to_nat i = Some peer →
  (∀ tr, (client E tr peer (lock_call true)).1
         = Some {| db.SetIndexingLockResponse.Success := true |}) →
  split_plan (KeyHash E) mid (Self (self w)) peer (storage.Nodes (store w))
  = Done plan →
  ∃ w' transfers broadcast,
    splitRange E w = Done (tt, w')
    ∧ trace w'
      = trace w
        ++ [Drew; Dialed peer; Called peer (lock_call true)]
        ++ ((λ node, Called peer
                       (db.AddNode {| db.AddNodeRequest.Node := Some node |}))
            <$> results plan)
        ++ transfers ++ broadcast
        ++ [Called peer (lock_call false)]
    ∧ Forall (is_transfer peer) transfers
    ∧ Forall (is_announce request) broadcast.
Proof.
  intros range mid number i request _ Hne Hi Hpeer Hlock Hplan.
  pose proof (splitRange_run E dials calls w peer plan Hne Hi Hpeer Hlock Hplan)
    as Hrun.
  fold range mid request in Hrun. unfold after_split in Hrun.
  set (w0 := logged [Called peer (lock_call true)]
               (logged [Dialed peer] (logged [Drew] w))) in *.
  set (w1 := foldl (send_node peer) w0 (results plan)) in *.
  set (w2 := foldl (transfer_merge peer) w1 (results plan)) in *.
  destruct (transfer_each_trace peer (results plan) w1) as (ts & Hts & Hft).
  destruct (announce_each_trace peer request (Servers (self w0)) w2)
    as (bs & Hbs & Hfb).
  fold w2 in Hts.
  eexists _, ts, bs. split; [exact Hrun|]. split; [|split; assumption].
  cbn [trace logged]. rewrite (foldl_keeps drop_node trace) by reflexivity.
  rewrite Hbs, Hts. subst w1. rewrite send_each_trace. subst w0. cbn [trace logged].
  rewrite <- !app_assoc. reflexivity.
Qed.

End SplitTrace.


(** * The further properties at work on the scenarios *)

Ltac run := vm_compute; reflexivity.

Lemma mapstore_Set_index_witness :
  (mapstore.Set_ scenario.maps_built {[ "c" := "3" ]} 0 1 0).1 = 2
  ∧ mapstore.index
      (mapstore.Set_ scenario.maps_built {[ "c" := "3" ]} 0 1 0).2 2
    = Done {| mapstore.dep := -1; mapstore.data := {[ "c" := "3" ]} |}.
Proof.
  pose proof (mapstore_Set_index scenario.maps_built {[ "c" := "3" ]} 0 1 0
                ltac:(run)) as (H1 & H2 & _).
  split; [exact H1|]. rewrite H1 in H2. exact H2.
Defined.

Lemma maps_linked_walk :
  mapstore.walk scenario.maps_linked
    {| mapstore.dep := 1; mapstore.data := <[ "a" := "2" ]> {[ "b" := "3" ]} |}
    [ {| mapstore.dep := 1; mapstore.data := <[ "a" := "2" ]> {[ "b" := "3" ]} |};
      {| mapstore.dep := 0; mapstore.data := {[ "a" := "1" ]} |} ]
    {| mapstore.dep := -1; mapstore.data := {[ "r" := "0" ]} |}.
Proof.
  eapply mapstore.walk_step; [discriminate | run |].
  eapply mapstore.walk_step; [discriminate | run |].
  apply mapstore.walk_end. reflexivity.
Defined.

Lemma mapstore_Get_nearest_witness :
  ∃ m, mapstore.Get 3 scenario.maps_linked ["a"; "r"] 2 = Some (Done m)
       ∧ m !! "a" = Some "2" ∧ m !! "r" = None ∧ m !! "b" = None.
Proof.
  destruct (mapstore_Get_nearest scenario.maps_linked ["a"; "r"] 2 _ _ _ 3
              ltac:(run) maps_linked_walk ltac:(simpl; lia))
    as (m & Hm & Hlook).
  exists m. split; [exact Hm|].
  split; [|split]; rewrite Hlook; run.
Defined.

Lemma maps_built_built : mapstore.built scenario.maps_built.
Proof. repeat apply mapstore.built_Set. apply mapstore.built_zero. Defined.

Lemma mapstore_Get_built_witness :
  mapstore.Get 1 scenario.maps_built ["a"; "b"] 1 = Some (Done ∅)
  ∧ mapstore.Get 1 scenario.maps_built ["a"; "b"] 2 = Some Panic.
Proof.
  split.
  - apply (proj1 (mapstore_Get_built scenario.maps_built ["a"; "b"] 1 0
                    maps_built_built)).
    vm_compute. split; [discriminate | reflexivity].
  - apply (proj2 (mapstore_Get_built scenario.maps_built ["a"; "b"] 2 1
                    maps_built_built)).
    vm_compute. intros [_ H]. discriminate H.
Defined.

Lemma forward_passes_answer_witness :
  server.Get scenario.env 1 (db.GetRequest.mk "a" 0) (scenario.world "B")
  = Some (Done ((None, Some scenario.unavailable),
                server.called "B" (db.Get (db.GetRequest.mk "a" 0))
                  (scenario.world "B")))
  ∧ server.GetNode scenario.env (db.GetNodeRequest.mk 7) (scenario.world "B")
    = Done ((None, Some scenario.unavailable),
            server.called "B" (db.GetNode (db.GetNodeRequest.mk 7))
              (scenario.world "B")).
Proof.
  destruct (forward_passes_answer scenario.env (scenario.world "B"))
    as (Hget & Hnode & _ & _).
  split.
  - apply (Hget 1%nat (db.GetRequest.mk "a" 0)); [differs | run].
  - apply (Hnode (db.GetNodeRequest.mk 7)); [differs | run].
Defined.

Lemma forward_dial_failure_witness :
  server.Set_ scenario.env_down (db.SetRequest.mk "a" "1" 0) (scenario.world "B")
  = Done ((Some {| db.SetResponse.Location := 0 |}, Some scenario.refused),
          server.dialed "B" (scenario.world "B"))
  ∧ server.AddChild scenario.env_down (db.AddChildRequest.mk 7 8)
      (scenario.world "B")
    = Done ((Some db.Node0, Some scenario.refused),
            server.dialed "B" (scenario.world "B")).
Proof.
  destruct (forward_dial_failure scenario.env_down (scenario.world "B")
              scenario.refused) as (_ & Hset & _ & Hadd & _).
  split.
  - apply (Hset (db.SetRequest.mk "a" "1" 0)); [differs | run].
  - apply (Hadd (db.AddChildRequest.mk 7 8)); [differs | run].
Defined.

Lemma GetNode_local_witness :
  server.GetNode scenario.env (db.GetNodeRequest.mk 77) (scenario.world "A")
  = Done ((Some db.Node0, Some "Location 4d not found"), scenario.world "A")
  ∧ server.GetNode scenario.env (db.GetNodeRequest.mk 0) (scenario.world "A")
    = Done ((Some (server.to_db storage.root), None), scenario.world "A").
Proof.
  destruct (GetNode_local scenario.env (db.GetNodeRequest.mk 77)
              (scenario.world "A") ltac:(run)) as (Hnone & _ & _).
  destruct (GetNode_local scenario.env (db.GetNodeRequest.mk 0)
              (scenario.world "A") ltac:(run)) as (_ & Hsome & _).
  split.
  - apply Hnone. run.
  - apply Hsome. slot 0%nat.
Defined.

Lemma unknown_location_panics_witness :
  server.AddChild scenario.env (db.AddChildRequest.mk 77 8) (scenario.world "A")
  = Panic
  ∧ server.RemoveChildren scenario.env (db.RemoveChildrenRequest.mk 77)
      (scenario.world "A") = Panic.
Proof.
  destruct (unknown_location_panics scenario.env (scenario.world "A") 77
              ltac:(run) ltac:(run)) as (Hadd & Hremove).
  split; [apply Hadd | exact Hremove].
Defined.

Lemma RemoveChildren_local_witness :
  ∃ w',
    server.RemoveChildren scenario.env
      (db.RemoveChildrenRequest.mk scenario.LX) scenario.forked
    = Done ((Some db.mkEmpty, None), w')
    ∧ storage.Size (server.store w') = 1
    ∧ server.trace w' = server.trace scenario.forked.
Proof.
  destruct (RemoveChildren_local scenario.env
              (db.RemoveChildrenRequest.mk scenario.LX) scenario.forked
              1%nat
              (storage.mkNode scenario.LX 0 [519691042818] "x" "1")
              ltac:(run) ltac:(run) ltac:(run)) as (Hrun & _ & _).
  eexists. split; [exact Hrun|]. split; run.
Defined.

Lemma Split_available_witness :
  ∃ w',
    server.Split scenario.env (db.SplitRequest.mk 0 9 4 "B" "A")
      (scenario.world "A")
    = Done ((Some db.mkEmpty, None), w')
    ∧ server.AvailableServers (server.self w') = [].
Proof.
  destruct (Split_available scenario.env (db.SplitRequest.mk 0 9 4 "B" "A")
              (scenario.world "A"))
    as (w' & Hrun & _ & _ & Havail & _ & Hfound).
  exists w'. split; [exact Hrun|]. rewrite Havail.
  destruct (Hfound 0%nat "B" ltac:(run)) as [Hlen _].
  apply length_zero_iff_nil. rewrite Hlen. reflexivity.
Defined.


Lemma SetGlobalMergeFunction_no_peer_witness :
  server.SetGlobalMergeFunction scenario.env
    (db.SetGlobalMergeFunctionRequest.mk "g") scenario.alone
  = Done ((Some db.mkEmpty, None),
          server.with_self (server.set_globalMergeFunction "g" scenario.A_alone)
            scenario.alone)
  ∧ server.SetGlobalMergeFunction scenario.env_down
      (db.SetGlobalMergeFunctionRequest.mk "g") (scenario.world "A")
    = Fatal.
Proof.
  split.
  - apply (proj1 (SetGlobalMergeFunction_no_peer scenario.env
                    (db.SetGlobalMergeFunctionRequest.mk "g") scenario.alone)).
    repeat constructor.
  - apply (proj2 (SetGlobalMergeFunction_no_peer scenario.env_down
                    (db.SetGlobalMergeFunctionRequest.mk "g")
                    (scenario.world "A"))
             ["A"] "B" [] scenario.refused).
    + reflexivity.
    + repeat constructor.
    + differs.
    + reflexivity.
Defined.

Lemma AddNode_then_GetNode_witness :
  ∃ w',
    server.AddNode (db.AddNodeRequest.mk (Some scenario.far_parent))
      (scenario.world "A")
    = Done ((Some db.mkEmpty, None), w')
    ∧ server.GetNode scenario.env (db.GetNodeRequest.mk scenario.far) w'
      = Done ((Some {| db.Location := scenario.far; db.Dep := 0;
                       db.Key := "p"; db.Value := "0"; db.Children := [] |},
               None), w').
Proof.
  destruct (proj2 (AddNode_then_GetNode scenario.env scenario.far_parent
                     (scenario.world "A"))
              storage.reach_Init ltac:(run))
    as (w' & Hadd & _ & Hget & _).
  exists w'. split; [exact Hadd | exact Hget].
Defined.

Lemma Set_under_root_witness :
  ∃ w',
    server.Set_ scenario.env (db.SetRequest.mk "a" "1" 0) (scenario.world "A")
    = Done ((Some {| db.SetResponse.Location := 416611827713 |}, None), w')
    ∧ storage.Nodes (server.store w')
      = [storage.root; storage.mkNode 416611827713 0 [] "a" "1"]
    ∧ storage.GetNode (server.store w') 416611827713 = Done (Some 1%nat).
Proof.
  destruct (Set_under_root scenario.env (db.SetRequest.mk "a" "1" 0)
              (scenario.world "A") storage.reach_Init ltac:(run) ltac:(run)
              ltac:(vm_compute; intros [H _]; discriminate H))
    as (w' & Hrun & Hnodes & _ & Hfind & _).
  exists w'. split; [exact Hrun|]. split; [exact Hnodes | exact Hfind].
Defined.

Lemma Set_unknown_parent_panics_witness :
  server.Set_ scenario.env (db.SetRequest.mk "a" "1" 12345) (scenario.world "A")
  = Panic.
Proof.
  apply (Set_unknown_parent_panics scenario.env
           (db.SetRequest.mk "a" "1" 12345) (scenario.world "A"));
    first [run | differs].
Defined.

Lemma Set_remote_parent_witness :
  server.Set_ scenario.env_down scenario.under_far scenario.shared
  = Done ((Some {| db.SetResponse.Location := 416611827713 |}, None),
          server.dialed "B"
            (server.written scenario.env_down scenario.under_far scenario.shared))
  ∧ server.Set_ scenario.env scenario.under_far scenario.shared = Panic
  ∧ ∃ w', server.Set_ scenario.env_far scenario.under_far scenario.shared
          = Done ((Some {| db.SetResponse.Location := 416611827713 |}, None), w').
Proof.
  split; [|split].
  - destruct (Set_remote_parent scenario.env_down scenario.under_far
                scenario.shared ltac:(run) ltac:(differs) ltac:(differs)
                ltac:(vm_compute; intros [H _]; discriminate H))
      as (Hdown & _ & _).
    apply (Hdown scenario.refused). run.
  - destruct (Set_remote_parent scenario.env scenario.under_far
                scenario.shared ltac:(run) ltac:(differs) ltac:(differs)
                ltac:(vm_compute; intros [H _]; discriminate H))
      as (_ & Hnil & _).
    apply Hnil; run.
  - destruct (Set_remote_parent scenario.env_far scenario.under_far
                scenario.shared ltac:(run) ltac:(differs) ltac:(differs)
                ltac:(vm_compute; intros [H _]; discriminate H))
      as (_ & _ & Hone).
    eexists. apply (Hone scenario.far_parent None); [run | run | simpl; lia].
Defined.

Lemma Set_fork_without_merge_witness :
  ∃ w2,
    server.Set_ scenario.env scenario.third scenario.quiet
    = Done ((Some {| db.SetResponse.Location := 523986010113 |}, None), w2).
Proof.
  eexists.
  eapply (Set_fork_without_merge scenario.env scenario.third scenario.quiet).
  - run.
  - differs.
  - run.
  - run.
  - run.
  - vm_compute. intros [H _]. discriminate H.
Defined.

Lemma splitRange_gives_up_witness :
  server.splitRange scenario.env_ok scenario.single = Done (tt, scenario.single)
  ∧ server.splitRange scenario.env_busy scenario.crowded
    = Done (tt, server.logged
                  [server.Drew; server.Dialed "B";
                   server.Called "B" (server.lock_call true)]
                  scenario.crowded).
Proof.
  split.
  - apply (proj1 (splitRange_gives_up scenario.env_ok scenario.single)). run.
  - apply (proj2 (proj2 (splitRange_gives_up scenario.env_busy scenario.crowded))
             "B").
    + differs.
    + differs.
    + vm_compute. discriminate.
    + run.
    + run.
    + run.
Defined.

Lemma env_ok_dials tr address : server.Dial scenario.env_ok tr address = None.
Proof. reflexivity. Defined.

Lemma env_ok_calls tr address c :
  (server.client scenario.env_ok tr address c).2 = None.
Proof. destruct c; reflexivity. Defined.

Lemma chain_tidy : server.tidy scenario.chain.
Proof.
  unfold server.tidy.
  repeat (constructor;
          [split; intros Hx; first [differs | exfalso; apply Hx; reflexivity]|]).
  constructor.
Defined.

Lemma split_clears_moved_half_witness :
  ∃ w',
    server.splitRange scenario.env_ok scenario.crowded = Done (tt, w')
    ∧ storage.Nodes (server.store w')
      = [storage.root; storage.tombstone; scenario.node_b; scenario.node_c]
    ∧ storage.Size (server.store w') = 2.
Proof.
  destruct (split_clears_moved_half scenario.env_ok env_ok_dials env_ok_calls
              scenario.crowded "B")
    as (w' & Hrun & Hnodes & _ & _ & Hsize).
  - differs.
  - differs.
  - vm_compute. discriminate.
  - run.
  - intros tr. reflexivity.
  - exact chain_reachable.
  - run.
  - exact chain_tidy.
  - exists w'. split; [exact Hrun|]. split.
    + rewrite Hnodes. run.
    + rewrite (proj1 (Hsize ltac:(run))). run.
Defined.

Lemma split_moves_merge_names_witness :
  ∃ w',
    server.splitRange scenario.env_ok scenario.named = Done (tt, w')
    ∧ server.mergeFunction (server.self w') !! scenario.L1 = None.
Proof.
  destruct (split_moves_merge_names scenario.env_ok env_ok_dials env_ok_calls
              scenario.named "B" scenario.crowded_plan)
    as (w' & Hrun & Htable & _).
  - differs.
  - differs.
  - vm_compute. discriminate.
  - run.
  - intros tr. reflexivity.
  - run.
  - exists w'. split; [exact Hrun|]. rewrite Htable. run.
Defined.

Lemma split_trace_witness :
  ∃ w',
    server.splitRange scenario.env_ok scenario.named = Done (tt, w')
    ∧ ∃ rest,
        server.trace w'
        = [server.Drew; server.Dialed "B";
           server.Called "B" (server.lock_call true);
           server.Called "B"
             (db.AddNode (db.AddNodeRequest.mk
                            (Some (server.to_db scenario.node_a))))]
          ++ rest ++ [server.Called "B" (server.lock_call false)].
Proof.
  destruct (split_trace scenario.env_ok env_ok_dials env_ok_calls
              scenario.named "B" scenario.crowded_plan)
    as (w' & transfers & broadcast & Hrun & Htrace & _ & _).
  - differs.
  - differs.
  - vm_compute. discriminate.
  - run.
  - intros tr. reflexivity.
  - run.
  - exists w'. split; [exact Hrun|]. exists (transfers ++ broadcast).
    rewrite Htrace. cbn. rewrite <- app_assoc. reflexivity.
Defined.


(** * Deliveries and reads through the handlers *)

Section Distribute.

Import server.

Variable E : Env.

Implicit Types (w : World).

Lemma logged_logged es1 es2 w : logged es2 (logged es1 w) = logged (es1 ++ es2) w.
Proof. unfold logged. cbn. rewrite app_assoc. reflexivity. Qed.

Lemma logged_nil w : logged [] w = w.
Proof. unfold logged. rewrite app_nil_r. destruct w; reflexivity. Qed.

Lemma group_fold w (nodes : list db.Node) : ∀ m,
  foldl (λ (acc : outcome (gmap string (list db.Node))) node,
           match acc, node with
           | Done m, Some n =>
               let server :=
                 Locate E (indexingService w) (KeyHash E (db.Location n)) in
               Done (<[server := default [] (m !! server) ++ [n]]> m)
           | Done _, None => Panic
           | _, _ => acc
           end) (Done m) (Some <$> nodes)
  = Done (foldl (λ m n, <[owner E w n := default [] (m !! owner E w n) ++ [n]]> m)
                m nodes).
Proof.
  induction nodes as [|n nodes IH]; intros m; [reflexivity|].
  cbn [fmap list_fmap foldl]. apply IH.
Qed.

Lemma group_panic w (nodes : list (option db.Node)) :
  foldl (λ (acc : outcome (gmap string (list db.Node))) node,
           match acc, node with
           | Done m, Some n =>
               let server :=
                 Locate E (indexingService w) (KeyHash E (db.Location n)) in
               Done (<[server := default [] (m !! server) ++ [n]]> m)
           | Done _, None => Panic
           | _, _ => acc
           end) Panic nodes
  = Panic.
Proof. induction nodes as [|node nodes IH]; [reflexivity|exact IH]. Qed.

Lemma group_nil w (nodes : list (option db.Node)) :
  None ∈ nodes → ∀ m,
  foldl (λ (acc : outcome (gmap string (list db.Node))) node,
           match acc, node with
           | Done m, Some n =>
               let server :=
                 Locate E (indexingService w) (KeyHash E (db.Location n)) in
               Done (<[server := default [] (m !! server) ++ [n]]> m)
           | Done _, None => Panic
           | _, _ => acc
           end) (Done m) nodes
  = Panic.
Proof.
  induction nodes as [|node nodes IH]; intros Hin m.
  - apply elem_of_nil in Hin. destruct Hin.
  - cbn [foldl]. destruct node as [n|].
    + apply IH. apply elem_of_cons in Hin as [Hin|Hin]; [discriminate|exact Hin].
    + apply group_panic.
Qed.

Lemma addressed_group w (nodes : list db.Node) :
  addressed (map_to_list (group E w nodes))
  ≡ₚ (λ n, (owner E w n, n)) <$> nodes.
Proof.
  unfold group. induction nodes as [|n nodes IH] using rev_ind.
  - cbn. rewrite map_to_list_empty. reflexivity.
  - rewrite foldl_app, fmap_app. cbn [foldl fmap list_fmap].
    set (m := foldl _ ∅ nodes) in *. set (k := owner E w n).
    rewrite <- IH. clear IH. unfold addressed.
    destruct (m !! k) as [old|] eqn:Hk; cbn [default].
    + rewrite <- insert_delete_eq.
      rewrite map_to_list_insert by apply lookup_delete_eq.
      rewrite <- (map_to_list_delete m k old Hk).
      cbn [mbind list_bind fst snd]. rewrite fmap_app. cbn [fmap list_fmap].
      rewrite <- !app_assoc. apply Permutation_app_head.
      apply Permutation_app_comm.
    + rewrite map_to_list_insert by exact Hk.
      cbn [mbind list_bind fst snd app fmap list_fmap].
      apply Permutation_cons_append.
Qed.

Hypothesis dials : ∀ tr address, Dial E tr address = None.

Lemma deliver_calls address (nodes : list db.Node) : ∀ w,
  foldl (λ w node,
           logged [Called address
                     (db.AddNode {| db.AddNodeRequest.Node := Some node |})] w)
        w nodes
  = logged ((λ n, Called address
                    (db.AddNode {| db.AddNodeRequest.Node := Some n |}))
            <$> nodes) w.
Proof.
  induction nodes as [|node nodes IH]; intros w.
  - cbn. rewrite logged_nil. reflexivity.
  - cbn [foldl fmap list_fmap]. rewrite IH.
    rewrite logged_logged. reflexivity.
Qed.

Lemma deliver_entry (entry : string * list db.Node) w :
  (let* _ := must_dial E entry.1 in
   for_each entry.2 (λ node,
     emit (Called entry.1
             (db.AddNode {| db.AddNodeRequest.Node := Some node |})))) w
  = Done (tt, logged (deliveries [entry]) w).
Proof.
  unfold bind. rewrite (must_dial_ok E dials).
  rewrite (for_each_fold _ _
             (λ w node, logged [Called entry.1
                                  (db.AddNode
                                     {| db.AddNodeRequest.Node := Some node |})] w))
    by reflexivity.
  rewrite deliver_calls, logged_logged.
  unfold deliveries. cbn [mbind list_bind]. rewrite app_nil_r. reflexivity.
Qed.

Lemma deliver_entries (entries : list (string * list db.Node)) : ∀ w,
  for_each entries (λ entry,
    let* _ := must_dial E entry.1 in
    for_each entry.2 (λ node,
      emit (Called entry.1
              (db.AddNode {| db.AddNodeRequest.Node := Some node |})))) w
  = Done (tt, logged (deliveries entries) w).
Proof.
  induction entries as [|entry entries IH]; intros w.
  - cbn. rewrite logged_nil. reflexivity.
  - cbn [for_each]. unfold bind at 1. rewrite deliver_entry. rewrite IH.
    rewrite logged_logged. unfold deliveries. cbn [mbind list_bind].
    rewrite app_nil_r. reflexivity.
Qed.

End Distribute.

Section Deliveries.

Import server.

Variable E : Env.

(** X29. [distributeNodes] sorts the nodes of a merge answer by the server
    that owns their location and delivers each one once. A [nil] among the
    nodes is a nil dereference, whatever the outside would answer, and
    [distributeNodes] does not return. For nodes without a [nil] among
    them, when every dial succeeds and the owners are other servers,
    whatever the order in which the map is visited: each owner is dialed
    once, the dial is followed by an [AddNode] call for each of its nodes,
    and over all owners the nodes called for are the nodes given, each sent
    to its own owner. The answers to the calls are not looked at. *)
Theorem distributeNodes_delivers (w : World) (nodes : list db.Node) :
  (∀ (l : list (option db.Node)), None ∈ l → distributeNodes E l w = Panic)
  ∧ ((∀ tr address, Dial E tr address = None) →
     (∀ l, range_order E l ≡ₚ l) →
     Forall (λ n, owner E w n ≠ Self (self w)) nodes →
     ∃ entries,
       distributeNodes E (Some <$> nodes) w
       = Done (tt, logged (deliveries entries) w)
       ∧ addressed entries ≡ₚ (λ n, (owner E w n, n)) <$> nodes
       ∧ NoDup entries.*1).
Proof.
  split.
  - intros l Hin. unfold distributeNodes, bind at 1, the_world at 1.
    unfold bind at 1, lift at 1.
    rewrite (group_nil E w l Hin ∅). reflexivity.
  - intros Hdial Horder _.
    exists (range_order E (map_to_list (group E w nodes))). split; [|split].
    + unfold distributeNodes, bind at 1, the_world at 1.
      unfold bind at 1, lift at 1. rewrite group_fold.
      fold (group E w nodes). apply deliver_entries, Hdial.
    + unfold addressed. rewrite Horder. apply addressed_group.
    + rewrite Horder. apply NoDup_fst_map_to_list.
Qed.

End Deliveries.

Lemma distributeNodes_delivers_witness :
  server.distributeNodes scenario.env_ok [Some scenario.far_parent; None]
    scenario.three
  = Panic
  ∧ ∃ entries,
      server.distributeNodes scenario.env_ok
        (Some <$> [scenario.far_parent; scenario.middle; scenario.far_parent])
        scenario.three
      = Done (tt, server.logged (server.deliveries entries) scenario.three)
      ∧ server.addressed entries
        ≡ₚ [("B", scenario.far_parent); ("C", scenario.middle);
            ("B", scenario.far_parent)]
      ∧ NoDup entries.*1.
Proof.
  destruct (distributeNodes_delivers scenario.env_ok scenario.three
              [scenario.far_parent; scenario.middle; scenario.far_parent])
    as [Hnil Hsend].
  split.
  - apply Hnil. apply list_elem_of_further, list_elem_of_here.
  - destruct Hsend as (entries & Hrun & Hsent & Honce).
    + exact env_ok_dials.
    + intros l. reflexivity.
    + repeat (constructor; [differs|]). constructor.
    + exists entries. split; [exact Hrun|]. split; [|exact Honce].
      rewrite Hsent. vm_compute. reflexivity.
Defined.
